(** * bhejo: peer-to-peer file transfer

    A shallow embedding of the two halves of the program:

    - [Transfer]: the chunked transfer engine of the browser endpoint
      ([WebRTCManager.sendFile], [sendFileChunks],
      [handleDataChannelMessage], [handleChunkWithSequence],
      [handleFileMetadata], [handleFileComplete]);
    - [Broker]: the signaling server ([handleJoin], [handleSignaling],
      the [close] handler and the expiry sweep).

    Around them: [SendQueue] (the page's [sendFilesNow]), [Integrity] (the
    checksum text and [verifyFileIntegrity]), [RateLimit] (the HTTP rate
    limiter and its clean-up timer) and [Heartbeat] (the ping timer of the
    WebSocket server).

    JavaScript numbers that count bytes and chunks are [N]; the fields that
    travel in the 13-byte binary header are reduced modulo 2^32 where
    [DataView.setUint32] does so.  JS [Map]s and [Set]s are [gmap]s and
    [gset]s.  Callbacks registered from outside ([onProgress],
    [onFileReceived], [onError], ...) are taken to be installed; the calls of
    [onError] are recorded, the others have no effect on the protocol.
    Asynchronous code is a state machine stepped by the event loop: one step
    per callback, with what the environment does in between (the transport
    flushing its buffer, the data channel closing, a file read failing, the
    read of a [Blob] ending, sockets closing, [Math.random], [Date.now])
    given as input.

    The first part of the file is the model, the second part ("Properties")
    the statements proved about it. *)

From Stdlib Require Import NArith ZArith Lia List.
From Stdlib Require Import Strings.Byte.
From stdpp Require Import base tactics option list gmap sets strings.

Local Open Scope N_scope.

#[global] Instance byte_eq_decision : EqDecision byte := Byte.byte_eq_dec.

(** ** Little-endian 32-bit fields of a [DataView] *)

Module DataView.

(** One byte of a number: [n mod 256]. *)
Definition u8 (n : N) : byte :=
  match Byte.of_N (n mod 256) with
  | Some b => b
  | None => x00
  end.

(** [view.setUint32(_, v, true)]: the value is converted to an unsigned
    32-bit integer (so it wraps) and written least significant byte first. *)
Definition setUint32 (v : N) : list byte :=
  [u8 v; u8 (v / 256); u8 (v / 65536); u8 (v / 16777216)].

(** [view.getUint32(off, true)]; the caller has checked the length, a
    missing byte reads as 0 here. *)
Definition getUint8 (bs : list byte) (off : nat) : N :=
  match bs !! off with
  | Some b => Byte.to_N b
  | None => 0
  end.

Definition getUint32 (bs : list byte) (off : nat) : N :=
  getUint8 bs off
  + 256 * getUint8 bs (off + 1)
  + 65536 * getUint8 bs (off + 2)
  + 16777216 * getUint8 bs (off + 3).

End DataView.

(** ** The transfer engine (client side) *)

Module Transfer.
Import DataView.

(** [const CHUNK_SIZE = 64 * 1024] *)
Definition CHUNK_SIZE : N := 64 * 1024.

(** The backpressure threshold [1024 * 1024] of [sendFileChunks]. *)
Definition BUFFER_THRESHOLD : N := 1024 * 1024.

(** [const headerSize = 13] *)
Definition headerSize : N := 13.

(** *** Frames on the data channel *)

Record FileMetadata := {
  md_name : string;
  md_size : N;
  md_mimeType : string;
  md_lastModified : Z
}.

(** [totalChunks] and [checksum] may be absent from a [file-complete]. *)
Record FileComplete := {
  fc_fileName : string;
  fc_totalChunks : option N;
  fc_checksum : option string
}.

Inductive TextFrame :=
| file_metadata (m : FileMetadata)
| file_complete (c : FileComplete)
| chunk_ack (chunkIndex : N)
| unknown_text.

(** What is handed to [send()], and the [data] of a message event: a
    string, an [ArrayBuffer] (or a view on one), or a [Blob].  The sender
    only sends strings and [ArrayBuffer]s; on the receiving side the
    platform hands binary data over as an [ArrayBuffer] or as a [Blob],
    according to the channel's [binaryType], which the program never sets. *)
Inductive Message :=
| Text (t : TextFrame)
| Binary (bs : list byte)
| Blob (bs : list byte).

(** What the endpoint cannot compute by itself: the number of bytes
    [JSON.stringify] produces for a text frame, and [crypto.subtle]
    ([None] outside a secure context; the digest itself may reject). *)
Record Platform := {
  json_bytes : TextFrame -> N;
  subtle : option (list byte -> option string)
}.

(** *** The file being sent *)

Record File := {
  file_name : string;
  file_type : string;
  file_lastModified : Z;
  content : list byte
}.

Definition file_size (f : File) : N := N.of_nat (length (content f)).

(** [file.slice(a, b)] clamps both ends to the file. *)
Definition slice (f : File) (a b : N) : list byte :=
  take (N.to_nat b - N.to_nat a)%nat (drop (N.to_nat a) (content f)).

(** [Math.ceil(size / CHUNK_SIZE)] *)
Definition ceil_chunks (sz : N) : N := (sz + (CHUNK_SIZE - 1)) / CHUNK_SIZE.

Definition totalChunks (f : File) : N := ceil_chunks (file_size f).

Definition byteLength (bs : list byte) : N := N.of_nat (length bs).

(** [[type(1)][index(4)][totalChunks(4)][dataLength(4)][data...]] *)
Definition chunk_frame (chunkIndex total : N) (chunk : list byte) : list byte :=
  x01 :: setUint32 chunkIndex ++ setUint32 total
      ++ setUint32 (byteLength chunk) ++ chunk.

(** *** The data channel, seen from the sending side *)

Record DataChannel := {
  dc_open : bool;            (* readyState === 'open' *)
  bufferedAmount : N;
  dc_sent : list Message     (* everything handed to send(), in order *)
}.

(** *** Sender: [sendFile] and the callbacks of [sendFileChunks] *)

(** How a read of [FileReader] ends: [onload], [onerror] or [onabort]. *)
Inductive ReadResult := read_ok | read_error | read_abort.

Inductive Status :=
| Reading      (* a readAsArrayBuffer of slice(offset, offset + CHUNK_SIZE) is in flight *)
| Deferred     (* the 100 ms backpressure timer is armed *)
| Hashing      (* calculateFileChecksum is pending *)
| Resolved
| Rejected
| Stalled.     (* no callback is scheduled and the promise is not settled *)

Record Sender := {
  offset : N;
  chunkIndex : N;
  s_bytesTransferred : N;
  status : Status
}.

(** *** Receiver: the handlers behind [dataChannel.onmessage]

    Binary data is taken as the [ArrayBuffer] it arrives as (a [Blob] is
    handed to the same handler once its bytes have been read). *)

(** [this.currentFile] (its unused [chunks: []] field is left out). *)
Record CurrentFile := {
  cf_name : string;
  cf_size : N;
  cf_type : string;
  cf_lastModified : Z
}.

(** An entry of [this.receivedFiles]: [{...this.currentFile, blob}]. *)
Record ReceivedFile := {
  rf_file : CurrentFile;
  rf_blob : list byte
}.

(** The argument of an [onError] call made by [handleFileComplete]:
    "File transfer incomplete: n chunks missing". *)
Inductive TransferError :=
| transfer_incomplete (missing : list N).

Record Receiver := {
  currentFile : option CurrentFile;
  receivedChunks : list (list byte);          (* legacy, headerless chunks *)
  chunkMap : gmap N (list byte);
  receivedChunkIndices : gset N;
  expectedChunkCount : N;
  bytesTransferred : N;                       (* this.stats.bytesTransferred *)
  receivedFiles : list ReceivedFile;
  onError_calls : list TransferError;
  dataChannel : DataChannel;                  (* chunk-acks leave through it *)
  blobReads : list (list byte)                (* Blobs a FileReader is still reading *)
}.

(** A freshly constructed [WebRTCManager] on an open channel. *)
Definition new_receiver (ch : DataChannel) : Receiver :=
  {| currentFile := None; receivedChunks := []; chunkMap := ∅;
     receivedChunkIndices := ∅; expectedChunkCount := 0;
     bytesTransferred := 0; receivedFiles := []; onError_calls := [];
     dataChannel := ch; blobReads := [] |}.

(** [{ index, totalChunks, data }] as cut out of a binary frame. *)
Record ChunkData := {
  index : N;
  cd_totalChunks : N;
  data : list byte
}.

(** [for (let i = 0; i < n; i++)] *)
Definition upto (n : N) : list N := map N.of_nat (seq 0 (N.to_nat n)).

Section Engine.
Context (P : Platform).

Definition message_bytes (m : Message) : N :=
  match m with
  | Text t => json_bytes P t
  | Binary bs | Blob bs => byteLength bs
  end.

Definition dc_send (ch : DataChannel) (m : Message) : DataChannel :=
  {| dc_open := dc_open ch;
     bufferedAmount := bufferedAmount ch + message_bytes m;
     dc_sent := dc_sent ch ++ [m] |}.

(** The transport flushes [d] queued bytes between two callbacks. *)
Definition dc_drain (d : N) (ch : DataChannel) : DataChannel :=
  {| dc_open := dc_open ch;
     bufferedAmount := bufferedAmount ch - d;
     dc_sent := dc_sent ch |}.

Definition set_status (st : Status) (s : Sender) : Sender :=
  {| offset := offset s; chunkIndex := chunkIndex s;
     s_bytesTransferred := s_bytesTransferred s; status := st |}.

Definition complete_frame (f : File) (checksum : option string) : Message :=
  Text (file_complete {| fc_fileName := file_name f;
                         fc_totalChunks := Some (totalChunks f);
                         fc_checksum := checksum |}).

Definition metadata_frame (f : File) : Message :=
  Text (file_metadata {| md_name := file_name f; md_size := file_size f;
                         md_mimeType := file_type f;
                         md_lastModified := file_lastModified f |}).

(** [reader.onload] *)
Definition onload (f : File) (s : Sender) (ch : DataChannel)
  : Sender * DataChannel :=
  let chunk := slice f (offset s) (offset s + CHUNK_SIZE) in
  if negb (dc_open ch) then (set_status Rejected s, ch)
  else if BUFFER_THRESHOLD <? bufferedAmount ch then (set_status Deferred s, ch)
  else
    let ch1 := dc_send ch (Binary (chunk_frame (chunkIndex s) (totalChunks f) chunk)) in
    let s1 := {| offset := offset s + CHUNK_SIZE;
                 chunkIndex := chunkIndex s + 1;
                 s_bytesTransferred := s_bytesTransferred s + byteLength chunk;
                 status := Reading |} in
    if offset s1 <? file_size f then (s1, ch1)
    else match subtle P with
         | Some _ => (set_status Hashing s1, ch1)
         | None => (set_status Resolved s1, dc_send ch1 (complete_frame f None))
         end.

(** The [setTimeout] callback of the backpressure branch: it re-reads the
    same slice only when [offset < file.size]. *)
Definition ontimeout (f : File) (s : Sender) (ch : DataChannel)
  : Sender * DataChannel :=
  if offset s <? file_size f then (set_status Reading s, ch)
  else (set_status Stalled s, ch).

(** [calculateFileChecksum(file)] settles: [file-complete] goes out with
    the digest, or without it when the digest rejected.  [send] on a
    channel that is no longer open throws in both branches and the
    promise is left unsettled. *)
Definition onchecksum (f : File) (s : Sender) (ch : DataChannel)
  : Sender * DataChannel :=
  if dc_open ch then
    let checksum := match subtle P with
                    | Some digest => digest (content f)
                    | None => None
                    end in
    (set_status Resolved s, dc_send ch (complete_frame f checksum))
  else (set_status Stalled s, ch).

(** The callback that runs when the pending read, if there is one, has
    ended in [onload]. *)
Definition fire (f : File) (s : Sender) (ch : DataChannel)
  : Sender * DataChannel :=
  match status s with
  | Reading => onload f s ch
  | Deferred => ontimeout f s ch
  | Hashing => onchecksum f s ch
  | Resolved | Rejected | Stalled => (s, ch)
  end.

(** The event loop while every read succeeds: before each callback the
    transport flushes the scheduled number of bytes.  ([play] below has
    the reads that fail as well.) *)
Fixpoint run (f : File) (sched : list N) (s : Sender) (ch : DataChannel)
  : Sender * DataChannel :=
  match sched with
  | [] => (s, ch)
  | d :: sched' =>
      let '(s', ch') := fire f s (dc_drain d ch) in
      run f sched' s' ch'
  end.

(** [sendFileChunks(file)] up to the first [readAsArrayBuffer]. *)
Definition sendFileChunks (f : File) (ch : DataChannel) : Sender :=
  {| offset := 0; chunkIndex := 0; s_bytesTransferred := 0;
     status := if dc_open ch then Reading else Rejected |}.

(** [sendFile(file)], for a file that is present.  [isConnected] is
    [this.isConnected] at the call: set when the data channel opens, and
    cleared when the data channel closes, when the signaling socket closes
    and on [peer-disconnected], so it can be [false] while the channel is
    open.  With the flag set and the channel open the metadata goes out
    first, unchecked against the buffer, then the chunk loop starts;
    otherwise the promise is rejected. *)
Definition sendFile (isConnected : bool) (f : File) (ch : DataChannel)
  : Sender * DataChannel :=
  if isConnected && dc_open ch then
    let ch1 := dc_send ch (metadata_frame f) in
    (sendFileChunks f ch1, ch1)
  else
    ({| offset := 0; chunkIndex := 0; s_bytesTransferred := 0;
        status := Rejected |}, ch).

(** [reader.onerror] and [reader.onabort]: the promise is rejected. *)
Definition onerror (s : Sender) (ch : DataChannel) : Sender * DataChannel :=
  (set_status Rejected s, ch).

(** The data channel closes. *)
Definition dc_close (ch : DataChannel) : DataChannel :=
  {| dc_open := false; bufferedAmount := bufferedAmount ch;
     dc_sent := dc_sent ch |}.

(** One turn of the event loop on the sending side: the transport has
    flushed [flushed] bytes, the channel has closed or not, and, if the
    callback that runs is that of the pending read, [reader] says which
    one it is. *)
Record Tick := {
  flushed : N;
  closes : bool;
  reader : ReadResult
}.

Definition between (t : Tick) (ch : DataChannel) : DataChannel :=
  dc_drain (flushed t) (if closes t then dc_close ch else ch).

(** The callback that runs: that of the read when one is pending,
    otherwise as in [fire]. *)
Definition callback (f : File) (res : ReadResult) (s : Sender)
    (ch : DataChannel) : Sender * DataChannel :=
  match status s, res with
  | Reading, read_error | Reading, read_abort => onerror s ch
  | _, _ => fire f s ch
  end.

(** The event loop, with the reads that fail and a channel that may close. *)
Fixpoint play (f : File) (ticks : list Tick) (s : Sender) (ch : DataChannel)
  : Sender * DataChannel :=
  match ticks with
  | [] => (s, ch)
  | t :: ticks' =>
      let '(s', ch') := callback f (reader t) s (between t ch) in
      play f ticks' s' ch'
  end.

(** A transfer from the call of [sendFile] on. *)
Definition transfer (isConnected : bool) (f : File) (ticks : list Tick)
    (ch : DataChannel) : Sender * DataChannel :=
  let '(s, ch1) := sendFile isConnected f ch in play f ticks s ch1.

(** The transfer of a connected endpoint whose reads all succeed and whose
    channel stays as it is. *)
Definition transmit (f : File) (sched : list N) (ch : DataChannel)
  : Sender * DataChannel :=
  let '(s, ch1) := sendFile true f ch in run f sched s ch1.

(** [sendChunkAck(chunkIndex)] *)
Definition sendChunkAck (r : Receiver) (i : N) : Receiver :=
  if dc_open (dataChannel r) then
    {| currentFile := currentFile r; receivedChunks := receivedChunks r;
       chunkMap := chunkMap r; receivedChunkIndices := receivedChunkIndices r;
       expectedChunkCount := expectedChunkCount r;
       bytesTransferred := bytesTransferred r;
       receivedFiles := receivedFiles r; onError_calls := onError_calls r;
       dataChannel := dc_send (dataChannel r) (Text (chunk_ack i));
       blobReads := blobReads r |}
  else r.

(** [handleChunkWithSequence(chunkData)] *)
Definition handleChunkWithSequence (r : Receiver) (c : ChunkData) : Receiver :=
  match currentFile r with
  | None => r
  | Some _ =>
      if cd_totalChunks c <=? index c then r
      else if bool_decide (index c ∈ receivedChunkIndices r) then
        sendChunkAck r (index c)
      else
        sendChunkAck
          {| currentFile := currentFile r; receivedChunks := receivedChunks r;
             chunkMap := <[index c := data c]> (chunkMap r);
             receivedChunkIndices := {[index c]} ∪ receivedChunkIndices r;
             expectedChunkCount := expectedChunkCount r;
             bytesTransferred := bytesTransferred r + byteLength (data c);
             receivedFiles := receivedFiles r;
             onError_calls := onError_calls r;
             dataChannel := dataChannel r; blobReads := blobReads r |}
          (index c)
  end.

(** [addReceivedChunk(chunk)]: the legacy path. *)
Definition addReceivedChunk (r : Receiver) (chunk : list byte) : Receiver :=
  match currentFile r with
  | None => r
  | Some _ =>
      {| currentFile := currentFile r;
         receivedChunks := receivedChunks r ++ [chunk];
         chunkMap := chunkMap r;
         receivedChunkIndices := receivedChunkIndices r;
         expectedChunkCount := expectedChunkCount r;
         bytesTransferred := bytesTransferred r + byteLength chunk;
         receivedFiles := receivedFiles r; onError_calls := onError_calls r;
         dataChannel := dataChannel r; blobReads := blobReads r |}
  end.

(** [handleFileMetadata(metadata)].  The type is
    [metadata.mimeType || metadata.type], and [metadata.type] is the frame's
    own tag. *)
Definition handleFileMetadata (r : Receiver) (m : FileMetadata) : Receiver :=
  {| currentFile :=
       Some {| cf_name := md_name m; cf_size := md_size m;
               cf_type := if bool_decide (md_mimeType m = EmptyString)
                          then "file-metadata"%string else md_mimeType m;
               cf_lastModified := md_lastModified m |};
     receivedChunks := []; chunkMap := ∅; receivedChunkIndices := ∅;
     expectedChunkCount := ceil_chunks (md_size m);
     bytesTransferred := 0;
     receivedFiles := receivedFiles r; onError_calls := onError_calls r;
     dataChannel := dataChannel r; blobReads := blobReads r |}.

(** [completeData?.totalChunks || this.expectedChunkCount] *)
Definition expectedChunks (r : Receiver) (c : FileComplete) : N :=
  match fc_totalChunks c with
  | Some n => if n =? 0 then expectedChunkCount r else n
  | None => expectedChunkCount r
  end.

(** [this.chunkMap.size > 0 ? this.chunkMap.size : this.receivedChunks.length] *)
Definition receivedChunkCount (r : Receiver) : N :=
  if (0 <? size (chunkMap r))%nat then N.of_nat (size (chunkMap r))
  else N.of_nat (length (receivedChunks r)).

(** [missingChunks], as long as the array can hold the indices (a
    JavaScript array takes at most 2^32 - 1 elements). *)
Definition missingChunks (r : Receiver) (expected : N) : list N :=
  List.filter
    (fun i => negb (bool_decide (i ∈ receivedChunkIndices r))
              && negb (bool_decide (is_Some (chunkMap r !! i))))
    (upto expected).

(** The size of the zero-filled stand-in for a missing chunk [i]. *)
Definition placeholderSize (cf : CurrentFile) (expected i : N) : N :=
  if i =? expected - 1
  then (if cf_size cf mod CHUNK_SIZE =? 0 then CHUNK_SIZE
        else cf_size cf mod CHUNK_SIZE)
  else CHUNK_SIZE.

(** [new ArrayBuffer(n)] *)
Definition zeros (n : N) : list byte := repeat x00 (N.to_nat n).

(** [chunksToReassemble] *)
Definition chunksToReassemble (r : Receiver) (cf : CurrentFile) (expected : N)
  : list (list byte) :=
  if (0 <? size (chunkMap r))%nat then
    map (fun i => match chunkMap r !! i with
                  | Some chunk => chunk
                  | None => zeros (placeholderSize cf expected i)
                  end)
        (upto expected)
  else receivedChunks r.

(** [totalSize] *)
Definition totalSize (chunks : list (list byte)) : N :=
  foldr (fun chunk sum => byteLength chunk + sum) 0 chunks.

(** [handleFileComplete(completeData)].  The checksum comparison only logs
    and is left out; the [Blob] is the concatenation of its parts. *)
Definition handleFileComplete (r : Receiver) (c : FileComplete) : Receiver :=
  match currentFile r with
  | None => r
  | Some cf =>
      let expected := expectedChunks r c in
      let errs :=
        if receivedChunkCount r <? expected
        then [transfer_incomplete (missingChunks r expected)]
        else [] in
      let blob := concat (chunksToReassemble r cf expected) in
      {| currentFile := None; receivedChunks := []; chunkMap := ∅;
         receivedChunkIndices := ∅; expectedChunkCount := 0;
         bytesTransferred := bytesTransferred r;
         receivedFiles := receivedFiles r ++ [{| rf_file := cf; rf_blob := blob |}];
         onError_calls := onError_calls r ++ errs;
         dataChannel := dataChannel r; blobReads := blobReads r |}
  end.

(** The binary branch of [handleDataChannelMessage]. *)
Definition parse_chunk (bs : list byte) : option ChunkData :=
  if (13 <=? length bs)%nat && (getUint8 bs 0 =? 1) then
    Some {| index := getUint32 bs 1;
            cd_totalChunks := getUint32 bs 5;
            data := take (N.to_nat (getUint32 bs 9)) (drop 13 bs) |}
  else None.

(** [reader.readAsArrayBuffer(data)] of the Blob branch: a read is in
    flight and the handler returns. *)
Definition readAsArrayBuffer (r : Receiver) (bs : list byte) : Receiver :=
  {| currentFile := currentFile r; receivedChunks := receivedChunks r;
     chunkMap := chunkMap r; receivedChunkIndices := receivedChunkIndices r;
     expectedChunkCount := expectedChunkCount r;
     bytesTransferred := bytesTransferred r;
     receivedFiles := receivedFiles r; onError_calls := onError_calls r;
     dataChannel := dataChannel r; blobReads := blobReads r ++ [bs] |}.

(** The read in flight at position [k] has ended. *)
Definition endRead (r : Receiver) (k : nat) : Receiver :=
  {| currentFile := currentFile r; receivedChunks := receivedChunks r;
     chunkMap := chunkMap r; receivedChunkIndices := receivedChunkIndices r;
     expectedChunkCount := expectedChunkCount r;
     bytesTransferred := bytesTransferred r;
     receivedFiles := receivedFiles r; onError_calls := onError_calls r;
     dataChannel := dataChannel r; blobReads := delete k (blobReads r) |}.

(** [handleDataChannelMessage(data)].  A string or an [ArrayBuffer] is
    handled at once; for a [Blob] a [FileReader] is started and the handler
    returns: the chunk is handled when the reader's [onload] fires
    ([blob_onload] below). *)
Definition handleDataChannelMessage (r : Receiver) (m : Message) : Receiver :=
  match m with
  | Blob bs => readAsArrayBuffer r bs
  | Binary bs =>
      match parse_chunk bs with
      | Some c => handleChunkWithSequence r c
      | None => addReceivedChunk r bs
      end
  | Text (file_metadata md) => handleFileMetadata r md
  | Text (file_complete c) => handleFileComplete r c
  | Text (chunk_ack _) => r
  | Text unknown_text => r
  end.

(** The receiver's [onmessage] fed with a sequence of frames. *)
Definition receive (r : Receiver) (ms : list Message) : Receiver :=
  foldl handleDataChannelMessage r ms.

(** [reader.onload] of the Blob branch, for the read in flight at position
    [k] (oldest first): [this.handleDataChannelMessage(e.target.result)],
    with the [ArrayBuffer] that was read. *)
Definition blob_onload (r : Receiver) (k : nat) : Receiver :=
  match blobReads r !! k with
  | Some bs => handleDataChannelMessage (endRead r k) (Binary bs)
  | None => r
  end.

(** [reader.onerror] of the Blob branch: the error is logged and the chunk
    is lost. *)
Definition blob_onerror (r : Receiver) (k : nat) : Receiver := endRead r k.

(** What the event loop runs on the receiving side: the handler of a
    message event of the data channel, or the callback of a Blob read that
    has ended.  A read never ends in the task that started it. *)
Inductive Delivery :=
| message_event (m : Message)
| blob_loaded (k : nat)
| blob_failed (k : nat).

Definition deliver (r : Receiver) (ev : Delivery) : Receiver :=
  match ev with
  | message_event m => handleDataChannelMessage r m
  | blob_loaded k => blob_onload r k
  | blob_failed k => blob_onerror r k
  end.

Definition receive_events (r : Receiver) (evs : list Delivery) : Receiver :=
  foldl deliver r evs.

End Engine.

(** *** Binary frames that the channel hands over as Blobs

    [binaryType] of the data channel is never set, so it is the browser
    that decides whether a binary frame arrives as an [ArrayBuffer] or as a
    [Blob].  With Blobs the order in which the chunks are handled is the
    order in which the reads end.  A step of the platform: the next frame
    is handed over, or the read in flight at position [k] ends. *)
Inductive HandOver :=
| next_frame
| read_ends (k : nat).

Fixpoint hand_over (frames : list (list byte)) (steps : list HandOver)
  : list Delivery :=
  match steps with
  | [] => []
  | next_frame :: steps' =>
      match frames with
      | bs :: frames' => message_event (Blob bs) :: hand_over frames' steps'
      | [] => hand_over [] steps'
      end
  | read_ends k :: steps' => blob_loaded k :: hand_over frames steps'
  end.

(** The steps hand over all of the [left] frames and end every read, those
    of the [pending] reads in flight included. *)
Fixpoint timely (left pending : nat) (steps : list HandOver) : bool :=
  match steps with
  | [] => Nat.eqb left 0 && Nat.eqb pending 0
  | next_frame :: steps' =>
      match left with
      | S left' => timely left' (S pending) steps'
      | O => false
      end
  | read_ends k :: steps' =>
      Nat.ltb k pending && timely left (pending - 1) steps'
  end.

End Transfer.

(** ** The signaling broker (server side) *)

Module Broker.

Local Open Scope string_scope.
Local Open Scope nat_scope.

(** [parseInt(process.env.MAX_ROOM_SIZE || '2', 10)] and
    [parseInt(process.env.ROOM_EXPIRY || '600000', 10)], at their defaults. *)
Definition MAX_ROOM_SIZE : nat := 2.
Definition ROOM_EXPIRY : Z := 600000.

(** [ws.readyState] *)
Inductive ReadyState := CONNECTING | OPEN | CLOSING | CLOSED.

Inductive Role := sender | receiver.

(** A value found in a parsed frame.  The broker never looks inside the
    [offer], [answer] and [candidate] payloads; it only tests them for
    truthiness.  An object or array is kept as its JSON text. *)
Inductive JSValue :=
| undefined
| null
| JBoolean (b : bool)
| JNumber (n : Z)
| JString (s : string)
| JObject (json : string).

Definition truthy (v : JSValue) : bool :=
  match v with
  | undefined | null => false
  | JBoolean b => b
  | JNumber n => negb (n =? 0)%Z
  | JString s => negb (bool_decide (s = ""))
  | JObject _ => true
  end.

(** The frames of [broadcastToRoom]. *)
Inductive RelayKind := file_metadata | chunk | transfer_complete | transfer_error.

(** [data], the parsed inbound frame, by [data.type].  In a [join],
    [roomId] is [None] unless it is a string, and [createNew] is the
    truthiness of the field. *)
Inductive ClientMessage :=
| join (roomId : option string) (createNew : bool)
| offer (payload : JSValue)
| answer (payload : JSValue)
| ice_candidate (candidate : JSValue)
| relay (kind : RelayKind) (body : JSValue)
| ping
| unknown_type
| malformed.                                 (* JSON.parse throws *)

(** Outbound frames.  A forwarded frame is the inbound frame itself;
    [{type: 'offer', offer: room.pendingOffer}] is [forwarded (offer _)]. *)
Inductive ServerMessage :=
| connected
| joined (roomId : string) (peerId : option string) (role : Role)
         (peerCount : option nat)
| error (message : string)
| forwarded (data : ClientMessage)
| peer_disconnected
| room_expired
| pong.

(** A connection: the socket, the variables [currentRoom] and [peerId] of
    its handler's closure, and what has been written to it. *)
Record Session := {
  readyState : ReadyState;
  currentRoom : option string;
  peerId : option string;
  outbox : list ServerMessage
}.

Record Room := {
  peers : list nat;
  createdAt : Z;
  peerIds : gmap nat string;
  pendingOffer : JSValue;
  pendingAnswer : JSValue
}.

Record State := {
  rooms : gmap string Room;
  sockets : gmap nat Session
}.

Definition initial : State := {| rooms := ∅; sockets := ∅ |}.

(** What a handler reads from outside: [Math.random] (the i-th draw of the
    call, already scaled to an integer) and [Date.now()]. *)
Record Env := {
  random : nat → nat;
  now : Z
}.

Definition is_open (s : Session) : bool :=
  match readyState s with OPEN => true | _ => false end.

Definition set_rooms (f : gmap string Room → gmap string Room) (b : State) : State :=
  {| rooms := f (rooms b); sockets := sockets b |}.

Definition set_sockets (f : gmap nat Session → gmap nat Session) (b : State) : State :=
  {| rooms := rooms b; sockets := f (sockets b) |}.

Definition push (m : ServerMessage) (s : Session) : Session :=
  {| readyState := readyState s; currentRoom := currentRoom s;
     peerId := peerId s; outbox := outbox s ++ [m] |}.

(** [ws.send(JSON.stringify(m))].  Only an open socket transmits; on a
    closing or closed one the frame is lost, with or without the
    [readyState === WebSocket.OPEN] guard in front of the call. *)
Definition send (ws : nat) (m : ServerMessage) (b : State) : State :=
  match sockets b !! ws with
  | Some s => if is_open s then set_sockets (insert ws (push m s)) b else b
  | None => b
  end.

(** The assignments [peerId = ...; currentRoom = ...] of [handleJoin]. *)
Definition enter (ws : nat) (roomId peer : string) (b : State) : State :=
  set_sockets
    (alter (fun s => {| readyState := readyState s; currentRoom := Some roomId;
                        peerId := Some peer; outbox := outbox s |}) ws) b.

Definition chars : string := "ABCDEFGHJKLMNPQRSTUVWXYZ23456789".

(** [chars.charAt(k)] *)
Definition charAt (s : string) (k : nat) : string :=
  match String.get k s with
  | Some c => String c ""
  | None => ""
  end.

(** [generateRoomCode()]: six draws of
    [Math.floor(Math.random() * chars.length)], which lies in [0 .. 31]. *)
Definition generateRoomCode (rnd : nat → nat) : string :=
  foldl (fun code i => code +:+ charAt chars (rnd i mod 32)) "" (seq 0 6).

Definition new_room (ws : nat) (t : Z) : Room :=
  {| peers := [ws]; createdAt := t; peerIds := {[ws := "peer1"]};
     pendingOffer := null; pendingAnswer := null |}.

(** [room.peers.forEach((peer, index) => ...)] of [handleJoin]. *)
Fixpoint notify_joined (roomId : string) (room : Room) (ps : list nat)
    (index : nat) (b : State) : State :=
  match ps with
  | [] => b
  | peer :: ps' =>
      notify_joined roomId room ps' (S index)
        (send peer
           (joined roomId (peerIds room !! peer)
              (match index with 0 => sender | _ => receiver end)
              (Some (length (peers room))))
           b)
  end.

Definition room_full_message : string :=
  "Room is full (2 peers maximum). This is a peer-to-peer transfer, so only one sender and one receiver can be in a room.".

Definition socket_open (ws : nat) (b : State) : bool :=
  match sockets b !! ws with
  | Some s => is_open s
  | None => false
  end.

(** [handleJoin(ws, data)] *)
Definition handleJoin (e : Env) (ws : nat) (roomId : option string)
    (createNew : bool) (b : State) : State :=
  if createNew then
    let newRoomId := generateRoomCode (random e) in
    let b1 := enter ws newRoomId "peer1" b in
    let b2 := set_rooms (insert newRoomId (new_room ws (now e))) b1 in
    send ws (joined newRoomId (Some "peer1") sender None) b2
  else
    match roomId with
    | Some id =>
        match (if bool_decide (id = "") then None else rooms b !! id) with
        | Some room =>
            if MAX_ROOM_SIZE <=? length (peers room) then
              send ws (error room_full_message) b
            else
              let b1 := enter ws id "peer2" b in
              let room1 := {| peers := peers room ++ [ws];
                              createdAt := createdAt room;
                              peerIds := <[ws := "peer2"]> (peerIds room);
                              pendingOffer := pendingOffer room;
                              pendingAnswer := pendingAnswer room |} in
              let b2 := set_rooms (insert id room1) b1 in
              let b3 := notify_joined id room1 (peers room1) 0 b2 in
              if truthy (pendingOffer room1) && socket_open ws b3 then
                set_rooms
                  (insert id {| peers := peers room1;
                                createdAt := createdAt room1;
                                peerIds := peerIds room1;
                                pendingOffer := null;
                                pendingAnswer := pendingAnswer room1 |})
                  (send ws (forwarded (offer (pendingOffer room1))) b3)
              else b3
        | None => send ws (error "Invalid or expired room") b
        end
    | None => send ws (error "Invalid or expired room") b
    end.

(** The room a handler of [ws] works on: [currentRoom] must be truthy and
    in the table. *)
Definition current_room (ws : nat) (b : State) : option (string * Room) :=
  match sockets b !! ws with
  | Some s =>
      match currentRoom s with
      | Some id =>
          if bool_decide (id = "") then None
          else (fun room => (id, room)) <$> rooms b !! id
      | None => None
      end
  | None => None
  end.

(** [room.peers.forEach(peer => { if (peer !== ws && open) peer.send(data) })] *)
Definition broadcast (ws : nat) (m : ServerMessage) (ps : list nat) (b : State)
  : State :=
  foldl (fun b peer => if bool_decide (peer = ws) then b else send peer m b) b ps.

(** [handleSignaling(ws, data)] *)
Definition handleSignaling (ws : nat) (data : ClientMessage) (b : State) : State :=
  match current_room ws b with
  | None => b
  | Some (id, room) =>
      match data with
      | offer payload =>
          match peers room !! 1 with
          | Some r =>
              if socket_open r b then send r (forwarded data) b
              else set_rooms
                     (insert id {| peers := peers room;
                                   createdAt := createdAt room;
                                   peerIds := peerIds room;
                                   pendingOffer := payload;
                                   pendingAnswer := pendingAnswer room |}) b
          | None =>
              set_rooms
                (insert id {| peers := peers room;
                              createdAt := createdAt room;
                              peerIds := peerIds room;
                              pendingOffer := payload;
                              pendingAnswer := pendingAnswer room |}) b
          end
      | answer payload =>
          match peers room !! 0 with
          | Some s =>
              if socket_open s b then send s (forwarded data) b
              else set_rooms
                     (insert id {| peers := peers room;
                                   createdAt := createdAt room;
                                   peerIds := peerIds room;
                                   pendingOffer := pendingOffer room;
                                   pendingAnswer := payload |}) b
          | None =>
              set_rooms
                (insert id {| peers := peers room;
                              createdAt := createdAt room;
                              peerIds := peerIds room;
                              pendingOffer := pendingOffer room;
                              pendingAnswer := payload |}) b
          end
      | _ => broadcast ws (forwarded data) (peers room) b
      end
  end.

(** [broadcastToRoom(currentRoom, ws, data)] *)
Definition broadcastToRoom (ws : nat) (data : ClientMessage) (b : State) : State :=
  match current_room ws b with
  | None => b
  | Some (_, room) => broadcast ws (forwarded data) (peers room) b
  end.

(** [ws.on('message', ...)] *)
Definition on_message (e : Env) (ws : nat) (data : ClientMessage) (b : State)
  : State :=
  match data with
  | join roomId createNew => handleJoin e ws roomId createNew b
  | offer _ | answer _ | ice_candidate _ => handleSignaling ws data b
  | relay _ _ => broadcastToRoom ws data b
  | ping => send ws pong b
  | unknown_type => b
  | malformed => send ws (error "Invalid message format") b
  end.

(** [ws.on('close', ...)]; the socket is closed when the event fires. *)
Definition on_close (ws : nat) (b : State) : State :=
  let b0 :=
    set_sockets
      (alter (fun s => {| readyState := CLOSED; currentRoom := currentRoom s;
                          peerId := peerId s; outbox := outbox s |}) ws) b in
  match current_room ws b with
  | None => b0
  | Some (id, room) =>
      let remaining := filter (fun p => p ≠ ws) (peers room) in
      let room1 := {| peers := remaining; createdAt := createdAt room;
                      peerIds := peerIds room;
                      pendingOffer := pendingOffer room;
                      pendingAnswer := pendingAnswer room |} in
      let b1 := set_rooms (insert id room1) b0 in
      let b2 := foldl (fun b peer => send peer peer_disconnected b) b1 remaining in
      match remaining with
      | [] => set_rooms (delete id) b2
      | _ => b2
      end
  end.

(** [wss.on('connection', ...)]: a new open socket, greeted with
    [connected]. *)
Definition on_connection (ws : nat) (b : State) : State :=
  match sockets b !! ws with
  | Some _ => b
  | None =>
      set_sockets
        (insert ws {| readyState := OPEN; currentRoom := None;
                      peerId := None; outbox := [connected] |}) b
  end.

Definition expired (t : Z) (room : Room) : bool :=
  (ROOM_EXPIRY <? t - createdAt room)%Z.

(** The expiry sweep.  Every open socket found among the peers of an
    expired room is sent [room-expired] and closed (which makes it
    [CLOSING], so it is not written to twice); the expired rooms are
    deleted. *)
Definition on_sweep (t : Z) (b : State) : State :=
  let doomed : gset nat :=
    list_to_set
      (concat (map (fun kr => peers kr.2)
                   (map_to_list (filter (fun kr => expired t kr.2 = true) (rooms b))))) in
  {| rooms := filter (fun kr => expired t kr.2 = false) (rooms b);
     sockets :=
       map_imap
         (fun ws s =>
            Some (if is_open s && bool_decide (ws ∈ doomed)
                  then {| readyState := CLOSING; currentRoom := currentRoom s;
                          peerId := peerId s;
                          outbox := outbox s ++ [room_expired] |}
                  else s))
         (sockets b) |}.

(** The socket starts closing (a close frame was received, or
    [terminate()] was called by the heartbeat) before [close] is emitted. *)
Definition on_closing (ws : nat) (b : State) : State :=
  set_sockets
    (alter (fun s => match readyState s with
                     | CLOSED => s
                     | _ => {| readyState := CLOSING;
                               currentRoom := currentRoom s;
                               peerId := peerId s; outbox := outbox s |}
                     end) ws) b.

Inductive Event :=
| connection (ws : nat)
| message (ws : nat) (data : ClientMessage)
| closing (ws : nat)
| close (ws : nat)
| sweep.

(** A socket emits [message] and [close] only between its [connection]
    and its [close]. *)
Definition alive (ws : nat) (b : State) : bool :=
  match sockets b !! ws with
  | Some s => match readyState s with CLOSED => false | _ => true end
  | None => false
  end.

Definition step (b : State) (ev : Env * Event) : State :=
  match ev.2 with
  | connection ws => on_connection ws b
  | message ws data => if alive ws b then on_message ev.1 ws data b else b
  | closing ws => on_closing ws b
  | close ws => if alive ws b then on_close ws b else b
  | sweep => on_sweep (now ev.1) b
  end.

Definition run (evs : list (Env * Event)) : State := foldl step initial evs.

(** The states the broker can be in. *)
Inductive reachable : State → Prop :=
| reachable_initial : reachable initial
| reachable_step b ev : reachable b → reachable (step b ev).

End Broker.

(** ** The file queue of the page ([sendFilesNow]) *)

Module SendQueue.
Import Transfer.

(** One entry of [selectedFiles], with what happens around it: the bytes
    the transport flushes during the 100 ms pause before the file is
    started, the value of [webrtc.isConnected] when [webrtc.sendFile] is
    called for it, and the turns of the event loop during its send. *)
Record Job := {
  job_file : File;
  job_pause : N;
  job_connected : bool;
  job_ticks : list Tick
}.

(** One call of [sendFilesNow], which runs [sendNextFile] file after file:
    the queue stops when the channel is not open; a file whose send
    settles (resolved or rejected) is followed, after the pause, by the
    next one; a send that does not settle leaves the queue where it is.
    The result lists the state in which each started send was left.
    (The first file is started without a pause: its [job_pause] is what
    the transport flushes before [sendFilesNow] is called.  Nothing keeps
    the page from calling [sendFilesNow] again while a call is under way;
    the two calls then send on the same channel, which is outside this
    definition.) *)
Fixpoint sendFilesNow (P : Platform) (queue : list Job) (ch : DataChannel)
  : list Status * DataChannel :=
  match queue with
  | [] => ([], ch)
  | job :: rest =>
      let ch0 := dc_drain (job_pause job) ch in
      if dc_open ch0 then
        let out := transfer P (job_connected job) (job_file job)
                     (job_ticks job) ch0 in
        match status out.1 with
        | Resolved | Rejected =>
            let next := sendFilesNow P rest out.2 in
            (status out.1 :: next.1, next.2)
        | st => ([st], out.2)
        end
      else ([], ch0)
  end.

End SendQueue.

(** ** The checksum text ([calculateFileChecksum], [verifyFileIntegrity]) *)

Module Integrity.

Local Open Scope string_scope.

(** One digit of [Number.prototype.toString(16)]. *)
Definition digit (n : N) : string :=
  match String.get (N.to_nat n) "0123456789abcdef" with
  | Some c => String c ""
  | None => ""
  end.

(** [b.toString(16)] for a byte: no leading zero. *)
Definition toString16 (b : byte) : string :=
  let n := Byte.to_N b in
  if (n <? 16)%N then digit n else digit (n / 16) +:+ digit (n mod 16).

(** [s.padStart(2, '0')] *)
Definition padStart2 (s : string) : string :=
  match String.length s with
  | 0%nat => "00"
  | 1%nat => "0" +:+ s
  | _ => s
  end.

(** [hashArray.map(b => b.toString(16).padStart(2, '0')).join('')] *)
Definition hashHex (hash : list byte) : string :=
  foldr (fun b rest => padStart2 (toString16 b) +:+ rest) "" hash.

(** [verifyFileIntegrity(blob, expectedChecksum)]: [digest] is
    [crypto.subtle.digest('SHA-256', _)], absent outside a secure context,
    and it may fail; in both cases the answer is [true]. *)
Definition verifyFileIntegrity (digest : option (list byte → option (list byte)))
    (blob : list byte) (expectedChecksum : string) : bool :=
  match digest with
  | None => true
  | Some sha256 =>
      match sha256 blob with
      | Some hash => bool_decide (hashHex hash = expectedChecksum)
      | None => true
      end
  end.

End Integrity.

(** ** Rate limiting of the HTTP requests ([rateLimit]) *)

Module RateLimit.

(** [parseInt(process.env.RATE_LIMIT_WINDOW || '60000', 10)] and
    [parseInt(process.env.RATE_LIMIT_MAX || '100', 10)], at their defaults. *)
Definition RATE_LIMIT_WINDOW : Z := 60000.
Definition RATE_LIMIT_MAX : nat := 100.

(** An entry of [rateLimitMap]. *)
Record Limit := {
  count : nat;
  resetTime : Z
}.

(** [rateLimit(ip)] at [Date.now() = now]: the answer and the map it
    leaves. *)
Definition rateLimit (now : Z) (ip : string) (m : gmap string Limit)
  : bool * gmap string Limit :=
  match m !! ip with
  | None =>
      (true, <[ip := {| count := 1; resetTime := (now + RATE_LIMIT_WINDOW)%Z |}]> m)
  | Some limit =>
      if (resetTime limit <? now)%Z then
        (true, <[ip := {| count := 1; resetTime := (now + RATE_LIMIT_WINDOW)%Z |}]> m)
      else if (RATE_LIMIT_MAX <=? count limit)%nat then (false, m)
      else (true, <[ip := {| count := S (count limit);
                             resetTime := resetTime limit |}]> m)
  end.

(** The clean-up timer: entries whose window is over are deleted. *)
Definition cleanup (now : Z) (m : gmap string Limit) : gmap string Limit :=
  filter (fun kv => (resetTime kv.2 <? now)%Z = false) m.

(** The rate limiting middleware, over the requests that reach it (an
    OPTIONS request is answered by the CORS middleware before it): a
    request of address [ip] arriving at time [now] is let through when
    [rateLimit(ip)] is true and answered with status 429 otherwise.  The
    result lists the decisions, in order, and gives the map at the end. *)
Fixpoint serve (reqs : list (Z * string)) (m : gmap string Limit)
  : list (string * bool) * gmap string Limit :=
  match reqs with
  | [] => ([], m)
  | (now, ip) :: reqs' =>
      let out := rateLimit now ip m in
      let rest := serve reqs' out.2 in
      ((ip, out.1) :: rest.1, rest.2)
  end.

End RateLimit.

(** ** The heartbeat of the WebSocket server *)

Module Heartbeat.

(** [wss.clients] is a map from each client socket to its [isAlive] flag. *)

(** [wss.on('connection')]: [ws.isAlive = true]. *)
Definition hb_connection (ws : nat) (cs : gmap nat bool) : gmap nat bool :=
  <[ws := true]> cs.

(** [ws.on('pong')]: [ws.isAlive = true]. *)
Definition hb_pong (ws : nat) (cs : gmap nat bool) : gmap nat bool :=
  alter (fun _ => true) ws cs.

(** The sockets the 30 s timer terminates: those whose flag is still
    [false]. *)
Definition hb_terminated (cs : gmap nat bool) : gset nat :=
  dom (filter (fun kv => kv.2 = false) cs).

(** The flags after the timer has run: every socket that was not
    terminated has been pinged with its flag set to [false]; a terminated
    one keeps its flag until its [close] event removes it. *)
Definition hb_tick (cs : gmap nat bool) : gmap nat bool :=
  (fun _ => false) <$> cs.

(** The [close] event of a socket removes it from [wss.clients]. *)
Definition hb_close (ws : nat) (cs : gmap nat bool) : gmap nat bool :=
  delete ws cs.

End Heartbeat.

(** * Properties *)

(** ** Header fields *)

Module DataViewFacts.
Import DataView.

Lemma to_N_u8 (n : N) : Byte.to_N (u8 n) = n mod 256.
Proof.
  unfold u8. destruct (Byte.of_N (n mod 256)) as [b|] eqn:E.
  - by apply Byte.to_of_N.
  - apply Byte.of_N_None_iff in E.
    pose proof (N.mod_upper_bound n 256). lia.
Qed.

Lemma le32_value (v : N) :
  v mod 256 + 256 * (v / 256 mod 256) + 65536 * (v / 65536 mod 256)
  + 16777216 * (v / 16777216 mod 256) = v mod 4294967296.
Proof.
  pose proof (N.div_mod v 256 ltac:(lia)) as H0.
  pose proof (N.div_mod (v / 256) 256 ltac:(lia)) as H1.
  pose proof (N.div_mod (v / 256 / 256) 256 ltac:(lia)) as H2.
  pose proof (N.div_mod (v / 256 / 256 / 256) 256 ltac:(lia)) as H3.
  pose proof (N.mod_upper_bound v 256 ltac:(lia)).
  pose proof (N.mod_upper_bound (v / 256) 256 ltac:(lia)).
  pose proof (N.mod_upper_bound (v / 256 / 256) 256 ltac:(lia)).
  pose proof (N.mod_upper_bound (v / 256 / 256 / 256) 256 ltac:(lia)).
  replace (v / 65536) with (v / 256 / 256) by (rewrite N.Div0.div_div; done).
  replace (v / 16777216) with (v / 256 / 256 / 256)
    by (rewrite !N.Div0.div_div; done).
  apply (N.mod_unique _ _ (v / 256 / 256 / 256 / 256)); lia.
Qed.

(** Reading back a field written by [setUint32] gives the value modulo 2^32. *)
Lemma getUint32_setUint32 (post : list byte) (v : N) :
  getUint32 (setUint32 v ++ post) 0 = v mod 4294967296.
Proof.
  unfold getUint32, getUint8, setUint32.
  cbn [app lookup list_lookup Nat.add]. rewrite !to_N_u8. apply le32_value.
Qed.

End DataViewFacts.

(** ** The transfer engine *)

Module TransferFacts.
Import DataView DataViewFacts Transfer.

Definition U32 : N := 4294967296.

(** What the receiver cuts out of a frame built by the sender. *)
Lemma parse_chunk_frame (i total : N) (chunk : list byte) :
  parse_chunk (chunk_frame i total chunk)
  = Some {| index := i mod U32;
            cd_totalChunks := total mod U32;
            data := take (N.to_nat (byteLength chunk mod U32)) chunk |}.
Proof.
  unfold parse_chunk, chunk_frame, setUint32, getUint32, getUint8.
  cbn [app lookup list_lookup Nat.add length Nat.leb drop andb].
  rewrite !to_N_u8, !le32_value. reflexivity.
Qed.

(** *** Chunks of a file *)

(** The slice the sender reads for chunk [i]. *)
Definition chunk (f : File) (i : N) : list byte :=
  slice f (i * CHUNK_SIZE) (i * CHUNK_SIZE + CHUNK_SIZE).

(** The first [k] chunk frames of a file, as the sender builds them. *)
Definition chunk_frames (f : File) (k : N) : list Message :=
  map (fun i => Binary (chunk_frame i (totalChunks f) (chunk f i))) (upto k).

(** The number of chunk frames a completed send has emitted: the loop body
    runs once before [offset < file.size] is first tested. *)
Definition frame_count (f : File) : N := N.max 1 (totalChunks f).

Lemma upto_succ (k : N) : upto (k + 1) = upto k ++ [k].
Proof.
  unfold upto. replace (N.to_nat (k + 1)) with (S (N.to_nat k)) by lia.
  rewrite seq_S, map_app. simpl. by rewrite N2Nat.id.
Qed.

Lemma length_upto (k : N) : length (upto k) = N.to_nat k.
Proof. unfold upto. by rewrite length_map, length_seq. Qed.

Lemma elem_of_upto (k i : N) : i ∈ upto k ↔ i < k.
Proof.
  unfold upto. rewrite list_elem_of_fmap. split.
  - intros (j & -> & Hj). apply elem_of_seq in Hj. lia.
  - intros Hi. exists (N.to_nat i). split; [by rewrite N2Nat.id|].
    apply elem_of_seq. lia.
Qed.

Lemma lookup_upto (k i : N) : i < k → upto k !! N.to_nat i = Some i.
Proof.
  intros Hi. unfold upto. rewrite list_lookup_fmap, lookup_seq_lt by lia.
  simpl. by rewrite N2Nat.id.
Qed.

Lemma chunk_eq (f : File) (i : N) :
  chunk f i
  = take (N.to_nat CHUNK_SIZE) (drop (N.to_nat (i * CHUNK_SIZE)) (content f)).
Proof. unfold chunk, slice. f_equal. lia. Qed.

Lemma chunk_length_le (f : File) (i : N) : byteLength (chunk f i) <= CHUNK_SIZE.
Proof. rewrite chunk_eq. unfold byteLength. rewrite length_take. lia. Qed.

(** A chunk that ends inside the file is full. *)
Lemma chunk_length_full (f : File) (i : N) :
  (i + 1) * CHUNK_SIZE <= file_size f → byteLength (chunk f i) = CHUNK_SIZE.
Proof.
  intros H. rewrite chunk_eq. unfold byteLength, file_size in *.
  rewrite length_take, length_drop. lia.
Qed.

(** The chunk that reaches the end of the file holds the remainder. *)
Lemma chunk_length_last (f : File) (i : N) :
  i * CHUNK_SIZE <= file_size f <= (i + 1) * CHUNK_SIZE →
  byteLength (chunk f i) = file_size f - i * CHUNK_SIZE.
Proof.
  intros H. rewrite chunk_eq. unfold byteLength, file_size in *.
  rewrite length_take, length_drop. lia.
Qed.

Lemma concat_chunks (f : File) (k : N) :
  concat (map (chunk f) (upto k)) = take (N.to_nat (k * CHUNK_SIZE)) (content f).
Proof.
  induction k as [|k IH] using N.peano_ind; [done|].
  rewrite <- N.add_1_r, upto_succ, map_app, concat_app, IH. simpl.
  rewrite app_nil_r, chunk_eq, take_take_drop. f_equal. lia.
Qed.

Lemma ceil_chunks_bounds (sz : N) :
  sz <= ceil_chunks sz * CHUNK_SIZE < sz + CHUNK_SIZE.
Proof.
  unfold ceil_chunks. change CHUNK_SIZE with 65536.
  pose proof (N.div_mod (sz + (65536 - 1)) 65536 ltac:(lia)) as H.
  pose proof (N.mod_upper_bound (sz + (65536 - 1)) 65536 ltac:(lia)) as H'.
  generalize dependent ((sz + (65536 - 1)) / 65536).
  generalize dependent ((sz + (65536 - 1)) mod 65536). intros; lia.
Qed.

Lemma ceil_chunks_unique (sz k : N) :
  k * CHUNK_SIZE < sz <= (k + 1) * CHUNK_SIZE → ceil_chunks sz = k + 1.
Proof.
  intros H. pose proof (ceil_chunks_bounds sz) as B.
  generalize dependent (ceil_chunks sz).
  change CHUNK_SIZE with 65536 in *. intros; lia.
Qed.

Lemma ceil_chunks_0 : ceil_chunks 0 = 0.
Proof. reflexivity. Qed.

(** Concatenating all the chunks gives the file back. *)
Lemma concat_all_chunks (f : File) :
  concat (map (chunk f) (upto (totalChunks f))) = content f.
Proof.
  rewrite concat_chunks. apply take_ge.
  pose proof (ceil_chunks_bounds (file_size f)).
  unfold totalChunks, file_size in *. lia.
Qed.

(** *** The sender's loop *)

Section SenderFacts.
Context (P : Platform) (f : File).

(** The digest that ends up in [file-complete]. *)
Definition final_checksum : option string :=
  match subtle P with
  | Some digest => digest (content f)
  | None => None
  end.

(** Chunk [k] is still to be read: the first read is unconditional, the
    later ones happen under [offset < file.size]. *)
Definition in_loop (k : N) : Prop := k = 0 ∨ k * CHUNK_SIZE < file_size f.

(** What has been sent at each point of the loop, after the frames [pre]
    that were on the log when the loop started. *)
Definition sender_inv (pre : list Message) (s : Sender) (ch : DataChannel) : Prop :=
  match status s with
  | Reading | Deferred =>
      offset s = chunkIndex s * CHUNK_SIZE ∧ in_loop (chunkIndex s)
      ∧ dc_sent ch = pre ++ chunk_frames f (chunkIndex s)
  | Hashing => dc_sent ch = pre ++ chunk_frames f (frame_count f)
  | Resolved =>
      dc_sent ch = pre ++ chunk_frames f (frame_count f)
                       ++ [complete_frame f final_checksum]
  | Rejected | Stalled => True
  end.

Lemma chunk_frames_succ (k : N) :
  chunk_frames f (k + 1)
  = chunk_frames f k ++ [Binary (chunk_frame k (totalChunks f) (chunk f k))].
Proof. unfold chunk_frames. by rewrite upto_succ, map_app. Qed.

Lemma last_chunk (k : N) :
  in_loop k → ¬ (k + 1) * CHUNK_SIZE < file_size f → k + 1 = frame_count f.
Proof.
  intros Hk Hlast. unfold frame_count, totalChunks.
  destruct (N.eq_dec (file_size f) 0) as [E|E].
  - rewrite E, ceil_chunks_0. destruct Hk as [->|Hk]; [done|lia].
  - rewrite (ceil_chunks_unique (file_size f) k); [lia|].
    destruct Hk as [->|Hk]; lia.
Qed.

Lemma in_loop_lt (k : N) : in_loop k → k < frame_count f.
Proof.
  unfold frame_count, totalChunks. intros [->|Hk]; [lia|].
  pose proof (ceil_chunks_bounds (file_size f)). nia.
Qed.

Lemma fire_inv pre d s ch :
  sender_inv pre s ch →
  sender_inv pre (fire P f s (dc_drain d ch)).1 (fire P f s (dc_drain d ch)).2.
Proof.
  unfold sender_inv, fire. destruct (status s) eqn:Hst;
    try (simpl; rewrite Hst; done).
  - (* onload *)
    intros (Hoff & Hk & Hsent). unfold onload. simpl dc_open.
    destruct (dc_open ch); simpl; [|done].
    destruct (BUFFER_THRESHOLD <? _); simpl; [done|].
    destruct (offset s + CHUNK_SIZE <? file_size f) eqn:Hnext; simpl.
    + split; [lia|]. split; [right; apply N.ltb_lt in Hnext; lia|].
      rewrite chunk_frames_succ, Hsent, Hoff, <- app_assoc. done.
    + apply N.ltb_ge in Hnext.
      assert (chunkIndex s + 1 = frame_count f) as <-
        by (apply last_chunk; [done|lia]).
      rewrite chunk_frames_succ.
      unfold final_checksum. destruct (subtle P); simpl;
        rewrite Hsent, Hoff, <- ?app_assoc; done.
  - (* the backpressure timer *)
    intros (Hoff & Hk & Hsent). unfold ontimeout.
    destruct (offset s <? file_size f); simpl; done.
  - (* the digest settles *)
    intros Hsent. unfold onchecksum. simpl dc_open.
    destruct (dc_open ch); simpl; [|done]. by rewrite Hsent, <- app_assoc.
Qed.

Lemma run_inv pre sched s ch :
  sender_inv pre s ch →
  sender_inv pre (run P f sched s ch).1 (run P f sched s ch).2.
Proof.
  revert s ch. induction sched as [|d sched IH]; intros s ch Hinv; [done|].
  simpl. pose proof (fire_inv pre d s ch Hinv) as H.
  destruct (fire P f s (dc_drain d ch)) as [s' ch']. by apply IH.
Qed.

Lemma run_rejected sched s ch :
  status s = Rejected → status (run P f sched s ch).1 = Rejected.
Proof.
  revert s ch. induction sched as [|d sched IH]; intros s ch Hst; [done|].
  simpl. unfold fire. rewrite Hst. by apply IH.
Qed.

Lemma run_resolved sched s ch :
  status s = Resolved → status (run P f sched s ch).1 = Resolved.
Proof.
  revert s ch. induction sched as [|d sched IH]; intros s ch Hst; [done|].
  simpl. unfold fire. rewrite Hst. by apply IH.
Qed.

Lemma run_stalled sched s ch :
  status s = Stalled →
  status (run P f sched s ch).1 = Stalled
  ∧ dc_sent (run P f sched s ch).2 = dc_sent ch.
Proof.
  revert s ch. induction sched as [|d sched IH]; intros s ch Hst; [done|].
  simpl. unfold fire. rewrite Hst.
  by destruct (IH s (dc_drain d ch) Hst) as [-> ->].
Qed.

(** A send that resolved has put on the channel, in this order: the
    metadata, the chunk frames [0 .. frame_count - 1], and [file-complete]. *)
Lemma transmit_resolved sched ch0 :
  status (transmit P f sched ch0).1 = Resolved →
  dc_sent (transmit P f sched ch0).2
  = dc_sent ch0 ++ metadata_frame f :: chunk_frames f (frame_count f)
                ++ [complete_frame f final_checksum].
Proof.
  unfold transmit, sendFile, sendFileChunks. cbn [andb].
  destruct (dc_open ch0) eqn:Hopen.
  - simpl dc_open. rewrite Hopen. intros Hres.
    match goal with |- context [run P f sched ?s ?ch] =>
      pose proof (run_inv (dc_sent ch0 ++ [metadata_frame f]) sched s ch) as H
    end.
    unfold sender_inv at 2 in H. rewrite Hres in H.
    rewrite H, <- app_assoc; [done|].
    unfold sender_inv. simpl. split; [done|]. split; [by left|].
    unfold chunk_frames. simpl. by rewrite app_nil_r.
  - intros Hres. rewrite run_rejected in Hres; done.
Qed.

Lemma byteLength_chunk_frame i n c :
  byteLength (chunk_frame i n c) = headerSize + byteLength c.
Proof. unfold byteLength, chunk_frame, headerSize. simpl. lia. Qed.

(** With a transport that flushes at least [D] bytes between callbacks the
    loop runs through: no read is deferred. *)
Lemma run_progress (D : N) (m : nat) s ch :
  status s = Reading → dc_open ch = true →
  offset s = chunkIndex s * CHUNK_SIZE → in_loop (chunkIndex s) →
  bufferedAmount ch <= D → headerSize + CHUNK_SIZE <= D →
  (N.to_nat (frame_count f - chunkIndex s) ≤ m)%nat →
  status (run P f (repeat D (S m)) s ch).1 = Resolved.
Proof.
  revert s ch. induction m as [|m IH]; intros s ch Hst Hopen Hoff Hk Hbuf HD Hm.
  { apply in_loop_lt in Hk. lia. }
  change (repeat D (S (S m))) with (D :: repeat D (S m)).
  cbn [run]. unfold fire at 1. rewrite Hst. unfold onload. simpl dc_open.
  rewrite Hopen. simpl negb. cbn iota.
  replace (bufferedAmount (dc_drain D ch)) with 0 by (simpl; lia).
  change (BUFFER_THRESHOLD <? 0) with false. cbn iota.
  cbn [offset]. destruct (offset s + CHUNK_SIZE <? file_size f) eqn:Hnext.
  - apply N.ltb_lt in Hnext. apply IH; simpl; try done.
    + lia.
    + right. lia.
    + rewrite byteLength_chunk_frame.
      pose proof (chunk_length_le f (chunkIndex s)) as Hle.
      unfold chunk in Hle. rewrite <- Hoff in Hle. lia.
    + assert (chunkIndex s + 1 < frame_count f)
        by (apply in_loop_lt; right; lia). lia.
  - destruct (subtle P); simpl.
    + unfold fire at 1. simpl. unfold onchecksum. simpl. rewrite Hopen.
      by apply run_resolved.
    + by apply run_resolved.
Qed.

(** Every file can be sent to completion over an open channel. *)
Lemma transmit_completes ch0 :
  dc_open ch0 = true →
  ∃ sched, status (transmit P f sched ch0).1 = Resolved.
Proof.
  intros Hopen.
  set (D := bufferedAmount ch0 + json_bytes P
              (file_metadata {| md_name := file_name f; md_size := file_size f;
                                md_mimeType := file_type f;
                                md_lastModified := file_lastModified f |})
            + (headerSize + CHUNK_SIZE)).
  exists (repeat D (S (N.to_nat (frame_count f)))).
  unfold transmit, sendFile, sendFileChunks. cbn [andb]. rewrite Hopen.
  simpl dc_open.
  rewrite Hopen. apply run_progress; simpl; try done.
  - by left.
  - unfold D. lia.
  - unfold D. lia.
  - lia.
Qed.

End SenderFacts.

(** *** The receiver *)

Section ReceiverFacts.
Context (P : Platform).

Lemma sendChunkAck_fields r i :
  currentFile (sendChunkAck P r i) = currentFile r
  ∧ receivedChunks (sendChunkAck P r i) = receivedChunks r
  ∧ chunkMap (sendChunkAck P r i) = chunkMap r
  ∧ receivedChunkIndices (sendChunkAck P r i) = receivedChunkIndices r
  ∧ expectedChunkCount (sendChunkAck P r i) = expectedChunkCount r
  ∧ bytesTransferred (sendChunkAck P r i) = bytesTransferred r
  ∧ receivedFiles (sendChunkAck P r i) = receivedFiles r
  ∧ onError_calls (sendChunkAck P r i) = onError_calls r.
Proof. unfold sendChunkAck. by destruct (dc_open (dataChannel r)). Qed.

Lemma receive_app r ms1 ms2 :
  receive P r (ms1 ++ ms2) = receive P (receive P r ms1) ms2.
Proof. apply foldl_app. Qed.

Lemma receive_one r m : receive P r [m] = handleDataChannelMessage P r m.
Proof. reflexivity. Qed.

(** [sum(len(chunks[i]) for i in 0..n-1)] over the chunk map. *)
Definition stored_bytes (r : Receiver) (n : N) : N :=
  foldr (fun i sum => from_option byteLength 0 (chunkMap r !! i) + sum) 0 (upto n).

Lemma byteLength_app (a b : list byte) :
  byteLength (a ++ b) = byteLength a + byteLength b.
Proof. unfold byteLength. rewrite length_app. lia. Qed.

Lemma stored_bytes_concat r (g : N → list byte) (l : list N) :
  (∀ i, i ∈ l → chunkMap r !! i = Some (g i)) →
  foldr (fun i sum => from_option byteLength 0 (chunkMap r !! i) + sum) 0 l
  = byteLength (concat (map g l)).
Proof.
  induction l as [|i l IH]; intros Hl; [done|]. simpl.
  rewrite byteLength_app, IH, Hl; [done|set_solver|set_solver].
Qed.

(** The receiver holds exactly the chunks [0 .. k-1] of [f], and nothing else
    has changed since [r0]. *)
Record holds_chunks (f : File) (cf : CurrentFile) (r0 : Receiver)
    (k : N) (r : Receiver) : Prop := {
  hc_current : currentFile r = Some cf;
  hc_map : ∀ i, chunkMap r !! i = if i <? k then Some (chunk f i) else None;
  hc_indices : ∀ i, i ∈ receivedChunkIndices r ↔ i < k;
  hc_size : size (chunkMap r) = N.to_nat k;
  hc_legacy : receivedChunks r = [];
  hc_expected : expectedChunkCount r = ceil_chunks (cf_size cf);
  hc_bytes : bytesTransferred r = byteLength (concat (map (chunk f) (upto k)));
  hc_files : receivedFiles r = receivedFiles r0;
  hc_errors : onError_calls r = onError_calls r0
}.

(** The state [handleFileMetadata] leaves for the metadata of [f]. *)
Definition announced (f : File) : CurrentFile :=
  {| cf_name := file_name f; cf_size := file_size f;
     cf_type := if bool_decide (file_type f = EmptyString)
                then "file-metadata"%string else file_type f;
     cf_lastModified := file_lastModified f |}.

Lemma metadata_holds (f : File) r0 :
  holds_chunks f (announced f) r0 0
    (handleDataChannelMessage P r0 (metadata_frame f)).
Proof.
  split; simpl; try done.
  - intros i. rewrite lookup_empty. destruct (N.ltb_spec i 0); [lia|done].
  - intros i. split; [set_solver|lia].
Qed.

Lemma chunk_holds (f : File) cf r0 k r :
  holds_chunks f cf r0 k r →
  k < totalChunks f → totalChunks f < U32 →
  holds_chunks f cf r0 (k + 1)
    (handleDataChannelMessage P r
       (Binary (chunk_frame k (totalChunks f) (chunk f k)))).
Proof.
  intros H Hk Hn. unfold handleDataChannelMessage. rewrite parse_chunk_frame.
  pose proof (chunk_length_le f k) as Hlen.
  rewrite (N.mod_small k), (N.mod_small (totalChunks f)),
    (N.mod_small (byteLength (chunk f k)))
    by (unfold U32 in *; change CHUNK_SIZE with 65536 in *; lia).
  rewrite take_ge by (unfold byteLength; lia).
  unfold handleChunkWithSequence. rewrite (hc_current _ _ _ _ _ H). simpl.
  destruct (N.leb_spec (totalChunks f) k) as [?|_]; [lia|].
  rewrite bool_decide_eq_false_2
    by (rewrite (hc_indices _ _ _ _ _ H); lia).
  match goal with |- holds_chunks _ _ _ _ (sendChunkAck P ?r' _) =>
    pose proof (sendChunkAck_fields r' k) as (E1&E2&E3&E4&E5&E6&E7&E8)
  end.
  simpl in *. destruct H.
  split; rewrite ?E1, ?E2, ?E3, ?E4, ?E5, ?E6, ?E7, ?E8; try done.
  - intros i. destruct (decide (i = k)) as [->|Hne].
    + rewrite lookup_insert_eq. by destruct (N.ltb_spec k (k + 1)); [|lia].
    + rewrite lookup_insert_ne, hc_map0 by done.
      destruct (N.ltb_spec i k), (N.ltb_spec i (k + 1)); try done; lia.
  - intros i. rewrite elem_of_union, elem_of_singleton, hc_indices0. lia.
  - rewrite map_size_insert_None, hc_size0; [lia|].
    rewrite hc_map0. by destruct (N.ltb_spec k k); [lia|].
  - rewrite upto_succ, map_app, concat_app, byteLength_app, hc_bytes0.
    simpl. by rewrite app_nil_r.
Qed.

Lemma chunks_hold (f : File) cf r0 r k :
  holds_chunks f cf r0 0 r →
  k <= totalChunks f → totalChunks f < U32 →
  holds_chunks f cf r0 k (receive P r (chunk_frames f k)).
Proof.
  intros H0 Hk Hn. induction k as [|k IH] using N.peano_ind; [done|].
  rewrite <- N.add_1_r in *. rewrite chunk_frames_succ, receive_app, receive_one.
  apply chunk_holds; [apply IH|..]; lia.
Qed.

(** A frame whose header carries [totalChunks = 0] is never stored. *)
Lemma zero_total_dropped (r : Receiver) (i n : N) (c : list byte) :
  n mod U32 = 0 →
  handleDataChannelMessage P r (Binary (chunk_frame i n c)) = r.
Proof.
  intros Hn. unfold handleDataChannelMessage. rewrite parse_chunk_frame, Hn.
  unfold handleChunkWithSequence. simpl.
  destruct (currentFile r); [|done].
  generalize (i mod U32). intros j. by destruct (N.leb_spec 0 j); [|lia].
Qed.

Lemma zero_total_all_dropped (f : File) (r : Receiver) (k : N) :
  totalChunks f mod U32 = 0 → receive P r (chunk_frames f k) = r.
Proof.
  intros Hn. unfold chunk_frames.
  induction (upto k) as [|i l IH] using rev_ind; [done|].
  rewrite map_app, receive_app, IH. apply zero_total_dropped, Hn.
Qed.

End ReceiverFacts.

(** *** Sending a file and reassembling it *)

Section RoundTrip.
Context (P : Platform).

(** With no sequenced chunk stored, [handleFileComplete] delivers the legacy
    chunks in arrival order. *)
Lemma complete_legacy r c cf :
  currentFile r = Some cf → chunkMap r = ∅ →
  receivedFiles (handleFileComplete r c)
  = receivedFiles r ++ [{| rf_file := cf; rf_blob := concat (receivedChunks r) |}].
Proof.
  intros Hcf Hmap. unfold handleFileComplete, chunksToReassemble.
  rewrite Hcf, Hmap, map_size_empty. reflexivity.
Qed.

(** With every chunk of [f] stored, [handleFileComplete] delivers [f]. *)
Lemma complete_holds (f : File) cf r0 r c :
  holds_chunks f cf r0 (totalChunks f) r →
  totalChunks f ≠ 0 → fc_totalChunks c = Some (totalChunks f) →
  receivedFiles (handleFileComplete r c)
  = receivedFiles r0 ++ [{| rf_file := cf; rf_blob := content f |}]
  ∧ onError_calls (handleFileComplete r c) = onError_calls r0.
Proof.
  intros [] Hn Hc. unfold handleFileComplete.
  rewrite hc_current0. cbn [receivedFiles onError_calls].
  assert (expectedChunks r c = totalChunks f) as ->.
  { unfold expectedChunks. rewrite Hc.
    by destruct (N.eqb_spec (totalChunks f) 0). }
  assert (receivedChunkCount r = totalChunks f) as ->.
  { unfold receivedChunkCount. rewrite hc_size0.
    destruct (Nat.ltb_spec 0 (N.to_nat (totalChunks f))); lia. }
  rewrite N.ltb_irrefl, app_nil_r, hc_files0, hc_errors0. split; [|done].
  do 3 f_equal. unfold chunksToReassemble. rewrite hc_size0.
  destruct (Nat.ltb_spec 0 (N.to_nat (totalChunks f))); [|lia].
  rewrite <- (concat_all_chunks f). f_equal.
  apply map_ext_in. intros i Hi%list_elem_of_In%elem_of_upto.
  rewrite hc_map0. by destruct (N.ltb_spec i (totalChunks f)); [|lia].
Qed.

Lemma size_0_content (f : File) : file_size f = 0 → content f = [].
Proof. unfold file_size. destruct (content f); [done|simpl; lia]. Qed.

Lemma totalChunks_0 (f : File) : totalChunks f = 0 → file_size f = 0.
Proof.
  unfold totalChunks. pose proof (ceil_chunks_bounds (file_size f)). lia.
Qed.

(** The frames of a completed send, and what the receiver makes of them. *)
Definition frames_of (f : File) : list Message :=
  metadata_frame f :: chunk_frames f (frame_count f).

Lemma frame_count_pos (f : File) : totalChunks f ≠ 0 → frame_count f = totalChunks f.
Proof. unfold frame_count. lia. Qed.

Lemma receive_frames (f : File) r0 :
  totalChunks f ≠ 0 → totalChunks f < U32 →
  holds_chunks f (announced f) r0 (totalChunks f) (receive P r0 (frames_of f)).
Proof.
  intros Hn Hlt. unfold frames_of. rewrite frame_count_pos by done.
  change (receive P r0 (?m :: ?ms))
    with (receive P (handleDataChannelMessage P r0 m) ms).
  apply chunks_hold; [apply metadata_holds|lia|done].
Qed.

(** When the header's [totalChunks] field reads 0 every chunk frame is
    turned away and the receiver is where the metadata left it. *)
Lemma receive_frames_dropped (f : File) r0 :
  totalChunks f mod U32 = 0 →
  receive P r0 (frames_of f) = handleFileMetadata r0
    {| md_name := file_name f; md_size := file_size f;
       md_mimeType := file_type f; md_lastModified := file_lastModified f |}.
Proof.
  intros Hn. unfold frames_of.
  change (receive P r0 (?m :: ?ms))
    with (receive P (handleDataChannelMessage P r0 m) ms).
  by rewrite zero_total_all_dropped.
Qed.

Lemma receive_dropped_complete (f : File) r0 cs :
  totalChunks f mod U32 = 0 →
  receivedFiles (receive P r0 (frames_of f ++ [complete_frame f cs]))
  = receivedFiles r0 ++ [{| rf_file := announced f; rf_blob := [] |}].
Proof.
  intros Hn. rewrite receive_app, receive_one, receive_frames_dropped by done.
  unfold complete_frame, handleDataChannelMessage.
  by rewrite (complete_legacy _ _ (announced f)).
Qed.

End RoundTrip.

Lemma transmit_frames P f sched ch0 :
  status (transmit P f sched ch0).1 = Resolved →
  drop (length (dc_sent ch0)) (dc_sent (transmit P f sched ch0).2)
  = frames_of f ++ [complete_frame f (final_checksum P f)].
Proof.
  intros Hres. rewrite transmit_resolved by done.
  by rewrite drop_app_length.
Qed.

Definition demo_platform : Platform :=
  {| json_bytes := fun _ => 64; subtle := None |}.

Definition demo_file : File :=
  {| file_name := "notes.txt"; file_type := "text/plain";
     file_lastModified := 0%Z; content := [x68; x65; x6c; x6c; x6f] |}.

(** A run of the model on a file of two chunks (65536 + 4464 bytes). *)
Example two_chunk_transfer :
  let f := {| file_name := "a.bin"; file_type := "";
              file_lastModified := 0%Z;
              content := repeat x07 (N.to_nat 70000) |} in
  let ch0 := {| dc_open := true; bufferedAmount := 0; dc_sent := [] |} in
  let out := transmit demo_platform f (repeat 100000 3) ch0 in
  let r := receive demo_platform (new_receiver ch0) (dc_sent out.2) in
  status out.1 = Resolved
  ∧ map (fun m => match m with Binary bs => byteLength bs | _ => 0 end)
        (dc_sent out.2) = [0; 65549; 4477; 0]
  ∧ map (fun x => byteLength (rf_blob x)) (receivedFiles r) = [70000]
  ∧ bool_decide (map rf_blob (receivedFiles r) = [content f]) = true
  ∧ onError_calls r = [].
Proof. vm_compute. repeat split; reflexivity. Qed.

(** *** The empty file *)

(** The one chunk frame sent for an empty file: tag 0x01, then
    [chunk_index = 0], [total_chunks = 0], [data_length = 0]. *)
Definition empty_chunk_frame : list byte :=
  [x01; x00; x00; x00; x00; x00; x00; x00; x00; x00; x00; x00; x00].

(** C10. For a zero-byte file [totalChunks] is 0 and the first read is
    issued without looking at the size.  When the buffer check lets its
    callback through, one 0x01 frame with index 0, total 0 and length 0 is
    emitted; a send that resolves has emitted exactly metadata, that frame
    and file-complete; the receiver parses the frame as a sequenced chunk and
    drops it without any change of state, and on file-complete delivers an
    empty file without reporting an error.  But when the counter is above
    1 MiB at that first callback the read is deferred, and the timer, which
    re-reads only if [offset < file.size], never does so for an empty file:
    nothing is emitted, neither the chunk frame nor file-complete, and the
    send is never settled. *)
Theorem empty_file_transfer (P : Platform) (f : File) :
  content f = [] →
  totalChunks f = 0
  ∧ (∀ ch, dc_open ch = true → status (sendFileChunks f ch) = Reading)
  ∧ (∀ ch, dc_open ch = true → bufferedAmount ch <= BUFFER_THRESHOLD →
       ∃ rest, dc_sent (onload P f (sendFileChunks f ch) ch).2
               = dc_sent ch ++ Binary empty_chunk_frame :: rest)
  ∧ (∀ sched ch0,
       status (transmit P f sched ch0).1 = Resolved →
       drop (length (dc_sent ch0)) (dc_sent (transmit P f sched ch0).2)
       = [metadata_frame f; Binary empty_chunk_frame;
          complete_frame f (final_checksum P f)])
  ∧ parse_chunk empty_chunk_frame
    = Some {| index := 0; cd_totalChunks := 0; data := [] |}
  ∧ (∀ r, handleDataChannelMessage P r (Binary empty_chunk_frame) = r)
  ∧ (∀ r0,
       let r := receive P r0 [metadata_frame f; Binary empty_chunk_frame;
                              complete_frame f (final_checksum P f)] in
       receivedFiles r
       = receivedFiles r0 ++ [{| rf_file := announced f; rf_blob := content f |}]
       ∧ onError_calls r = onError_calls r0
       ∧ currentFile r = None)
  ∧ (∀ ch d sched,
       dc_open ch = true → BUFFER_THRESHOLD < bufferedAmount ch - d →
       let out := run P f (d :: sched) (sendFileChunks f ch) ch in
       dc_sent out.2 = dc_sent ch
       ∧ status out.1 = match sched with [] => Deferred | _ => Stalled end).
Proof.
  intros Hempty.
  assert (file_size f = 0) as Hsize by (unfold file_size; by rewrite Hempty).
  assert (totalChunks f = 0) as Hn by (unfold totalChunks; by rewrite Hsize).
  assert (∀ a b, slice f a b = []) as Hslice.
  { intros a b. unfold slice. by rewrite Hempty, drop_nil, take_nil. }
  assert (chunk_frames f (frame_count f) = [Binary empty_chunk_frame]) as Hframes.
  { unfold frame_count, chunk_frames, chunk. rewrite Hn. simpl.
    by rewrite Hslice. }
  split; [done|]. split; [|split; [|split; [|split; [|split; [|split]]]]].
  - intros ch Hopen. unfold sendFileChunks. by rewrite Hopen.
  - intros ch Hopen Hbuf. unfold sendFileChunks, onload. rewrite Hopen. simpl.
    destruct (N.ltb_spec BUFFER_THRESHOLD (bufferedAmount ch)); [lia|].
    rewrite Hslice, Hn, Hsize. simpl.
    destruct (subtle P); simpl; [by exists []|].
    rewrite <- app_assoc. by eexists.
  - intros sched ch0 Hres. rewrite transmit_frames by done.
    unfold frames_of. by rewrite Hframes.
  - reflexivity.
  - intros r. unfold handleDataChannelMessage.
    change (parse_chunk empty_chunk_frame)
      with (Some {| index := 0; cd_totalChunks := 0; data := [] |}).
    unfold handleChunkWithSequence. simpl. by destruct (currentFile r).
  - intros r0. unfold receive, complete_frame, metadata_frame.
    cbn [foldl handleDataChannelMessage].
    change (parse_chunk empty_chunk_frame)
      with (Some {| index := 0; cd_totalChunks := 0; data := [] |}).
    unfold handleChunkWithSequence, handleFileComplete, handleFileMetadata.
    simpl. unfold chunksToReassemble, receivedChunkCount, expectedChunks.
    simpl. rewrite Hn, Hsize, Hempty, map_size_empty. simpl.
    unfold announced. by rewrite app_nil_r, Hsize.
  - intros ch d sched Hopen Hbuf out.
    assert (fire P f (sendFileChunks f ch) (dc_drain d ch)
            = (set_status Deferred (sendFileChunks f ch), dc_drain d ch))
      as Hfire.
    { unfold fire, sendFileChunks, onload. rewrite Hopen. simpl.
      rewrite Hopen. simpl.
      by destruct (N.ltb_spec BUFFER_THRESHOLD (bufferedAmount ch - d)); [|lia]. }
    unfold out. cbn [run]. rewrite Hfire.
    destruct sched as [|d' sched]; [done|].
    assert (fire P f (set_status Deferred (sendFileChunks f ch))
              (dc_drain d' (dc_drain d ch))
            = (set_status Stalled (sendFileChunks f ch),
               dc_drain d' (dc_drain d ch))) as Hfire2.
    { unfold fire, ontimeout, sendFileChunks. simpl. by rewrite Hsize. }
    cbn [run]. rewrite Hfire2.
    by destruct (run_stalled P f sched (set_status Stalled (sendFileChunks f ch))
                   (dc_drain d' (dc_drain d ch)) eq_refl) as [-> ->].
Qed.

Definition demo_empty_file : File :=
  {| file_name := "empty.txt"; file_type := "text/plain";
     file_lastModified := 0%Z; content := [] |}.

Lemma empty_file_transfer_witness :
  content demo_empty_file = [] ∧ totalChunks demo_empty_file = 0.
Proof.
  split; [reflexivity|].
  apply (empty_file_transfer demo_platform demo_empty_file). reflexivity.
Defined.

(** *** Backpressure *)

(** "The counter never exceeds [B] while the transfer is under way": from
    the start of the chunk loop until [file-complete] has been enqueued,
    under any flushing behaviour of the transport. *)
Definition buffer_never_exceeds (B : N) : Prop :=
  ∀ (P : Platform) (f : File) (sched : list N) (ch : DataChannel),
    dc_open ch = true → bufferedAmount ch <= B →
    status (run P f sched (sendFileChunks f ch) ch).1 ≠ Resolved →
    bufferedAmount (run P f sched (sendFileChunks f ch) ch).2 <= B.

Section Backpressure.
Context (P : Platform) (f : File).

Definition buffer_inv (B : N) (s : Sender) (ch : DataChannel) : Prop :=
  match status s with
  | Resolved =>
      bufferedAmount ch
      <= B + message_bytes P (complete_frame f (final_checksum P f))
  | _ => bufferedAmount ch <= B
  end.

Lemma fire_buffer_inv d s ch :
  let B := BUFFER_THRESHOLD + headerSize + CHUNK_SIZE in
  buffer_inv B s ch →
  buffer_inv B (fire P f s (dc_drain d ch)).1 (fire P f s (dc_drain d ch)).2.
Proof.
  intros B. unfold buffer_inv, fire.
  destruct (status s) eqn:Hst; intros Hinv;
    try (simpl in *; rewrite Hst; simpl; lia).
  - unfold onload. simpl dc_open. destruct (dc_open ch); simpl; [|lia].
    destruct (N.ltb_spec BUFFER_THRESHOLD (bufferedAmount ch - d)); simpl; [lia|].
    pose proof (chunk_length_le f (chunkIndex s)) as Hle.
    assert (byteLength (slice f (offset s) (offset s + CHUNK_SIZE)) <= CHUNK_SIZE)
      as Hlen by (unfold byteLength, slice; rewrite length_take; lia).
    destruct (offset s + CHUNK_SIZE <? file_size f); simpl.
    + rewrite byteLength_chunk_frame. unfold B. lia.
    + unfold final_checksum. destruct (subtle P); simpl;
        rewrite byteLength_chunk_frame; unfold B; lia.
  - unfold ontimeout. destruct (offset s <? file_size f); simpl; lia.
  - unfold onchecksum. simpl dc_open. destruct (dc_open ch); simpl; [|lia].
    unfold final_checksum. lia.
Qed.

Lemma run_buffer_inv sched s ch :
  let B := BUFFER_THRESHOLD + headerSize + CHUNK_SIZE in
  buffer_inv B s ch →
  buffer_inv B (run P f sched s ch).1 (run P f sched s ch).2.
Proof.
  intros B. revert s ch.
  induction sched as [|d sched IH]; intros s ch Hinv; [done|].
  simpl. pose proof (fire_buffer_inv d s ch Hinv) as H.
  destruct (fire P f s (dc_drain d ch)) as [s' ch']. by apply IH.
Qed.

(** For a file that is not empty the loop never gets stuck on an open
    channel: a deferred read is always issued again. *)
Lemma fire_not_stalled pre d s ch :
  file_size f ≠ 0 → dc_open ch = true →
  sender_inv P f pre s ch → status s ≠ Stalled → status s ≠ Rejected →
  status (fire P f s (dc_drain d ch)).1 ≠ Stalled
  ∧ status (fire P f s (dc_drain d ch)).1 ≠ Rejected
  ∧ dc_open (fire P f s (dc_drain d ch)).2 = true.
Proof.
  intros Hsize Hopen Hinv Hst Hrej. unfold fire, sender_inv in *.
  destruct (status s) eqn:E; try done.
  - unfold onload. simpl dc_open. rewrite Hopen. simpl.
    destruct (BUFFER_THRESHOLD <? _); simpl; [by rewrite Hopen|].
    destruct (_ <? file_size f); simpl; [done|].
    destruct (subtle P); simpl; done.
  - destruct Hinv as (Hoff & Hk & _). unfold ontimeout.
    destruct (N.ltb_spec (offset s) (file_size f)) as [|Hge]; simpl;
      [by rewrite Hopen|].
    exfalso. destruct Hk as [Hk|Hk]; rewrite ?Hk in *; lia.
  - unfold onchecksum. simpl dc_open. rewrite Hopen. simpl. done.
  - simpl. rewrite E, Hopen. done.
Qed.

Lemma run_not_stalled pre sched s ch :
  file_size f ≠ 0 → dc_open ch = true →
  sender_inv P f pre s ch → status s ≠ Stalled → status s ≠ Rejected →
  status (run P f sched s ch).1 ≠ Stalled.
Proof.
  intros Hsize. revert s ch.
  induction sched as [|d sched IH]; intros s ch Hopen Hinv Hst Hrej; [done|].
  simpl.
  pose proof (fire_not_stalled pre d s ch Hsize Hopen Hinv Hst Hrej)
    as (H1 & H2 & H3).
  pose proof (fire_inv P f pre d s ch Hinv) as H4.
  destruct (fire P f s (dc_drain d ch)) as [s' ch']. by apply IH.
Qed.


End Backpressure.

(** C9 (amended). A chunk is sent only when the counter is at most 1 MiB;
    above it the callback sends nothing and leaves [offset] and
    [chunkIndex] as they are, and the timer re-reads the same slice when
    [offset < file.size], which for a file that is not empty is always the
    case, so that its loop never gets stuck; a chunk frame adds its 13-byte
    header and at most CHUNK_SIZE bytes of payload, so during the chunk loop
    the counter never exceeds 1 MiB + 13 + CHUNK_SIZE, and [file-complete],
    which is enqueued without looking at the counter, adds its own length. *)
Theorem backpressure_bound :
  (∀ P f s ch, dc_open ch = true →
     BUFFER_THRESHOLD < bufferedAmount ch →
     onload P f s ch = (set_status Deferred s, ch))
  ∧ (∀ f s ch, offset s < file_size f →
       ontimeout f s ch = (set_status Reading s, ch))
  ∧ (∀ P f s ch, dc_open ch = true →
       bufferedAmount ch <= BUFFER_THRESHOLD →
       let frame := chunk_frame (chunkIndex s) (totalChunks f)
                      (slice f (offset s) (offset s + CHUNK_SIZE)) in
       byteLength frame <= headerSize + CHUNK_SIZE
       ∧ offset (onload P f s ch).1 = offset s + CHUNK_SIZE
       ∧ chunkIndex (onload P f s ch).1 = chunkIndex s + 1
       ∧ ∃ rest, dc_sent (onload P f s ch).2 = dc_sent ch ++ Binary frame :: rest)
  ∧ (∀ P f sched ch, file_size f ≠ 0 → dc_open ch = true →
       status (run P f sched (sendFileChunks f ch) ch).1 ≠ Stalled)
  ∧ buffer_never_exceeds (BUFFER_THRESHOLD + headerSize + CHUNK_SIZE)
  ∧ (∀ P f sched ch, dc_open ch = true →
       bufferedAmount ch <= BUFFER_THRESHOLD + headerSize + CHUNK_SIZE →
       bufferedAmount (run P f sched (sendFileChunks f ch) ch).2
       <= BUFFER_THRESHOLD + headerSize + CHUNK_SIZE
          + message_bytes P (complete_frame f (final_checksum P f))).
Proof.
  split; [|split; [|split; [|split; [|split]]]].
  - intros P f s ch Hopen Hbuf. unfold onload. rewrite Hopen. simpl.
    by destruct (N.ltb_spec BUFFER_THRESHOLD (bufferedAmount ch)); [|lia].
  - intros f s ch Hoff. unfold ontimeout.
    by destruct (N.ltb_spec (offset s) (file_size f)); [|lia].
  - intros P f s ch Hopen Hbuf frame.
    assert (byteLength (slice f (offset s) (offset s + CHUNK_SIZE)) <= CHUNK_SIZE)
      as Hlen by (unfold byteLength, slice; rewrite length_take; lia).
    split; [unfold frame; rewrite byteLength_chunk_frame; lia|].
    unfold onload. rewrite Hopen. simpl.
    destruct (N.ltb_spec BUFFER_THRESHOLD (bufferedAmount ch)); [lia|].
    destruct (offset s + CHUNK_SIZE <? file_size f); simpl.
    + repeat split. by exists [].
    + destruct (subtle P); simpl; repeat split.
      * by exists [].
      * rewrite <- app_assoc. by eexists.
  - intros P f sched ch Hsize Hopen.
    apply (run_not_stalled P f (dc_sent ch)); try done;
      unfold sendFileChunks; rewrite Hopen; try done.
    unfold sender_inv. simpl. split; [done|]. split; [by left|].
    unfold chunk_frames. simpl. by rewrite app_nil_r.
  - intros P f sched ch Hopen Hbuf Hres.
    pose proof (run_buffer_inv P f sched (sendFileChunks f ch) ch) as H.
    unfold buffer_inv in H. unfold sendFileChunks in H at 1.
    rewrite Hopen in H. simpl in H. specialize (H Hbuf).
    destruct (status (run P f sched (sendFileChunks f ch) ch).1); done.
  - intros P f sched ch Hopen Hbuf.
    pose proof (run_buffer_inv P f sched (sendFileChunks f ch) ch) as H.
    unfold buffer_inv in H. unfold sendFileChunks in H at 1.
    rewrite Hopen in H. simpl in H. specialize (H Hbuf). simpl.
    destruct (status (run P f sched (sendFileChunks f ch) ch).1); lia.
Qed.

(** C9, as stated, fails: with the counter at exactly 1 MiB the check
    passes, and a full chunk frame (13 + 65536 bytes) takes it to
    1 MiB + CHUNK_SIZE + 13 while the second chunk is still to be sent. *)
Lemma buffer_exceeds_claimed_bound :
  ¬ buffer_never_exceeds (BUFFER_THRESHOLD + CHUNK_SIZE).
Proof.
  intros Hclaim.
  set (f := {| file_name := "two-chunks.bin"; file_type := "";
               file_lastModified := 0%Z;
               content := repeat x00 (N.to_nat 131072) |}).
  set (ch := {| dc_open := true; bufferedAmount := 1048576; dc_sent := [] |}).
  specialize (Hclaim demo_platform f [0] ch eq_refl).
  assert (status (run demo_platform f [0] (sendFileChunks f ch) ch).1 = Reading
          ∧ bufferedAmount (run demo_platform f [0] (sendFileChunks f ch) ch).2
            = 1114125) as [Hst Hbuf] by (vm_compute; done).
  rewrite Hst, Hbuf in Hclaim.
  assert (1114125 <= BUFFER_THRESHOLD + CHUNK_SIZE) as Habs
    by (apply Hclaim; [vm_compute; discriminate|discriminate]).
  vm_compute in Habs. by apply Habs.
Qed.

(** *** Duplicate and out-of-range chunks *)

(** Everything the receiver keeps about the transfer; only the data channel,
    through which the acknowledgements leave, is left out. *)
Definition transfer_state (r : Receiver) :=
  (currentFile r, receivedChunks r, chunkMap r, receivedChunkIndices r,
   expectedChunkCount r, bytesTransferred r, receivedFiles r, onError_calls r).

(** The chunks of a sequence with the replays taken out: a chunk is kept
    when its index was not [seen] before. *)
Fixpoint once (seen : gset N) (cs : list ChunkData) : list ChunkData :=
  match cs with
  | [] => []
  | c :: cs' =>
      if bool_decide (index c ∈ seen) then once seen cs'
      else c :: once ({[index c]} ∪ seen) cs'
  end.

Section Duplicates.
Context (P : Platform).

Lemma sendChunkAck_state r i :
  transfer_state (sendChunkAck P r i) = transfer_state r.
Proof. unfold sendChunkAck. by destruct (dc_open (dataChannel r)). Qed.

Lemma sendChunkAck_sent r i :
  dc_open (dataChannel r) = true →
  dc_sent (dataChannel (sendChunkAck P r i))
  = dc_sent (dataChannel r) ++ [Text (chunk_ack i)].
Proof. unfold sendChunkAck. by intros ->. Qed.

Lemma handleChunk_state_ext r1 r2 c :
  transfer_state r1 = transfer_state r2 →
  transfer_state (handleChunkWithSequence P r1 c)
  = transfer_state (handleChunkWithSequence P r2 c).
Proof.
  destruct r1, r2. intros H. unfold transfer_state in H. simpl in H.
  injection H as -> -> -> -> -> -> -> ->.
  unfold handleChunkWithSequence. simpl.
  destruct currentFile1; [|done].
  destruct (cd_totalChunks c <=? index c); [done|].
  destruct (bool_decide _);
    rewrite !sendChunkAck_state; reflexivity.
Qed.

Lemma handleChunks_state_ext cs r1 r2 :
  transfer_state r1 = transfer_state r2 →
  transfer_state (foldl (handleChunkWithSequence P) r1 cs)
  = transfer_state (foldl (handleChunkWithSequence P) r2 cs).
Proof.
  revert r1 r2. induction cs as [|c cs IH]; intros r1 r2 H; [done|].
  simpl. by apply IH, handleChunk_state_ext.
Qed.

Lemma handleFileComplete_state_ext r1 r2 c :
  transfer_state r1 = transfer_state r2 →
  transfer_state (handleFileComplete r1 c)
  = transfer_state (handleFileComplete r2 c).
Proof.
  destruct r1, r2. intros H. unfold transfer_state in H. simpl in H.
  injection H as -> -> -> -> -> -> -> ->.
  unfold handleFileComplete. simpl. by destruct currentFile1.
Qed.

Lemma duplicate_is_acked r c :
  is_Some (currentFile r) → index c < cd_totalChunks c →
  index c ∈ receivedChunkIndices r →
  handleChunkWithSequence P r c = sendChunkAck P r (index c).
Proof.
  intros [cf Hcf] Hvalid Hdup. unfold handleChunkWithSequence. rewrite Hcf.
  destruct (N.leb_spec (cd_totalChunks c) (index c)); [lia|].
  by rewrite bool_decide_eq_true_2.
Qed.

Lemma out_of_range_dropped r c :
  cd_totalChunks c <= index c → handleChunkWithSequence P r c = r.
Proof.
  intros Hinvalid. unfold handleChunkWithSequence.
  destruct (currentFile r); [|done].
  by destruct (N.leb_spec (cd_totalChunks c) (index c)); [|lia].
Qed.

Lemma fresh_is_stored r c :
  is_Some (currentFile r) → index c < cd_totalChunks c →
  index c ∉ receivedChunkIndices r →
  let r' := handleChunkWithSequence P r c in
  is_Some (currentFile r')
  ∧ receivedChunkIndices r' = {[index c]} ∪ receivedChunkIndices r
  ∧ chunkMap r' = <[index c := data c]> (chunkMap r)
  ∧ bytesTransferred r' = bytesTransferred r + byteLength (data c).
Proof.
  intros [cf Hcf] Hvalid Hnew. unfold handleChunkWithSequence. rewrite Hcf.
  destruct (N.leb_spec (cd_totalChunks c) (index c)); [lia|].
  rewrite bool_decide_eq_false_2 by done. simpl.
  match goal with |- context [sendChunkAck P ?r' _] =>
    pose proof (sendChunkAck_fields P r' (index c)) as (E1&_&E3&E4&_&E6&_)
  end.
  rewrite E1, E3, E4, E6. simpl. split; [by eexists|done].
Qed.

Lemma once_equivalent cs r :
  is_Some (currentFile r) →
  Forall (fun c => index c < cd_totalChunks c) cs →
  transfer_state (foldl (handleChunkWithSequence P) r cs)
  = transfer_state
      (foldl (handleChunkWithSequence P) r (once (receivedChunkIndices r) cs)).
Proof.
  revert r. induction cs as [|c cs IH]; intros r Hcf Hvalid; [done|].
  apply Forall_cons in Hvalid as [Hc Hcs]. simpl.
  destruct (decide (index c ∈ receivedChunkIndices r)) as [Hdup|Hnew].
  - rewrite bool_decide_eq_true_2 by done. rewrite <- IH by done.
    apply handleChunks_state_ext.
    rewrite duplicate_is_acked by done. apply sendChunkAck_state.
  - rewrite bool_decide_eq_false_2 by done. simpl.
    destruct (fresh_is_stored r c Hcf Hc Hnew) as (Hcf' & Hidx & _).
    rewrite <- Hidx. by apply IH.
Qed.

Lemma once_NoDup cs seen :
  NoDup (map index (once seen cs))
  ∧ ∀ c, c ∈ once seen cs → index c ∉ seen.
Proof.
  revert seen. induction cs as [|c cs Hrec]; intros seen; simpl.
  { split; [constructor|set_solver]. }
  destruct (decide (index c ∈ seen)) as [Hdup|Hnew].
  - rewrite bool_decide_eq_true_2 by done. apply Hrec.
  - rewrite bool_decide_eq_false_2 by done. simpl.
    pose proof (Hrec ({[index c]} ∪ seen)) as [Hnd Hnot]. clear Hrec. split.
    + constructor; [|done]. intros (c' & Heq & Hin)%list_elem_of_fmap.
      apply Hnot in Hin. set_solver.
    + intros c' [->|Hin]%elem_of_cons; [done|].
      apply Hnot in Hin. set_solver.
Qed.

(** C4. A binary frame that starts with 0x01 and has its 13 header bytes is
    handled as the chunk its header describes.  While a file is being
    received: a chunk whose index is already in [receivedChunkIndices] is
    answered with a chunk-ack and changes nothing of the transfer state; a
    chunk whose index is not below its [totalChunks] is dropped with no
    change at all; hence a sequence of chunks leaves the same transfer state,
    and the same reassembled file on [file-complete], as that sequence with
    the replays removed, in which every index occurs once. *)
Theorem duplicate_chunks_ignored :
  (∀ r bs c, parse_chunk bs = Some c →
     handleDataChannelMessage P r (Binary bs) = handleChunkWithSequence P r c)
  ∧ (∀ r c, is_Some (currentFile r) → index c < cd_totalChunks c →
     index c ∈ receivedChunkIndices r →
     handleChunkWithSequence P r c = sendChunkAck P r (index c)
     ∧ transfer_state (handleChunkWithSequence P r c) = transfer_state r
     ∧ (dc_open (dataChannel r) = true →
        dc_sent (dataChannel (handleChunkWithSequence P r c))
        = dc_sent (dataChannel r) ++ [Text (chunk_ack (index c))]))
  ∧ (∀ r c, cd_totalChunks c <= index c → handleChunkWithSequence P r c = r)
  ∧ (∀ r cs, is_Some (currentFile r) →
       Forall (fun c => index c < cd_totalChunks c) cs →
       let r1 := foldl (handleChunkWithSequence P) r cs in
       let r2 := foldl (handleChunkWithSequence P) r
                   (once (receivedChunkIndices r) cs) in
       NoDup (map index (once (receivedChunkIndices r) cs))
       ∧ transfer_state r1 = transfer_state r2
       ∧ ∀ c, receivedFiles (handleFileComplete r1 c)
              = receivedFiles (handleFileComplete r2 c)).
Proof.
  split; [|split; [|split]].
  - intros r bs c Hparse. unfold handleDataChannelMessage. by rewrite Hparse.
  - intros r c Hcf Hvalid Hdup.
    rewrite duplicate_is_acked by done.
    split; [done|]. split; [apply sendChunkAck_state|apply sendChunkAck_sent].
  - apply out_of_range_dropped.
  - intros r cs Hcf Hvalid r1 r2. split; [apply once_NoDup|].
    pose proof (once_equivalent cs r Hcf Hvalid) as Heq. split; [done|].
    intros c. pose proof (handleFileComplete_state_ext r1 r2 c Heq) as H.
    unfold transfer_state in H. by injection H.
Qed.

End Duplicates.

(** *** Completion with gaps *)

(** The expected length of chunk [i] out of [n]: CHUNK_SIZE, and for the
    last index the remainder of the declared size (CHUNK_SIZE when the size
    is a multiple of it). *)
Definition expected_length (declared n i : N) : N :=
  if i =? n - 1
  then (if declared mod CHUNK_SIZE =? 0 then CHUNK_SIZE
        else declared mod CHUNK_SIZE)
  else CHUNK_SIZE.

(** The reassembly that fills gaps: part [i] is the stored chunk, or zero
    bytes of the expected length where none is stored. *)
Definition zero_filled (r : Receiver) (cf : CurrentFile) (n : N)
    (parts : list (list byte)) : Prop :=
  length parts = N.to_nat n
  ∧ (∀ i chunk, i < n → chunkMap r !! i = Some chunk →
       parts !! N.to_nat i = Some chunk)
  ∧ (∀ i, i < n → chunkMap r !! i = None →
       parts !! N.to_nat i
       = Some (repeat x00 (N.to_nat (expected_length (cf_size cf) n i)))).

(** "Every gap is filled": completion with an index of [0 .. expected)
    absent from the chunk map delivers the zero-filled reassembly. *)
Definition gaps_are_filled : Prop :=
  ∀ r c cf,
    currentFile r = Some cf →
    (∃ i, i < expectedChunks r c ∧ chunkMap r !! i = None) →
    ∃ parts,
      zero_filled r cf (expectedChunks r c) parts
      ∧ receivedFiles (handleFileComplete r c)
        = receivedFiles r ++ [{| rf_file := cf; rf_blob := concat parts |}].

(** "Every gap is reported": such a completion calls [onError]. *)
Definition gaps_are_reported : Prop :=
  ∀ r c cf,
    currentFile r = Some cf →
    (∃ i, i < expectedChunks r c ∧ chunkMap r !! i = None) →
    ∃ e, onError_calls (handleFileComplete r c) = onError_calls r ++ [e].

Lemma NoDup_upto (n : N) : NoDup (upto n).
Proof.
  unfold upto. apply NoDup_fmap_2; [|apply NoDup_seq].
  intros a b H. lia.
Qed.

(** A chunk map with fewer entries than expected has a gap. *)
Lemma gap_exists (m : gmap N (list byte)) (n : N) :
  N.of_nat (size m) < n → ∃ i, i < n ∧ m !! i = None.
Proof.
  intros Hsize.
  destruct (decide (Forall (fun i => is_Some (m !! i)) (upto n))) as [Hall|Hgap].
  - exfalso.
    assert (list_to_set (upto n) ⊆ dom m) as Hsub.
    { intros i Hi%elem_of_list_to_set. apply elem_of_dom.
      by eapply Forall_forall in Hall. }
    apply subseteq_size in Hsub.
    rewrite size_list_to_set, length_upto, size_dom in Hsub
      by apply NoDup_upto. lia.
  - apply not_Forall_Exists in Hgap; [|apply _].
    apply Exists_exists in Hgap as (i & Hi%elem_of_upto & Hnone).
    exists i. split; [done|]. by apply eq_None_not_Some.
Qed.

(** C5 (amended). On file-complete with a chunk map that is not empty and
    holds fewer chunks than expected: some index of [0 .. expected) is
    missing; the reassembly has [expected] parts, the stored chunk where
    there is one and otherwise zero bytes of the expected length (CHUNK_SIZE,
    or for the last index the remainder of the declared size); [onError] is
    called once with the missing indices; and the file is still delivered
    and the per-file state reset. *)
Theorem missing_chunks_zero_filled (r : Receiver) (c : FileComplete)
    (cf : CurrentFile) :
  currentFile r = Some cf →
  (0 < size (chunkMap r))%nat →
  N.of_nat (size (chunkMap r)) < expectedChunks r c →
  (∃ i, i < expectedChunks r c ∧ chunkMap r !! i = None)
  ∧ (∃ parts,
       zero_filled r cf (expectedChunks r c) parts
       ∧ receivedFiles (handleFileComplete r c)
         = receivedFiles r ++ [{| rf_file := cf; rf_blob := concat parts |}])
  ∧ onError_calls (handleFileComplete r c)
    = onError_calls r
      ++ [transfer_incomplete (missingChunks r (expectedChunks r c))]
  ∧ currentFile (handleFileComplete r c) = None
  ∧ chunkMap (handleFileComplete r c) = ∅.
Proof.
  intros Hcf Hnonempty Hfew.
  split; [by apply gap_exists|]. unfold handleFileComplete. rewrite Hcf.
  cbn [receivedFiles onError_calls currentFile chunkMap].
  split; [|split; [|done]].
  - eexists. split; [|reflexivity].
    unfold chunksToReassemble.
    destruct (Nat.ltb_spec 0 (size (chunkMap r))) as [_|?]; [|lia].
    split; [by rewrite length_map, length_upto|]. split.
    + intros i chunk Hi Hchunk.
      by rewrite list_lookup_fmap, lookup_upto, <- Hchunk by done; simpl;
        rewrite Hchunk.
    + intros i Hi Hnone.
      rewrite list_lookup_fmap, lookup_upto by done. simpl.
      by rewrite Hnone.
  - unfold receivedChunkCount.
    destruct (Nat.ltb_spec 0 (size (chunkMap r))) as [_|?]; [|lia].
    by destruct (N.ltb_spec (N.of_nat (size (chunkMap r))) (expectedChunks r c));
      [|lia].
Qed.

(** A transfer in which chunk 1 of 3 never arrived. *)
Definition demo_gap : Receiver :=
  receive demo_platform
    (new_receiver {| dc_open := true; bufferedAmount := 0; dc_sent := [] |})
    [Text (file_metadata {| md_name := "gap.bin"; md_size := 131075;
                            md_mimeType := ""; md_lastModified := 0%Z |});
     Binary (chunk_frame 0 3 [x0a; x0b]);
     Binary (chunk_frame 2 3 [x0c])].

Definition demo_complete (n : N) : FileComplete :=
  {| fc_fileName := "gap.bin"; fc_totalChunks := Some n; fc_checksum := None |}.

Lemma missing_chunks_zero_filled_witness :
  currentFile demo_gap
  = Some {| cf_name := "gap.bin"; cf_size := 131075;
            cf_type := "file-metadata"; cf_lastModified := 0%Z |}
  ∧ onError_calls (handleFileComplete demo_gap (demo_complete 3))
    = onError_calls demo_gap
      ++ [transfer_incomplete
            (missingChunks demo_gap (expectedChunks demo_gap (demo_complete 3)))].
Proof.
  split; [reflexivity|].
  apply (missing_chunks_zero_filled demo_gap (demo_complete 3)
           {| cf_name := "gap.bin"; cf_size := 131075;
              cf_type := "file-metadata"; cf_lastModified := 0%Z |});
    [reflexivity | vm_compute; lia | vm_compute; reflexivity].
Defined.

(** C5, as stated, fails at two completions.  With an empty chunk
    map the legacy chunks are concatenated and nothing is filled in: after
    the metadata of a 10-byte file alone, the delivered file is empty.  And
    [onError] is called only when the chunk map has fewer entries than
    expected: with chunk 0 and a chunk 5 (accepted under its own header's
    total of 10) stored, a completion for 2 chunks fills the gap at 1
    without any report. *)
Lemma gaps_not_always_filled_nor_reported :
  ¬ gaps_are_filled ∧ ¬ gaps_are_reported.
Proof.
  set (ch := {| dc_open := true; bufferedAmount := 0; dc_sent := [] |}).
  split.
  - intros Hclaim.
    set (r := receive demo_platform (new_receiver ch)
                [Text (file_metadata {| md_name := "t"; md_size := 10;
                                        md_mimeType := "";
                                        md_lastModified := 0%Z |})]).
    destruct (Hclaim r (demo_complete 1)
                {| cf_name := "t"; cf_size := 10; cf_type := "file-metadata";
                   cf_lastModified := 0%Z |} eq_refl)
      as (parts & (Hlen & _ & Hzero) & Hfiles).
    { exists 0. split; reflexivity. }
    specialize (Hzero 0 eq_refl eq_refl).
    destruct parts as [|p parts]; [done|].
    injection Hzero as ->. vm_compute in Hfiles. discriminate.
  - intros Hclaim.
    set (r := receive demo_platform (new_receiver ch)
                [Text (file_metadata {| md_name := "t"; md_size := 131072;
                                        md_mimeType := "";
                                        md_lastModified := 0%Z |});
                 Binary (chunk_frame 0 2 [x0a]);
                 Binary (chunk_frame 5 10 [x0b])]).
    destruct (Hclaim r (demo_complete 2)
                {| cf_name := "t"; cf_size := 131072;
                   cf_type := "file-metadata"; cf_lastModified := 0%Z |}
                eq_refl) as [e He].
    { exists 1. split; reflexivity. }
    vm_compute in He. by destruct (app_cons_not_nil [] [] e).
Qed.

(** Two runs of the receiver on a 200 000-byte file of four chunks: with
    chunks 1 and 3 received twice, all six frames are acknowledged and the
    file is delivered intact; with chunk 2 never received, the file has the
    declared size, is zero between offsets 131072 and 196608, and [onError]
    is called once, for index 2. *)
Example four_chunk_transfers :
  let f := {| file_name := "b.bin"; file_type := "";
              file_lastModified := 0%Z;
              content := repeat x07 (N.to_nat 200000) |} in
  let ch0 := {| dc_open := true; bufferedAmount := 0; dc_sent := [] |} in
  let frame i := Binary (chunk_frame i (totalChunks f) (chunk f i)) in
  let last := complete_frame f None in
  let replayed := receive demo_platform (new_receiver ch0)
                    [metadata_frame f; frame 0; frame 1; frame 1; frame 2;
                     frame 3; frame 3; last] in
  let lossy := receive demo_platform (new_receiver ch0)
                 [metadata_frame f; frame 0; frame 1; frame 3; last] in
  (bool_decide (map rf_blob (receivedFiles replayed) = [content f]) = true
   ∧ dc_sent (dataChannel replayed)
     = map (fun i => Text (chunk_ack i)) [0; 1; 1; 2; 3; 3]
   ∧ onError_calls replayed = [])
  ∧ (bool_decide
       (map rf_blob (receivedFiles lossy)
        = [repeat x07 (N.to_nat 131072) ++ repeat x00 (N.to_nat 65536)
           ++ repeat x07 (N.to_nat 3392)]) = true
     ∧ onError_calls lossy = [transfer_incomplete [2]]).
Proof. vm_compute. repeat split; reflexivity. Qed.

End TransferFacts.
(** ** The signaling broker *)

Module BrokerFacts.
Import Broker.
Local Open Scope nat_scope.

(** *** Handlers that only write to sockets leave the room table alone *)

Lemma rooms_send ws m b : rooms (send ws m b) = rooms b.
Proof.
  unfold send. destruct (sockets b !! ws) as [s|]; [|done].
  by destruct (is_open s).
Qed.

Lemma rooms_notify_joined id room ps i b :
  rooms (notify_joined id room ps i b) = rooms b.
Proof.
  revert i b. induction ps as [|p ps IH]; intros i b; [done|].
  simpl. by rewrite IH, rooms_send.
Qed.

Lemma rooms_broadcast ws m ps b : rooms (broadcast ws m ps b) = rooms b.
Proof.
  revert b. unfold broadcast. induction ps as [|p ps IH]; intros b; [done|].
  simpl. rewrite IH. case_bool_decide; [done|apply rooms_send].
Qed.

Lemma rooms_send_all m ps b :
  rooms (foldl (fun b peer => send peer m b) b ps) = rooms b.
Proof.
  revert b. induction ps as [|p ps IH]; intros b; [done|].
  simpl. by rewrite IH, rooms_send.
Qed.

Lemma current_room_Some ws b id room :
  current_room ws b = Some (id, room) → id ≠ ""%string ∧ rooms b !! id = Some room.
Proof.
  unfold current_room. destruct (sockets b !! ws) as [s|]; [|done].
  destruct (currentRoom s) as [i|]; [|done]. case_bool_decide; [done|].
  destruct (rooms b !! i) eqn:E; [|done]. simpl. by intros [= <- <-].
Qed.

(** *** Room codes *)

Lemma charAt_chars k : k < 32 → String.length (charAt chars k) = 1.
Proof.
  intros Hk. do 32 (destruct k as [|k]; [reflexivity|]). lia.
Qed.

Lemma length_append (a b : string) :
  String.length (a +:+ b) = String.length a + String.length b.
Proof. induction a as [|c a IH]; simpl; [done|]. by rewrite IH. Qed.

Lemma generateRoomCode_length rnd : String.length (generateRoomCode rnd) = 6.
Proof.
  unfold generateRoomCode. cbn [foldl seq].
  rewrite !length_append, !charAt_chars by (apply Nat.mod_upper_bound; lia).
  reflexivity.
Qed.

(** *** How one event changes a room *)

Definition with_pendingOffer (o : JSValue) (room : Room) : Room :=
  {| peers := peers room; createdAt := createdAt room;
     peerIds := peerIds room; pendingOffer := o;
     pendingAnswer := pendingAnswer room |}.

Definition with_pendingAnswer (a : JSValue) (room : Room) : Room :=
  {| peers := peers room; createdAt := createdAt room;
     peerIds := peerIds room; pendingOffer := pendingOffer room;
     pendingAnswer := a |}.

Definition with_peers (ps : list nat) (room : Room) : Room :=
  {| peers := ps; createdAt := createdAt room; peerIds := peerIds room;
     pendingOffer := pendingOffer room; pendingAnswer := pendingAnswer room |}.

(** The room found under [r] after an event is the old one, or a newly
    created one, or the old one with a peer appended, a pending slot
    written, or a peer removed. *)
Inductive room_step (b : State) (ev : Env * Event) (r : string) (room' : Room)
  : Prop :=
| rs_same :
    rooms b !! r = Some room' → room_step b ev r room'
| rs_created ws rid :
    ev.2 = message ws (join rid true) →
    r = generateRoomCode (random ev.1) → room' = new_room ws (now ev.1) →
    room_step b ev r room'
| rs_joined ws room :
    ev.2 = message ws (join (Some r) false) →
    rooms b !! r = Some room → length (peers room) < MAX_ROOM_SIZE →
    peers room' = peers room ++ [ws] → createdAt room' = createdAt room →
    pendingAnswer room' = pendingAnswer room →
    pendingOffer room' = pendingOffer room ∨ pendingOffer room' = null →
    room_step b ev r room'
| rs_offer ws o room :
    ev.2 = message ws (offer o) → rooms b !! r = Some room →
    room' = with_pendingOffer o room → room_step b ev r room'
| rs_answer ws a room :
    ev.2 = message ws (answer a) → rooms b !! r = Some room →
    room' = with_pendingAnswer a room → room_step b ev r room'
| rs_left ws room :
    ev.2 = close ws → rooms b !! r = Some room →
    room' = with_peers (filter (fun p => p ≠ ws) (peers room)) room →
    room_step b ev r room'.

Lemma handleJoin_rooms e ws rid cn b r room' :
  rooms (handleJoin e ws rid cn b) !! r = Some room' →
  room_step b (e, message ws (join rid cn)) r room'.
Proof.
  unfold handleJoin. destruct cn.
  - rewrite rooms_send. simpl. intros Hr.
    destruct (decide (r = generateRoomCode (random e))) as [->|Hne].
    + rewrite lookup_insert_eq in Hr. injection Hr as <-.
      by eapply rs_created.
    + rewrite lookup_insert_ne in Hr by done. by apply rs_same.
  - destruct rid as [id|]; [|rewrite rooms_send; apply rs_same].
    case_bool_decide; [rewrite rooms_send; apply rs_same|].
    destruct (rooms b !! id) as [room|] eqn:Hroom;
      [|rewrite rooms_send; apply rs_same].
    destruct (Nat.leb_spec MAX_ROOM_SIZE (length (peers room))) as [?|Hfree];
      [rewrite rooms_send; apply rs_same|].
    match goal with |- context [if ?c then _ else _] => destruct c end.
    + simpl. rewrite rooms_send, rooms_notify_joined. simpl. intros Hr.
      destruct (decide (r = id)) as [->|Hne].
      * rewrite lookup_insert_eq in Hr. injection Hr as <-.
        eapply rs_joined; eauto.
      * rewrite !lookup_insert_ne in Hr by done. by apply rs_same.
    + rewrite rooms_notify_joined. simpl. intros Hr.
      destruct (decide (r = id)) as [->|Hne].
      * rewrite lookup_insert_eq in Hr. injection Hr as <-.
        eapply rs_joined; eauto.
      * rewrite !lookup_insert_ne in Hr by done. by apply rs_same.
Qed.

Lemma handleSignaling_rooms ws data b r room' :
  rooms (handleSignaling ws data b) !! r = Some room' →
  room_step b (Build_Env (fun _ => 0) 0%Z, message ws data) r room'
  ∨ rooms b !! r = Some room'.
Proof.
  unfold handleSignaling.
  destruct (current_room ws b) as [[id room]|] eqn:Hcur; [|by right].
  apply current_room_Some in Hcur as [_ Hroom].
  assert (∀ room1, rooms (set_rooms (insert id room1) b) !! r = Some room' →
                   (r = id ∧ room' = room1) ∨ rooms b !! r = Some room') as Hins.
  { intros room1. simpl. destruct (decide (r = id)) as [->|Hne].
    - rewrite lookup_insert_eq. intros [= <-]. by left.
    - rewrite lookup_insert_ne by done. by right. }
  destruct data; try (rewrite rooms_broadcast; by right).
  - destruct (peers room !! 1) as [p|].
    + destruct (socket_open p b); [rewrite rooms_send; by right|].
      intros [[-> ->]|H]%Hins; [left; by eapply rs_offer|by right].
    + intros [[-> ->]|H]%Hins; [left; by eapply rs_offer|by right].
  - destruct (peers room !! 0) as [p|].
    + destruct (socket_open p b); [rewrite rooms_send; by right|].
      intros [[-> ->]|H]%Hins; [left; by eapply rs_answer|by right].
    + intros [[-> ->]|H]%Hins; [left; by eapply rs_answer|by right].
Qed.

Lemma on_close_rooms ws b r room' :
  rooms (on_close ws b) !! r = Some room' →
  (∃ room, rooms b !! r = Some room
           ∧ room' = with_peers (filter (fun p => p ≠ ws) (peers room)) room)
  ∨ rooms b !! r = Some room'.
Proof.
  unfold on_close.
  destruct (current_room ws b) as [[id room]|] eqn:Hcur; [|by right].
  apply current_room_Some in Hcur as [_ Hroom].
  destruct (filter (fun p => p ≠ ws) (peers room)) as [|p ps] eqn:Hrem.
  - simpl. destruct (decide (r = id)) as [->|Hne].
    + by rewrite lookup_delete_eq.
    + rewrite lookup_delete_ne, lookup_insert_ne by done. by right.
  - rewrite rooms_send_all. simpl. destruct (decide (r = id)) as [->|Hne].
    + rewrite lookup_insert_eq. intros [= <-]. left. exists room.
      by rewrite Hrem.
    + rewrite lookup_insert_ne by done. by right.
Qed.

Lemma step_rooms b ev r room' :
  rooms (step b ev) !! r = Some room' → room_step b ev r room'.
Proof.
  destruct ev as [e [ws|ws data|ws|ws|]]; unfold step; simpl.
  - unfold on_connection.
    destruct (sockets b !! ws); intros H; apply rs_same; exact H.
  - destruct (alive ws b); [|apply rs_same].
    destruct data; simpl; try (rewrite ?rooms_send; apply rs_same).
    + apply handleJoin_rooms.
    + intros [H|H]%handleSignaling_rooms; [|by apply rs_same].
      inversion H; simpl in *; simplify_eq; eauto using room_step.
    + intros [H|H]%handleSignaling_rooms; [|by apply rs_same].
      inversion H; simpl in *; simplify_eq; eauto using room_step.
    + intros [H|H]%handleSignaling_rooms; [|by apply rs_same].
      inversion H; simpl in *; simplify_eq; eauto using room_step.
    + unfold broadcastToRoom. destruct (current_room ws b) as [[??]|];
        rewrite ?rooms_broadcast; apply rs_same.
  - intros H. apply rs_same. exact H.
  - destruct (alive ws b); [|apply rs_same].
    intros [(room & Hroom & ->)|H]%on_close_rooms; [|by apply rs_same].
    by eapply rs_left.
  - intros [H _]%map_lookup_filter_Some. by apply rs_same.
Qed.

(** *** Reachable states *)

Lemma reachable_foldl b evs : reachable b → reachable (foldl step b evs).
Proof.
  revert b. induction evs as [|ev evs IH]; intros b Hb; [done|].
  simpl. apply IH. by constructor.
Qed.

Lemma reachable_run evs : reachable (run evs).
Proof. apply reachable_foldl. constructor. Qed.

(** Every room has at most [MAX_ROOM_SIZE] peers and a six-character code. *)
Definition well_formed (b : State) : Prop :=
  ∀ r room, rooms b !! r = Some room →
            length (peers room) ≤ MAX_ROOM_SIZE ∧ String.length r = 6.

Lemma reachable_well_formed b : reachable b → well_formed b.
Proof.
  induction 1 as [|b ev Hb IH]; intros r room' Hr; [done|].
  apply step_rooms in Hr.
  destruct Hr as [Hsame|ws rid _ -> ->|ws room _ Hroom Hfree Hpeers _ _ _
                 |ws o room _ Hroom ->|ws a room _ Hroom ->|ws room _ Hroom ->].
  - by apply IH.
  - split; [unfold MAX_ROOM_SIZE; simpl; lia|apply generateRoomCode_length].
  - destruct (IH _ _ Hroom) as [_ Hkey]. split; [|done].
    rewrite Hpeers, length_app. simpl. lia.
  - by apply (IH r room).
  - by apply (IH r room).
  - destruct (IH _ _ Hroom) as [Hlen Hkey]. split; [|done].
    simpl. pose proof (length_filter (fun p => p ≠ ws) (peers room)). lia.
Qed.

Lemma room_code_nonempty b r room :
  reachable b → rooms b !! r = Some room → r ≠ ""%string.
Proof.
  intros Hb Hroom ->. by destruct (reachable_well_formed b Hb _ _ Hroom).
Qed.

Lemma alive_open ws s b :
  sockets b !! ws = Some s → readyState s = OPEN → alive ws b = true.
Proof. unfold alive. by intros -> ->. Qed.

Lemma send_open ws s m b :
  sockets b !! ws = Some s → readyState s = OPEN →
  send ws m b = set_sockets (insert ws (push m s)) b.
Proof. unfold send, is_open. by intros -> ->. Qed.

(** *** Capacity *)

(** C3. In every reachable state every room has at most 2 peers; and a join
    that names a room with 2 peers is answered with the "room is full" error
    on the joining socket, which stays open, while the room table (so the
    room's peer list) and every other socket are left as they were. *)
Theorem room_capacity (b : State) :
  reachable b →
  (∀ r room, rooms b !! r = Some room → length (peers room) ≤ 2)
  ∧ (∀ e ws s r room,
       sockets b !! ws = Some s → readyState s = OPEN →
       rooms b !! r = Some room → length (peers room) = 2 →
       let b' := step b (e, message ws (join (Some r) false)) in
       rooms b' = rooms b
       ∧ sockets b'
         = <[ws := {| readyState := OPEN; currentRoom := currentRoom s;
                      peerId := peerId s;
                      outbox := outbox s ++ [error room_full_message] |}]>
             (sockets b)).
Proof.
  intros Hb. split.
  - intros r room Hroom. by destruct (reachable_well_formed b Hb _ _ Hroom).
  - intros e ws s r room Hws Hopen Hroom Hfull.
    pose proof (room_code_nonempty b r room Hb Hroom) as Hr.
    unfold step. simpl. rewrite (alive_open ws s) by done.
    unfold handleJoin. rewrite bool_decide_eq_false_2, Hroom, Hfull by done.
    simpl. rewrite (send_open ws s) by done.
    unfold push. by rewrite Hopen.
Qed.

Definition demo_env : Env := {| random := fun i => i; now := 0%Z |}.

(** Two peers in room ABCDEF, and a third socket connected. *)
Definition demo_full_room : list (Env * Event) :=
  [(demo_env, connection 1); (demo_env, connection 2);
   (demo_env, connection 3);
   (demo_env, message 1 (join None true));
   (demo_env, message 2 (join (Some "ABCDEF"%string) false))].

Lemma room_capacity_witness :
  reachable (run demo_full_room)
  ∧ rooms (step (run demo_full_room)
             (demo_env, message 3 (join (Some "ABCDEF"%string) false)))
    = rooms (run demo_full_room).
Proof.
  split; [apply reachable_run|].
  eapply (room_capacity (run demo_full_room) (reachable_run _)); reflexivity.
Defined.

(** *** Writing to sockets *)

Lemma lookup_send_ne ws p m b :
  ws ≠ p → sockets (send p m b) !! ws = sockets b !! ws.
Proof.
  intros Hne. unfold send. destruct (sockets b !! p) as [s|]; [|done].
  destruct (is_open s); [|done]. simpl. by rewrite lookup_insert_ne.
Qed.

Lemma lookup_send_open ws s m b :
  sockets b !! ws = Some s → readyState s = OPEN →
  sockets (send ws m b) !! ws = Some (push m s).
Proof.
  intros Hws Hopen. rewrite (send_open ws s) by done. simpl.
  by rewrite lookup_insert_eq.
Qed.

Lemma current_room_intro ws s id room b :
  sockets b !! ws = Some s → currentRoom s = Some id → id ≠ ""%string →
  rooms b !! id = Some room → current_room ws b = Some (id, room).
Proof.
  intros Hws Hcur Hid Hroom. unfold current_room.
  by rewrite Hws, Hcur, bool_decide_eq_false_2, Hroom.
Qed.

(** *** The buffered offer *)

(** An offer sent while the room has no second peer is stored in
    [pendingOffer] and written to no socket. *)
Lemma offer_buffered e b r room s ss o :
  r ≠ ""%string → rooms b !! r = Some room → peers room !! 1 = None →
  sockets b !! s = Some ss → readyState ss ≠ CLOSED → currentRoom ss = Some r →
  step b (e, message s (offer o))
  = {| rooms := <[r := with_pendingOffer o room]> (rooms b);
       sockets := sockets b |}.
Proof.
  intros Hr Hroom Hnone Hs Halive Hcur. unfold step. simpl.
  assert (alive s b = true) as ->.
  { unfold alive. rewrite Hs. by destruct (readyState ss). }
  unfold handleSignaling.
  rewrite (current_room_intro s ss r room) by done. by rewrite Hnone.
Qed.

(** A socket that joins a room holding just the creator and a truthy
    pending offer is written [joined] as the receiver and then the offer;
    the slot is cleared. *)
Lemma offer_drained e b r room s w sw o :
  r ≠ ""%string → rooms b !! r = Some room → peers room = [s] →
  pendingOffer room = o → truthy o = true →
  sockets b !! w = Some sw → readyState sw = OPEN → w ≠ s →
  let b' := step b (e, message w (join (Some r) false)) in
  sockets b' !! w
  = Some {| readyState := OPEN; currentRoom := Some r;
            peerId := Some "peer2"%string;
            outbox := outbox sw
                      ++ [joined r (Some "peer2"%string) receiver (Some 2);
                          forwarded (offer o)] |}
  ∧ ∃ room', rooms b' !! r = Some room'
             ∧ peers room' = [s; w] ∧ pendingOffer room' = null
             ∧ pendingAnswer room' = pendingAnswer room.
Proof.
  intros Hr Hroom Hpeers Hoffer Htruthy Hw Hopen Hne. unfold step. simpl.
  rewrite (alive_open w sw) by done.
  unfold handleJoin. rewrite bool_decide_eq_false_2, Hroom, Hpeers by done.
  simpl. rewrite Hoffer, Htruthy. simpl.
  set (sw1 := {| readyState := readyState sw; currentRoom := Some r;
                 peerId := Some "peer2"%string; outbox := outbox sw |}).
  set (room1 := {| peers := [s; w]; createdAt := createdAt room;
                   peerIds := <[w := "peer2"%string]> (peerIds room);
                   pendingOffer := o; pendingAnswer := pendingAnswer room |}).
  set (b2 := set_rooms (insert r room1) (enter w r "peer2" b)).
  assert (sockets b2 !! w = Some sw1) as Hw2.
  { unfold b2, enter. simpl. by rewrite lookup_alter_eq, Hw. }
  set (m1 := joined r (<[w := "peer2"%string]> (peerIds room) !! s) sender (Some 2)).
  set (m2 := joined r (<[w := "peer2"%string]> (peerIds room) !! w) receiver (Some 2)).
  assert (sockets (send s m1 b2) !! w = Some sw1) as Hw3
    by (by rewrite lookup_send_ne).
  assert (sockets (send w m2 (send s m1 b2)) !! w = Some (push m2 sw1)) as Hw4
    by (by apply lookup_send_open).
  assert (socket_open w (send w m2 (send s m1 b2)) = true) as ->.
  { unfold socket_open. rewrite Hw4. unfold is_open. simpl. by rewrite Hopen. }
  simpl. split.
  - rewrite (lookup_send_open w (push m2 sw1)) by (simpl; done).
    unfold push, m2, sw1. simpl.
    by rewrite lookup_insert_eq, Hopen, <- app_assoc.
  - eexists. rewrite lookup_insert_eq. split; [reflexivity|]. done.
Qed.

(** C2. In a reachable state, let room [r] hold only its creator [s], whose
    connection is in [r], and let [w] be another open socket.  An offer (a
    truthy payload) sent by [s] is stored in [pendingOffer] and written to
    nobody.  When [w] then joins [r], what is written to [w] is exactly
    [joined] (role receiver) followed by that offer, once, and the slot is
    cleared.  The second part holds in any later state in which the room
    still holds only [s] and the slot still holds the offer. *)
Theorem pending_offer_handshake (b : State) (r : string) (room : Room)
    (s w : nat) (ss sw : Session) (o : JSValue) (e1 e2 : Env) :
  reachable b →
  rooms b !! r = Some room → peers room = [s] →
  sockets b !! s = Some ss → readyState ss ≠ CLOSED → currentRoom ss = Some r →
  sockets b !! w = Some sw → readyState sw = OPEN → w ≠ s →
  truthy o = true →
  let b1 := step b (e1, message s (offer o)) in
  let b2 := step b1 (e2, message w (join (Some r) false)) in
  let delivered := [joined r (Some "peer2"%string) receiver (Some 2);
                    forwarded (offer o)] in
  (rooms b1 !! r = Some (with_pendingOffer o room) ∧ sockets b1 = sockets b)
  ∧ (∃ sw2, sockets b2 !! w = Some sw2
            ∧ outbox sw2 = outbox sw ++ delivered)
  ∧ (∃ room2, rooms b2 !! r = Some room2
              ∧ peers room2 = [s; w] ∧ pendingOffer room2 = null)
  ∧ (∀ b' e room' sw',
       rooms b' !! r = Some room' → peers room' = [s] →
       pendingOffer room' = o →
       sockets b' !! w = Some sw' → readyState sw' = OPEN →
       let b'' := step b' (e, message w (join (Some r) false)) in
       (∃ sw'', sockets b'' !! w = Some sw''
                ∧ outbox sw'' = outbox sw' ++ delivered)
       ∧ ∃ room'', rooms b'' !! r = Some room''
                   ∧ pendingOffer room'' = null).
Proof.
  intros Hb Hroom Hpeers Hs Halive Hcur Hw Hopen Hne Htruthy b1 b2 delivered.
  pose proof (room_code_nonempty b r room Hb Hroom) as Hr.
  assert (b1 = {| rooms := <[r := with_pendingOffer o room]> (rooms b);
                  sockets := sockets b |}) as Hb1.
  { apply (offer_buffered e1 b r room s ss o); try done. by rewrite Hpeers. }
  split; [|split; [|split]].
  - rewrite Hb1. simpl. by rewrite lookup_insert_eq.
  - destruct (offer_drained e2 b1 r (with_pendingOffer o room) s w sw o)
      as [Hsock _]; try done.
    + rewrite Hb1. simpl. by rewrite lookup_insert_eq.
    + by rewrite Hb1.
    + eexists. split; [exact Hsock|done].
  - destruct (offer_drained e2 b1 r (with_pendingOffer o room) s w sw o)
      as [_ (room2 & H2 & Hp & Ho & _)]; try done.
    + rewrite Hb1. simpl. by rewrite lookup_insert_eq.
    + by rewrite Hb1.
    + by exists room2.
  - intros b' e room' sw' Hroom' Hpeers' Hoffer' Hw' Hopen' b''.
    destruct (offer_drained e b' r room' s w sw' o)
      as [Hsock (room'' & H2 & _ & Ho & _)]; try done.
    split; [eexists; split; [exact Hsock|done]|by exists room''].
Qed.

(** The creator of ABCDEF is alone in its room; socket 2 is connected. *)
Definition demo_waiting_room : list (Env * Event) :=
  [(demo_env, connection 1); (demo_env, connection 2);
   (demo_env, message 1 (join None true))].

Lemma pending_offer_handshake_witness :
  reachable (run demo_waiting_room)
  ∧ ∃ sw2,
      sockets (step (step (run demo_waiting_room)
                       (demo_env, message 1 (offer (JObject "sdp"))))
                 (demo_env, message 2 (join (Some "ABCDEF"%string) false)))
      !! 2 = Some sw2
      ∧ outbox sw2
        = [connected; joined "ABCDEF" (Some "peer2"%string) receiver (Some 2);
           forwarded (offer (JObject "sdp"))].
Proof.
  split; [apply reachable_run|].
  pose proof
    (pending_offer_handshake (run demo_waiting_room) "ABCDEF" (new_room 1 0)
       1 2
       {| readyState := OPEN; currentRoom := Some "ABCDEF"%string;
          peerId := Some "peer1"%string;
          outbox := [connected;
                     joined "ABCDEF" (Some "peer1"%string) sender None] |}
       {| readyState := OPEN; currentRoom := None; peerId := None;
          outbox := [connected] |}
       (JObject "sdp") demo_env demo_env (reachable_run _)
       eq_refl eq_refl eq_refl ltac:(discriminate) eq_refl
       eq_refl eq_refl ltac:(lia) eq_refl) as (_ & H & _).
  exact H.
Defined.

(** *** Creating a room *)

(** "Creating a room never replaces an existing room." *)
Definition create_preserves_rooms : Prop :=
  ∀ b e ws rid r room,
    reachable b → alive ws b = true → rooms b !! r = Some room →
    rooms (step b (e, message ws (join rid true))) !! r = Some room.

(** C8 (amended). A join with [createNew] on an open socket generates one
    six-character code and stores the new room under it without looking the
    code up first: rooms under any other code are untouched, so no existing
    room is replaced when the generated code is not in the table; the new
    room has the creator as [peers[0]], no pending frames, and the creator's
    connection is recorded in that room as "peer1" and answered
    [joined] with role sender. *)
Theorem create_room (b : State) (e : Env) (ws : nat) (s : Session)
    (rid : option string) :
  sockets b !! ws = Some s → readyState s = OPEN →
  let code := generateRoomCode (random e) in
  let b' := step b (e, message ws (join rid true)) in
  String.length code = 6
  ∧ rooms b' = <[code := new_room ws (now e)]> (rooms b)
  ∧ peers (new_room ws (now e)) !! 0 = Some ws
  ∧ (∀ r, r ≠ code → rooms b' !! r = rooms b !! r)
  ∧ (rooms b !! code = None →
     ∀ r room, rooms b !! r = Some room → rooms b' !! r = Some room)
  ∧ sockets b'
    = <[ws := {| readyState := OPEN; currentRoom := Some code;
                 peerId := Some "peer1"%string;
                 outbox := outbox s
                           ++ [joined code (Some "peer1"%string) sender None] |}]>
        (sockets b).
Proof.
  intros Hws Hopen code b'.
  assert (rooms b' = <[code := new_room ws (now e)]> (rooms b)) as Hrooms.
  { unfold b', step. simpl. rewrite (alive_open ws s) by done.
    unfold handleJoin. by rewrite rooms_send. }
  split; [apply generateRoomCode_length|]. split; [done|]. split; [done|].
  split; [|split].
  - intros r Hne. by rewrite Hrooms, lookup_insert_ne.
  - intros Hfresh r room Hroom. rewrite Hrooms, lookup_insert_ne; [done|].
    intros <-. by rewrite Hfresh in Hroom.
  - unfold b', step. simpl. rewrite (alive_open ws s) by done.
    unfold handleJoin.
    set (s1 := {| readyState := readyState s; currentRoom := Some code;
                  peerId := Some "peer1"%string; outbox := outbox s |}).
    rewrite (send_open ws s1).
    + simpl. unfold push, s1. simpl. rewrite Hopen.
      apply map_eq. intros w. destruct (decide (w = ws)) as [->|Hne].
      * by rewrite !lookup_insert_eq.
      * by rewrite !lookup_insert_ne, lookup_alter_ne.
    + simpl. by rewrite lookup_alter_eq, Hws.
    + done.
Qed.

Lemma create_room_witness :
  sockets (run demo_waiting_room) !! 2
  = Some {| readyState := OPEN; currentRoom := None; peerId := None;
            outbox := [connected] |}
  ∧ String.length (generateRoomCode (random demo_env)) = 6.
Proof.
  split; [reflexivity|].
  eapply (create_room (run demo_waiting_room) demo_env 2 _ None); reflexivity.
Defined.

(** C8, as stated, fails: when the six draws of two creations coincide the
    second room takes the place of the first, whose creator still believes it
    is in it. *)
Lemma create_replaces_room_on_collision : ¬ create_preserves_rooms.
Proof.
  intros Hclaim.
  specialize (Hclaim (run demo_waiting_room) demo_env 2 None "ABCDEF"%string
                (new_room 1 0) (reachable_run _) eq_refl eq_refl).
  vm_compute in Hclaim. discriminate.
Qed.

(** *** Roles *)

(** Sockets 1, 2, 3 connect; 1 creates ABCDEF; 2 joins it; 1 disconnects;
    3 joins. *)
Definition demo_sender_leaves : list (Env * Event) :=
  [(demo_env, connection 1); (demo_env, connection 2);
   (demo_env, connection 3);
   (demo_env, message 1 (join None true));
   (demo_env, message 2 (join (Some "ABCDEF"%string) false));
   (demo_env, close 1);
   (demo_env, message 3 (join (Some "ABCDEF"%string) false))].

(** C7. The run [demo_sender_leaves] on the broker: after the creator has
    left, the joiner sits at index 0 of [peers], and the next join reports
    it, still "peer2", with role sender, after it had been reported with
    role receiver. *)
Example joiner_reported_as_sender :
  (outbox <$> sockets (run demo_sender_leaves) !! 2)
  = Some [connected;
          joined "ABCDEF" (Some "peer2"%string) receiver (Some 2);
          peer_disconnected;
          joined "ABCDEF" (Some "peer2"%string) sender (Some 2)]
  ∧ (peers <$> rooms (run demo_sender_leaves) !! "ABCDEF"%string)
    = Some [2; 3].
Proof. split; reflexivity. Qed.

(** *** What is written to the sockets *)

(** Every frame found on a socket after [b'] was already there in [b], or
    satisfies [P]. *)
Definition writes_only (P : ServerMessage → Prop) (b b' : State) : Prop :=
  ∀ ws s' m,
    sockets b' !! ws = Some s' → m ∈ outbox s' →
    (∃ s, sockets b !! ws = Some s ∧ m ∈ outbox s) ∨ P m.

Lemma writes_only_same P b b' : sockets b' = sockets b → writes_only P b b'.
Proof. intros E ws s' m Hs Hm. left. exists s'. by rewrite <- E. Qed.

Lemma writes_only_trans P b1 b2 b3 :
  writes_only P b1 b2 → writes_only P b2 b3 → writes_only P b1 b3.
Proof.
  intros H12 H23 ws s3 m Hs Hm.
  destruct (H23 ws s3 m Hs Hm) as [(s2 & Hs2 & Hm2)|HP]; [|by right].
  by apply (H12 ws s2 m).
Qed.

Lemma writes_only_alter P f ws b :
  (∀ s, outbox (f s) = outbox s) →
  writes_only P b (set_sockets (alter f ws) b).
Proof.
  intros Hf w s' m Hs Hm. left. simpl in Hs.
  destruct (decide (w = ws)) as [->|Hne].
  - rewrite lookup_alter_eq in Hs.
    destruct (sockets b !! ws) as [s|]; [|done]. injection Hs as <-.
    exists s. by rewrite Hf in Hm.
  - rewrite lookup_alter_ne in Hs by done. by exists s'.
Qed.

Lemma writes_only_send P ws m b : P m → writes_only P b (send ws m b).
Proof.
  intros HP w s' m' Hs Hm. unfold send in Hs.
  destruct (sockets b !! ws) as [s|] eqn:Hws; [|left; by exists s'].
  destruct (is_open s); [|left; by exists s']. simpl in Hs.
  destruct (decide (w = ws)) as [->|Hne].
  - rewrite lookup_insert_eq in Hs. injection Hs as <-. simpl in Hm.
    apply elem_of_app in Hm as [Hm|Hm%list_elem_of_singleton].
    + left. by exists s.
    + right. by subst.
  - rewrite lookup_insert_ne in Hs by done. left. by exists s'.
Qed.

Lemma writes_only_set_rooms P f b b' :
  writes_only P b b' → writes_only P b (set_rooms f b').
Proof. intros H ws s' m Hs Hm. by apply (H ws s' m). Qed.

Lemma writes_only_broadcast P ws m ps b :
  P m → writes_only P b (broadcast ws m ps b).
Proof.
  intros HP. unfold broadcast. revert b. induction ps as [|p ps IH]; intros b.
  { by apply writes_only_same. }
  simpl. eapply writes_only_trans; [|apply IH].
  case_bool_decide; [by apply writes_only_same|by apply writes_only_send].
Qed.

Lemma writes_only_send_each P m ps b :
  P m → writes_only P b (foldl (fun b peer => send peer m b) b ps).
Proof.
  intros HP. revert b. induction ps as [|p ps IH]; intros b.
  { by apply writes_only_same. }
  simpl. eapply writes_only_trans; [|apply IH]. by apply writes_only_send.
Qed.

Lemma writes_only_notify_joined P id room ps i b :
  (∀ pid role n, P (joined id pid role n)) →
  writes_only P b (notify_joined id room ps i b).
Proof.
  intros HP. revert i b. induction ps as [|p ps IH]; intros i b.
  { by apply writes_only_same. }
  simpl. eapply writes_only_trans; [|apply IH]. by apply writes_only_send.
Qed.

(** The frames an event can put on a socket: a buffered or forwarded offer
    aside, a forwarded frame is the frame of the event itself. *)
Definition written_by (ev : Env * Event) (m : ServerMessage) : Prop :=
  match m with
  | forwarded (offer _) => True
  | forwarded data => ∃ ws, ev.2 = message ws data
  | _ => True
  end.

Lemma written_by_event e ws data : written_by (e, message ws data) (forwarded data).
Proof. destruct data; simpl; eauto. Qed.

Lemma step_writes b ev : writes_only (written_by ev) b (step b ev).
Proof.
  destruct ev as [e [ws|ws data|ws|ws|]]; unfold step; simpl.
  - unfold on_connection. destruct (sockets b !! ws) eqn:Hws.
    { by apply writes_only_same. }
    intros w s' m Hs Hm. simpl in Hs. destruct (decide (w = ws)) as [->|Hne].
    + rewrite lookup_insert_eq in Hs. injection Hs as <-. simpl in Hm.
      apply list_elem_of_singleton in Hm as ->. by right.
    + rewrite lookup_insert_ne in Hs by done. left. by exists s'.
  - destruct (alive ws b); [|by apply writes_only_same].
    assert (∀ b0, writes_only (written_by (e, message ws data)) b0
                    (handleSignaling ws data b0)) as Hsig.
    { intros b0. unfold handleSignaling.
      destruct (current_room ws b0) as [[id room]|]; [|by apply writes_only_same].
      destruct data;
        try (apply writes_only_broadcast, written_by_event).
      - destruct (peers room !! 1) as [p|]; [|by apply writes_only_same].
        destruct (socket_open p b0); [|by apply writes_only_same].
        by apply writes_only_send.
      - destruct (peers room !! 0) as [p|]; [|by apply writes_only_same].
        destruct (socket_open p b0); [|by apply writes_only_same].
        apply writes_only_send. simpl. by exists ws. }
    destruct data; simpl; try apply Hsig;
      try (by apply writes_only_send); try (by apply writes_only_same).
    + unfold handleJoin. destruct createNew.
      * eapply writes_only_trans; [|by apply writes_only_send].
        apply writes_only_set_rooms. by apply writes_only_alter.
      * destruct roomId as [id|]; [|by apply writes_only_send].
        case_bool_decide; [by apply writes_only_send|].
        destruct (rooms b !! id) as [room|]; [|by apply writes_only_send].
        destruct (MAX_ROOM_SIZE <=? length (peers room));
          [by apply writes_only_send|].
        match goal with |- context [notify_joined ?i ?r ?ps 0 ?b0] =>
          assert (writes_only (written_by (e, message ws (join (Some id) false)))
                    b (notify_joined i r ps 0 b0)) as Hnotify
        end.
        { eapply writes_only_trans; [|by apply writes_only_notify_joined].
          apply writes_only_set_rooms. by apply writes_only_alter. }
        match goal with |- context [if ?c then _ else _] => destruct c end;
          [|done].
        apply writes_only_set_rooms.
        eapply writes_only_trans; [exact Hnotify|by apply writes_only_send].
  - by apply writes_only_alter; intros s; destruct (readyState s).
  - destruct (alive ws b); [|by apply writes_only_same].
    unfold on_close.
    assert (writes_only (written_by (e, close ws)) b
              (set_sockets
                 (alter (fun s => {| readyState := CLOSED;
                                     currentRoom := currentRoom s;
                                     peerId := peerId s;
                                     outbox := outbox s |}) ws) b)) as H0
      by (by apply writes_only_alter).
    destruct (current_room ws b) as [[id room]|]; [|done].
    match goal with |- context [foldl ?f ?b0 ?ps] =>
      assert (writes_only (written_by (e, close ws)) b (foldl f b0 ps)) as H1
    end.
    { eapply writes_only_trans; [apply writes_only_set_rooms, H0|].
      by apply writes_only_send_each. }
    destruct (filter _ _); [by apply writes_only_set_rooms|done].
  - intros w s' m Hs Hm. unfold on_sweep in Hs. simpl in Hs.
    rewrite map_lookup_imap in Hs.
    destruct (sockets b !! w) as [s|] eqn:Hw; [|done]. simpl in Hs.
    injection Hs as <-.
    match type of Hm with context [if ?c then _ else _] => destruct c end.
    + simpl in Hm. apply elem_of_app in Hm as [Hm|Hm%list_elem_of_singleton].
      * left. by exists s.
      * right. by subst.
    + left. by exists s.
Qed.

(** *** The buffered answer *)

(** Sockets 1 and 2 connect; 1 creates ABCDEF and 2 joins it; socket 1
    starts closing; 2 sends its answer, which is buffered; 1 is closed;
    socket 3 connects and joins the room. *)
Definition demo_answer_buffered : list (Env * Event) :=
  [(demo_env, connection 1); (demo_env, connection 2);
   (demo_env, message 1 (join None true));
   (demo_env, message 2 (join (Some "ABCDEF"%string) false));
   (demo_env, closing 1);
   (demo_env, message 2 (answer (JObject "sdp-answer")));
   (demo_env, close 1);
   (demo_env, connection 3);
   (demo_env, message 3 (join (Some "ABCDEF"%string) false))].

(** C6. The answer slot is written and never read.  An answer that arrives
    while [peers[0]] is missing or not open is stored in [pendingAnswer] and
    written to no socket; after that, the slot of a room changes only when
    another answer is stored or the room is created anew; and no event
    writes a forwarded answer to a socket except the arrival of that very
    answer.  In the run [demo_answer_buffered] the answer is still in the
    slot at the end and on nobody's socket. *)
Theorem pending_answer_never_drained :
  (∀ e b r room ws s a,
     r ≠ ""%string → rooms b !! r = Some room →
     sockets b !! ws = Some s → readyState s ≠ CLOSED → currentRoom s = Some r →
     (∀ p, peers room !! 0 = Some p → socket_open p b = false) →
     step b (e, message ws (answer a))
     = {| rooms := <[r := with_pendingAnswer a room]> (rooms b);
          sockets := sockets b |})
  ∧ (∀ b ev r room room',
       rooms b !! r = Some room → rooms (step b ev) !! r = Some room' →
       pendingAnswer room' = pendingAnswer room
       ∨ (∃ ws a, ev.2 = message ws (answer a) ∧ pendingAnswer room' = a)
       ∨ (∃ ws rid, ev.2 = message ws (join rid true)
                    ∧ room' = new_room ws (now ev.1)))
  ∧ (∀ b ev ws s' a,
       sockets (step b ev) !! ws = Some s' →
       forwarded (answer a) ∈ outbox s' →
       (∃ s, sockets b !! ws = Some s ∧ forwarded (answer a) ∈ outbox s)
       ∨ (∃ w, ev.2 = message w (answer a)))
  ∧ (pendingAnswer <$> rooms (run demo_answer_buffered) !! "ABCDEF"%string)
    = Some (JObject "sdp-answer")
  ∧ (∀ ws s, sockets (run demo_answer_buffered) !! ws = Some s →
             forwarded (answer (JObject "sdp-answer")) ∉ outbox s).
Proof.
  split; [|split; [|split; [|split]]].
  - intros e b r room ws s a Hr Hroom Hws Halive Hcur Hsender.
    unfold step. simpl.
    assert (alive ws b = true) as ->.
    { unfold alive. rewrite Hws. by destruct (readyState s). }
    unfold handleSignaling.
    rewrite (current_room_intro ws s r room) by done.
    destruct (peers room !! 0) as [p|]; [|done].
    by rewrite (Hsender p eq_refl).
  - intros b ev r room room' Hroom Hstep. apply step_rooms in Hstep.
    destruct Hstep as [Hsame|ws rid Hev _ ->|ws room0 _ Hroom0 _ _ _ Hans _
                      |ws o room0 _ Hroom0 ->|ws a room0 Hev Hroom0 ->
                      |ws room0 _ Hroom0 ->];
      rewrite ?Hroom in *; simplify_eq; eauto 6.
  - intros b ev ws s' a Hs Hm.
    destruct (step_writes b ev ws s' _ Hs Hm) as [?|Hw]; [by left|by right].
  - reflexivity.
  - intros ws s Hs%elem_of_map_to_list Hm.
    remember (map_to_list (sockets (run demo_answer_buffered))) as l eqn:Hl.
    vm_compute in Hl. subst l.
    repeat (apply elem_of_cons in Hs as [Hs|Hs];
            [injection Hs as -> ->; simpl in Hm;
             repeat (apply elem_of_cons in Hm as [Hm|Hm]; [discriminate|]);
             by apply elem_of_nil in Hm|]).
    by apply elem_of_nil in Hs.
Qed.

End BrokerFacts.

(** ** The binary frame *)

Module WireFacts.
Import DataView DataViewFacts Transfer TransferFacts.


(** X1.  The 13-byte header is a faithful encoding: for an index, a chunk
    count and a payload length below 2^32, what [handleDataChannelMessage]
    cuts out of a frame is exactly what [sendFileChunks] put in, also when
    bytes follow the payload; the frame is 13 bytes longer than the
    payload. *)
Theorem chunk_frame_roundtrip (i total : N) (chunk extra : list byte) :
  i < U32 → total < U32 → byteLength chunk < U32 →
  parse_chunk (chunk_frame i total chunk ++ extra)
  = Some {| index := i; cd_totalChunks := total; data := chunk |}
  ∧ byteLength (chunk_frame i total chunk) = 13 + byteLength chunk.
Proof.
  intros Hi Ht Hc. split.
  - unfold parse_chunk, chunk_frame, setUint32, getUint32, getUint8.
    cbn [app lookup list_lookup Nat.add length Nat.leb drop andb].
    rewrite !to_N_u8, !le32_value. fold U32.
    rewrite !N.mod_small by done. change (to_N x01 =? 1) with true.
    rewrite drop_0, take_app_length'; [done|]. unfold byteLength. lia.
  - apply byteLength_chunk_frame.
Qed.

Lemma chunk_frame_roundtrip_witness :
  parse_chunk (chunk_frame 7 9 [x61; x62] ++ [x63])
  = Some {| index := 7; cd_totalChunks := 9; data := [x61; x62] |}.
Proof.
  apply (chunk_frame_roundtrip 7 9 [x61; x62] [x63]); reflexivity.
Defined.

End WireFacts.
(** ** The receiving side, frame by frame *)

Module ReceptionFacts.
Import DataView DataViewFacts Transfer TransferFacts WireFacts.

(** The only frame an idle receiver reacts to. *)
Definition announces (m : Message) : bool :=
  match m with Text (file_metadata _) => true | _ => false end.




(** One file on the wire, as [sendFile] emits it. *)
Definition wire (P : Platform) (f : File) : list Message :=
  frames_of f ++ [complete_frame f (final_checksum P f)].

Definition delivered (f : File) : ReceivedFile :=
  {| rf_file := announced f; rf_blob := content f |}.

(** The chunks in the order in which they reach the handler, and the reads
    still in flight at the end. *)
Fixpoint handled {A} (pending frames : list A) (steps : list HandOver)
  : list A :=
  match steps with
  | [] => []
  | next_frame :: steps' =>
      match frames with
      | x :: frames' => handled (pending ++ [x]) frames' steps'
      | [] => handled pending [] steps'
      end
  | read_ends k :: steps' =>
      match pending !! k with
      | Some x => x :: handled (delete k pending) frames steps'
      | None => handled pending frames steps'
      end
  end.

Fixpoint in_flight {A} (pending frames : list A) (steps : list HandOver)
  : list A :=
  match steps with
  | [] => pending
  | next_frame :: steps' =>
      match frames with
      | x :: frames' => in_flight (pending ++ [x]) frames' steps'
      | [] => in_flight pending [] steps'
      end
  | read_ends k :: steps' => in_flight (delete k pending) frames steps'
  end.

(** The binary frames of [f], as the sender puts them on the channel. *)
Definition payload (f : File) (i : N) : list byte :=
  chunk_frame i (totalChunks f) (chunk f i).

Definition payloads (f : File) : list (list byte) :=
  map (payload f) (upto (frame_count f)).

(** How the frames of one file reach the receiver: the binary frames as
    [ArrayBuffer]s, each handled when it arrives, or as [Blob]s, each
    handled when its read ends. *)
Inductive Arrival :=
| as_buffers
| as_blobs (steps : list HandOver).

(** The frames of [f] before its [file-complete]. *)
Definition chunks_arrive (f : File) (h : Arrival) : list Delivery :=
  match h with
  | as_buffers => map message_event (frames_of f)
  | as_blobs steps =>
      message_event (metadata_frame f) :: hand_over (payloads f) steps
  end.

Definition arrivals (P : Platform) (f : File) (h : Arrival) : list Delivery :=
  chunks_arrive f h ++ [message_event (complete_frame f (final_checksum P f))].

(** Every chunk of the file is handled before its [file-complete]. *)
Definition in_time (f : File) (h : Arrival) : bool :=
  match h with
  | as_buffers => true
  | as_blobs steps => timely (length (payloads f)) 0 steps
  end.

(** The frames of [f] handed over as Blobs of which no read has ended when
    [file-complete] is handled; the reads end afterwards. *)
Definition late (P : Platform) (f : File) : list Delivery :=
  message_event (metadata_frame f)
  :: map (fun bs => message_event (Blob bs)) (payloads f)
  ++ message_event (complete_frame f (final_checksum P f))
  :: map (fun _ => blob_loaded 0) (payloads f).

(** The frames that a sequence of events hands over, a Blob counted as the
    binary frame it holds. *)
Definition arrived (evs : list Delivery) : list Message :=
  omap (fun ev => match ev with
                  | message_event (Blob bs) => Some (Binary bs)
                  | message_event m => Some m
                  | blob_loaded _ | blob_failed _ => None
                  end) evs.

Lemma delete_beyond {A} (l : list A) (k : nat) :
  l !! k = None → delete k l = l.
Proof.
  intros H%lookup_ge_None. rewrite delete_take_drop.
  rewrite take_ge, drop_ge by lia. apply app_nil_r.
Qed.

Lemma timely_handled {A} (steps : list HandOver) : ∀ pending frames : list A,
  timely (length frames) (length pending) steps = true →
  in_flight pending frames steps = []
  ∧ ∀ x, x ∈ handled pending frames steps ↔ x ∈ pending ∨ x ∈ frames.
Proof.
  induction steps as [|[|k] steps IH]; intros pending frames H; cbn in H.
  - apply andb_true_iff in H as [H1%Nat.eqb_eq H2%Nat.eqb_eq].
    apply nil_length_inv in H1, H2. subst. cbn. split; [done|].
    intros x. rewrite elem_of_nil. tauto.
  - destruct frames as [|a frames]; [discriminate H|]. cbn in H.
    destruct (IH (pending ++ [a]) frames) as [IH1 IH2].
    { by rewrite length_app, Nat.add_1_r. }
    cbn. split; [done|]. intros x.
    rewrite IH2, elem_of_app, list_elem_of_singleton, elem_of_cons. tauto.
  - apply andb_true_iff in H as [Hk%Nat.ltb_lt H].
    destruct (lookup_lt_is_Some_2 pending k Hk) as [a Ha].
    destruct (IH (delete k pending) frames) as [IH1 IH2].
    { by rewrite length_delete by eauto. }
    cbn. rewrite Ha. split; [done|]. intros x.
    rewrite elem_of_cons, IH2, delete_take_drop.
    rewrite <- (take_drop_middle pending k a Ha) at 3.
    rewrite !elem_of_app, elem_of_cons. tauto.
Qed.

Lemma handled_fmap {A B} (g : A → B) (steps : list HandOver) :
  ∀ pending frames,
  handled (g <$> pending) (g <$> frames) steps
  = g <$> handled pending frames steps.
Proof.
  induction steps as [|[|k] steps IH]; intros pending frames; [done|..].
  - destruct frames as [|a frames]; cbn; [apply (IH pending [])|].
    rewrite <- IH. by rewrite fmap_app.
  - cbn. rewrite list_lookup_fmap. destruct (pending !! k) as [a|]; cbn.
    + by rewrite <- IH, list_fmap_delete.
    + apply IH.
Qed.

(** The receiver with other reads in flight. *)
Definition with_reads (bss : list (list byte)) (r : Receiver) : Receiver :=
  {| currentFile := currentFile r; receivedChunks := receivedChunks r;
     chunkMap := chunkMap r; receivedChunkIndices := receivedChunkIndices r;
     expectedChunkCount := expectedChunkCount r;
     bytesTransferred := bytesTransferred r;
     receivedFiles := receivedFiles r; onError_calls := onError_calls r;
     dataChannel := dataChannel r; blobReads := bss |}.

(** The Blobs among the frames, in order. *)
Definition blobs (ms : list Message) : list (list byte) :=
  omap (fun m => match m with Blob bs => Some bs | _ => None end) ms.

(** A frame that is handled at once. *)
Definition immediate (m : Message) : bool :=
  match m with Blob _ => false | _ => true end.

(** An event in which no [file-metadata] is handled. *)
Definition quiet (ev : Delivery) : bool :=
  match ev with
  | message_event m => negb (announces m)
  | blob_loaded _ | blob_failed _ => true
  end.

Lemma with_reads_same r : with_reads (blobReads r) r = r.
Proof. by destruct r. Qed.

Lemma with_reads_twice a b r : with_reads a (with_reads b r) = with_reads a r.
Proof. reflexivity. Qed.

Lemma readAsArrayBuffer_reads r bs :
  readAsArrayBuffer r bs = with_reads (blobReads r ++ [bs]) r.
Proof. reflexivity. Qed.

Lemma endRead_reads r k : endRead r k = with_reads (delete k (blobReads r)) r.
Proof. reflexivity. Qed.

Section Reception.
Context (P : Platform).

(** The handlers do not look at the reads in flight. *)
Lemma handle_with_reads bss r m :
  immediate m = true →
  handleDataChannelMessage P (with_reads bss r) m
  = with_reads bss (handleDataChannelMessage P r m).
Proof.
  intros Hm. destruct m as [[md|c|i|]|bs|bs]; try done; cbn.
  - unfold handleFileComplete. cbn. by destruct (currentFile r).
  - destruct (parse_chunk bs) as [c|].
    + unfold handleChunkWithSequence. cbn. destruct (currentFile r); [|done].
      destruct (_ <=? _); [done|]. case_bool_decide; unfold sendChunkAck; cbn;
        by destruct (dc_open (dataChannel r)).
    + unfold addReceivedChunk. cbn. by destruct (currentFile r).
Qed.

Lemma receive_with_reads ms : ∀ bss r,
  Forall (fun m => immediate m = true) ms →
  receive P (with_reads bss r) ms = with_reads bss (receive P r ms).
Proof.
  induction ms as [|m ms IH]; intros bss r Hms; [done|].
  apply Forall_cons in Hms as [Hm Hms].
  change (receive P ?x (m :: ms))
    with (receive P (handleDataChannelMessage P x m) ms).
  by rewrite handle_with_reads, IH.
Qed.

Lemma receive_events_messages ms r :
  receive_events P r (map message_event ms) = receive P r ms.
Proof. revert r. induction ms as [|m ms IH]; intros r; [done|]. apply IH. Qed.

Lemma receive_events_app r evs1 evs2 :
  receive_events P r (evs1 ++ evs2)
  = receive_events P (receive_events P r evs1) evs2.
Proof. apply foldl_app. Qed.

Lemma idle_message r m :
  currentFile r = None → announces m = false →
  handleDataChannelMessage P r m
  = match m with Blob bs => readAsArrayBuffer r bs | _ => r end.
Proof.
  intros Hidle Hm. destruct m as [[md|c|i|]|bs|bs]; try done; cbn.
  - unfold handleFileComplete. by rewrite Hidle.
  - unfold handleChunkWithSequence, addReceivedChunk. rewrite Hidle.
    by destruct (parse_chunk bs).
Qed.

Lemma idle_messages ms : ∀ r,
  currentFile r = None → Forall (fun m => announces m = false) ms →
  receive P r ms = foldl readAsArrayBuffer r (blobs ms).
Proof.
  induction ms as [|m ms IH]; intros r Hidle Hms; [done|].
  apply Forall_cons in Hms as [Hm Hms].
  change (receive P r (m :: ms))
    with (receive P (handleDataChannelMessage P r m) ms).
  rewrite idle_message by done. destruct m as [t|bs|bs]; cbn; by apply IH.
Qed.

Lemma idle_event r ev :
  currentFile r = None → quiet ev = true →
  ∃ bss, deliver P r ev = with_reads bss r.
Proof.
  intros Hidle Hev. destruct ev as [m|k|k]; cbn.
  - apply negb_true_iff in Hev. rewrite idle_message by done.
    destruct m; try (exists (blobReads r); by rewrite with_reads_same).
    by eexists.
  - unfold blob_onload. destruct (blobReads r !! k) as [bs|].
    + rewrite idle_message by done. by eexists.
    + exists (blobReads r). by rewrite with_reads_same.
  - by eexists.
Qed.

Lemma idle_events evs : ∀ r,
  currentFile r = None → Forall (fun ev => quiet ev = true) evs →
  ∃ bss, receive_events P r evs = with_reads bss r.
Proof.
  induction evs as [|ev evs IH]; intros r Hidle Hevs.
  - exists (blobReads r). by rewrite with_reads_same.
  - apply Forall_cons in Hevs as [Hev Hevs].
    destruct (idle_event r ev Hidle Hev) as [bss Hbss].
    change (receive_events P r (ev :: evs))
      with (receive_events P (deliver P r ev) evs).
    rewrite Hbss. destruct (IH (with_reads bss r) Hidle Hevs) as [bss' ->].
    by exists bss'.
Qed.

Lemma complete_idle r c : currentFile (handleFileComplete r c) = None.
Proof.
  unfold handleFileComplete. by destruct (currentFile r) eqn:E.
Qed.

Lemma no_blobs (ms : list Message) :
  Forall (fun m => immediate m = true) ms → blobs ms = [].
Proof.
  induction 1 as [|m ms Hm _ IH]; [done|]. by destruct m.
Qed.

(** X2.  Without a transfer in progress the receiver drops whatever is not
    a [file-metadata]: chunks (with or without header), [file-complete]
    and acknowledgements change nothing and are not answered; for a Blob
    a read is started, and when it ends the chunk is dropped as well.  This
    is the state a [file-complete] leaves, so frames that arrive late,
    after it, are dropped too. *)
Theorem idle_receiver_ignores :
  (∀ r ms, currentFile r = None →
     Forall (fun m => announces m = false) ms →
     receive P r ms = foldl readAsArrayBuffer r (blobs ms))
  ∧ (∀ r ms, currentFile r = None →
       Forall (fun m => announces m = false) ms →
       Forall (fun m => immediate m = true) ms →
       receive P r ms = r)
  ∧ (∀ r ms c late,
       Forall (fun m => announces m = false) late →
       receive P r (ms ++ Text (file_complete c) :: late)
       = foldl readAsArrayBuffer (receive P r (ms ++ [Text (file_complete c)]))
           (blobs late))
  ∧ (∀ r evs, currentFile r = None →
       Forall (fun ev => quiet ev = true) evs →
       ∃ bss, receive_events P r evs = with_reads bss r).
Proof.
  split; [intros r ms; apply idle_messages|].
  split; [intros r ms Hidle Hms Him; by rewrite idle_messages, no_blobs|].
  split; [|intros r evs; apply idle_events].
  intros r ms c late Hlate.
  change (Text (file_complete c) :: late)
    with ([Text (file_complete c)] ++ late).
  rewrite app_assoc, receive_app. apply idle_messages; [|done].
  rewrite receive_app, receive_one. apply complete_idle.
Qed.

(** *** Headerless chunks *)

Lemma filter_all {A} (p : A → bool) (l : list A) :
  (∀ x, x ∈ l → p x = true) → List.filter p l = l.
Proof.
  induction l as [|x l IH]; intros Hp; [done|]. cbn.
  rewrite Hp by left. f_equal. apply IH. intros y Hy. apply Hp. by right.
Qed.




End Reception.



(** *** Chunks with a header, in any order *)

(** The frame [sendFileChunks] builds for chunk [i] of [f]. *)
Definition frame_of (f : File) (i : N) : Message :=
  Binary (chunk_frame i (totalChunks f) (chunk f i)).

(** The state of a receiver that was announced [f] in state [r0] and has
    since been handed the frames of the chunks [l], in that order. *)
Record got (f : File) (cf : CurrentFile) (r0 : Receiver) (l : list N)
    (r : Receiver) : Prop := {
  got_current : currentFile r = Some cf;
  got_map : ∀ i, chunkMap r !! i
                 = if bool_decide (i ∈ l) then Some (chunk f i) else None;
  got_indices : ∀ i, i ∈ receivedChunkIndices r ↔ i ∈ l;
  got_legacy : receivedChunks r = [];
  got_expected : expectedChunkCount r = ceil_chunks (cf_size cf);
  got_bytes : bytesTransferred r = stored_bytes r (totalChunks f);
  got_files : receivedFiles r = receivedFiles r0;
  got_errors : onError_calls r = onError_calls r0;
  got_open : dc_open (dataChannel r) = dc_open (dataChannel r0);
  got_acks : dc_sent (dataChannel r)
             = dc_sent (dataChannel r0)
               ++ (if dc_open (dataChannel r0)
                   then map (fun i => Text (chunk_ack i)) l else [])
}.

Lemma stored_insert (m : gmap N (list byte)) (i : N) (d : list byte) (l : list N) :
  NoDup l → m !! i = None →
  foldr (fun j sum => from_option byteLength 0 (<[i := d]> m !! j) + sum) 0 l
  = foldr (fun j sum => from_option byteLength 0 (m !! j) + sum) 0 l
    + (if bool_decide (i ∈ l) then byteLength d else 0).
Proof.
  intros Hnd Hi. induction Hnd as [|j l Hj Hnd IH]; [done|].
  cbn [foldr]. rewrite IH. destruct (decide (i = j)) as [->|Hne].
  - rewrite lookup_insert_eq, Hi. cbn.
    rewrite (bool_decide_eq_false_2 (j ∈ l)) by done.
    rewrite bool_decide_eq_true_2 by left. lia.
  - rewrite lookup_insert_ne by done.
    assert (Hij : i ∈ j :: l ↔ i ∈ l).
    { rewrite elem_of_cons. split; [intros [?|?]; [congruence|done]|by right]. }
    rewrite (bool_decide_ext _ _ Hij). lia.
Qed.

Lemma parse_frame_of (f : File) (i : N) :
  i < U32 → totalChunks f < U32 →
  parse_chunk (chunk_frame i (totalChunks f) (chunk f i))
  = Some {| index := i; cd_totalChunks := totalChunks f; data := chunk f i |}.
Proof.
  intros Hi Hn. rewrite parse_chunk_frame. rewrite !N.mod_small; try done.
  - rewrite take_ge; [done|]. unfold byteLength. lia.
  - pose proof (chunk_length_le f i). unfold U32.
    change CHUNK_SIZE with 65536 in *. lia.
Qed.

Section Indexed.
Context (P : Platform).

Lemma got_metadata (f : File) r0 :
  got f (announced f) r0 [] (handleDataChannelMessage P r0 (metadata_frame f)).
Proof.
  cbn. constructor; cbn; try done.
  - set_solver.
  - unfold stored_bytes. cbn [handleFileMetadata chunkMap].
    induction (upto (totalChunks f)) as [|j l IH]; [done|].
    cbn [foldr]. by rewrite lookup_empty, <- IH.
  - by destruct (dc_open _); rewrite ?app_nil_r.
Qed.

Lemma got_frame (f : File) cf r0 l r i :
  got f cf r0 l r → i < totalChunks f → totalChunks f < U32 →
  got f cf r0 (l ++ [i]) (handleDataChannelMessage P r (frame_of f i)).
Proof.
  intros H Hi Hn. unfold frame_of. cbn [handleDataChannelMessage].
  rewrite parse_frame_of by lia.
  unfold handleChunkWithSequence. rewrite (got_current _ _ _ _ _ H).
  cbn [index cd_totalChunks data].
  destruct (N.leb_spec (totalChunks f) i) as [?|_]; [lia|].
  assert (Hsent : ∀ r1, dataChannel r1 = dataChannel r →
            dc_open (dataChannel (sendChunkAck P r1 i)) = dc_open (dataChannel r0)
            ∧ dc_sent (dataChannel (sendChunkAck P r1 i))
              = dc_sent (dataChannel r0)
                ++ (if dc_open (dataChannel r0)
                    then map (fun i => Text (chunk_ack i)) (l ++ [i]) else [])).
  { intros r1 Hr1. unfold sendChunkAck. rewrite Hr1.
    rewrite (got_open _ _ _ _ _ H).
    destruct (dc_open (dataChannel r0)) eqn:Hop; cbn.
    - rewrite (got_open _ _ _ _ _ H), (got_acks _ _ _ _ _ H), Hop.
      by rewrite map_app, app_assoc.
    - rewrite Hr1, (got_open _ _ _ _ _ H), (got_acks _ _ _ _ _ H), Hop. done. }
  case_bool_decide as Hin.
  - destruct (Hsent r eq_refl) as [Hop Hacks].
    destruct (sendChunkAck_fields P r i)
      as (E1 & E2 & E3 & E4 & E5 & E6 & E7 & E8).
    apply (got_indices _ _ _ _ _ H) in Hin.
    assert (Hsame : ∀ j, j ∈ l ++ [i] ↔ j ∈ l).
    { intros j. rewrite elem_of_app, list_elem_of_singleton.
      split; [intros [? | ->]; done|by left]. }
    destruct H. constructor; try congruence.
    + intros j. rewrite E3, got_map0.
      apply (f_equal (fun b : bool => if b then Some (chunk f j) else None)).
      apply bool_decide_ext. by rewrite Hsame.
    + intros j. by rewrite E4, got_indices0, Hsame.
    + rewrite E6. unfold stored_bytes. by rewrite E3.
  - match goal with |- got _ _ _ _ (sendChunkAck _ ?x _) => set (r1 := x) end.
    destruct (Hsent r1 eq_refl) as [Hop Hacks].
    destruct (sendChunkAck_fields P r1 i)
      as (E1 & E2 & E3 & E4 & E5 & E6 & E7 & E8).
    assert (Hnew : i ∉ l) by (by rewrite <- (got_indices _ _ _ _ _ H)).
    destruct H. constructor; try (cbn in *; congruence).
    + intros j. rewrite E3. cbn. destruct (decide (j = i)) as [->|Hne].
      * rewrite lookup_insert_eq. rewrite bool_decide_eq_true_2; [done|].
        rewrite elem_of_app, list_elem_of_singleton. by right.
      * rewrite lookup_insert_ne by done. rewrite got_map0.
        apply (f_equal (fun b : bool => if b then Some (chunk f j) else None)).
        apply bool_decide_ext.
        rewrite elem_of_app, list_elem_of_singleton. tauto.
    + intros j. rewrite E4. cbn.
      rewrite elem_of_union, elem_of_singleton, got_indices0.
      rewrite elem_of_app, list_elem_of_singleton. tauto.
    + rewrite E6. unfold stored_bytes. rewrite E3. cbn.
      rewrite stored_insert.
      * rewrite bool_decide_eq_true_2 by (by apply elem_of_upto).
        rewrite got_bytes0. reflexivity.
      * apply NoDup_upto.
      * rewrite got_map0. by rewrite bool_decide_eq_false_2.
Qed.

Lemma got_frames (f : File) cf r0 l2 : ∀ l1 r,
  got f cf r0 l1 r → Forall (fun i => i < totalChunks f) l2 →
  totalChunks f < U32 →
  got f cf r0 (l1 ++ l2) (receive P r (map (frame_of f) l2)).
Proof.
  induction l2 as [|i l2 IH]; intros l1 r H Hl Hn.
  - by rewrite app_nil_r.
  - apply Forall_cons in Hl as [Hi Hl].
    change (receive P r (map (frame_of f) (i :: l2)))
      with (receive P (handleDataChannelMessage P r (frame_of f i))
              (map (frame_of f) l2)).
    replace (l1 ++ i :: l2) with ((l1 ++ [i]) ++ l2) by (by rewrite <- app_assoc).
    apply IH; [|done..]. by apply got_frame.
Qed.

End Indexed.

(** *** What [file-complete] makes of the chunks received *)

(** The indices below [n] that are not among [l]. *)
Definition missing_of (l : list N) (n : N) : list N :=
  List.filter (fun i => negb (bool_decide (i ∈ l))) (upto n).

(** The received chunks in their places, zeros where none was received. *)
Definition patched (f : File) (l : list N) : list byte :=
  concat (map (fun i => if bool_decide (i ∈ l) then chunk f i
                        else zeros (byteLength (chunk f i)))
              (upto (totalChunks f))).

Lemma placeholder_is_chunk_size (f : File) (i : N) :
  i < totalChunks f →
  placeholderSize (announced f) (totalChunks f) i = byteLength (chunk f i).
Proof.
  intros Hi. unfold placeholderSize. cbn [announced cf_size].
  pose proof (ceil_chunks_bounds (file_size f)) as Hb. fold (totalChunks f) in Hb.
  pose proof (N.div_mod (file_size f) CHUNK_SIZE ltac:(done)) as Hdm.
  pose proof (N.mod_upper_bound (file_size f) CHUNK_SIZE ltac:(done)) as Hm.
  destruct (N.eqb_spec i (totalChunks f - 1)) as [->|Hne].
  - rewrite chunk_length_last.
    + destruct (N.eqb_spec (file_size f mod CHUNK_SIZE) 0) as [Hz|Hz];
        generalize dependent (file_size f mod CHUNK_SIZE);
        generalize dependent (file_size f / CHUNK_SIZE);
        generalize dependent (totalChunks f);
        generalize dependent (file_size f);
        change CHUNK_SIZE with 65536; intros; nia.
    + generalize dependent (totalChunks f). generalize dependent (file_size f).
      change CHUNK_SIZE with 65536. intros; nia.
  - rewrite chunk_length_full; [done|].
    generalize dependent (totalChunks f). generalize dependent (file_size f).
    change CHUNK_SIZE with 65536. intros; nia.
Qed.

Lemma size_lt_missing (m : gmap N (list byte)) (l : list N) (n : N) :
  (∀ i, is_Some (m !! i) ↔ i ∈ l) → Forall (fun i => i < n) l →
  (N.of_nat (size m) <? n) = negb (bool_decide (missing_of l n = [])).
Proof.
  intros Hm Hl. rewrite <- size_dom.
  assert (Hsub : dom m ⊆ (list_to_set (upto n) : gset N)).
  { intros i Hi. apply elem_of_dom, Hm in Hi. apply elem_of_list_to_set.
    apply elem_of_upto. by apply (proj1 (Forall_forall _ _) Hl). }
  assert (Hn : size (list_to_set (upto n) : gset N) = N.to_nat n).
  { rewrite size_list_to_set by apply NoDup_upto. apply length_upto. }
  case_bool_decide as Hmiss; cbn [negb].
  - apply N.ltb_ge.
    assert (Heq : dom m ≡ (list_to_set (upto n) : gset N)).
    { apply set_equiv_subseteq. split; [done|]. intros i Hi.
      apply elem_of_list_to_set in Hi. apply elem_of_dom, Hm.
      destruct (decide (i ∈ l)) as [|Hnot]; [done|]. exfalso.
      assert (Hf : i ∈ missing_of l n).
      { apply list_elem_of_In, filter_In. split; [by apply list_elem_of_In|].
        by rewrite bool_decide_eq_false_2. }
      rewrite Hmiss in Hf. by apply not_elem_of_nil in Hf. }
    rewrite Heq, Hn. lia.
  - apply N.ltb_lt.
    destruct (missing_of l n) as [|j rest] eqn:E; [done|].
    assert (Hj : j ∈ missing_of l n) by (rewrite E; left).
    apply list_elem_of_In, filter_In in Hj as [Hj1 Hj2].
    apply list_elem_of_In in Hj1. apply negb_true_iff, bool_decide_eq_false in Hj2.
    assert (Hlt : (size (dom m) < size (list_to_set (upto n) : gset N))%nat).
    { apply subset_size. split; [done|]. intros Hsup.
      apply Hj2, Hm, elem_of_dom, Hsup. by apply elem_of_list_to_set. }
    rewrite Hn in Hlt. lia.
Qed.

Lemma got_complete (f : File) cf r0 l r c :
  got f cf r0 l r → l ≠ [] → Forall (fun i => i < totalChunks f) l →
  fc_totalChunks c = Some (totalChunks f) →
  let r' := handleFileComplete r c in
  receivedFiles r'
  = receivedFiles r0
    ++ [{| rf_file := cf;
           rf_blob :=
             concat (map (fun i => if bool_decide (i ∈ l) then chunk f i
                                   else zeros (placeholderSize cf (totalChunks f) i))
                         (upto (totalChunks f))) |}]
  ∧ onError_calls r'
    = onError_calls r0
      ++ match missing_of l (totalChunks f) with
         | [] => []
         | missing => [transfer_incomplete missing]
         end
  ∧ currentFile r' = None
  ∧ bytesTransferred r' = bytesTransferred r
  ∧ dataChannel r' = dataChannel r.
Proof.
  intros H Hne Hl Hc r'. subst r'. unfold handleFileComplete.
  rewrite (got_current _ _ _ _ _ H).
  cbn [receivedFiles onError_calls currentFile bytesTransferred dataChannel].
  assert (Hn : totalChunks f ≠ 0).
  { destruct l as [|i l']; [done|]. apply Forall_cons in Hl as [Hi _]. lia. }
  assert (Hexp : expectedChunks r c = totalChunks f).
  { unfold expectedChunks. rewrite Hc. by destruct (N.eqb_spec (totalChunks f) 0). }
  assert (Hpos : (0 <? size (chunkMap r))%nat = true).
  { apply Nat.ltb_lt. destruct l as [|i l']; [done|].
    destruct (size (chunkMap r)) eqn:Hs; [|lia].
    apply map_size_empty_iff in Hs.
    pose proof (got_map _ _ _ _ _ H i) as Hi.
    rewrite Hs, lookup_empty, bool_decide_eq_true_2 in Hi by left. done. }
  assert (Hsome : ∀ i, is_Some (chunkMap r !! i) ↔ i ∈ l).
  { intros i. rewrite (got_map _ _ _ _ _ H i).
    case_bool_decide; split; try done; by intros [? ?]. }
  rewrite Hexp, (got_files _ _ _ _ _ H), (got_errors _ _ _ _ _ H).
  repeat split.
  - do 3 f_equal. unfold chunksToReassemble. rewrite Hpos. f_equal.
    apply map_ext. intros i. rewrite (got_map _ _ _ _ _ H i).
    by case_bool_decide.
  - f_equal. unfold receivedChunkCount. rewrite Hpos.
    rewrite (size_lt_missing _ l) by done.
    assert (Hmiss : missingChunks r (totalChunks f) = missing_of l (totalChunks f)).
    { unfold missingChunks, missing_of. apply filter_ext. intros i.
      rewrite (bool_decide_ext _ _ (got_indices _ _ _ _ _ H i)).
      rewrite (bool_decide_ext _ _ (Hsome i)). by destruct (bool_decide _). }
    rewrite Hmiss. by destruct (missing_of l (totalChunks f)).
Qed.

Lemma patched_length (f : File) (l : list N) :
  byteLength (patched f l) = file_size f.
Proof.
  unfold patched, file_size. rewrite <- (concat_all_chunks f).
  unfold byteLength. f_equal.
  induction (upto (totalChunks f)) as [|i us IH]; [done|].
  cbn [map concat]. rewrite !length_app, IH. f_equal.
  case_bool_decide; [done|]. unfold zeros, byteLength.
  rewrite repeat_length. lia.
Qed.

Lemma patched_all (f : File) (l : list N) :
  (∀ i, i < totalChunks f → i ∈ l) → patched f l = content f.
Proof.
  intros Hall. rewrite <- (concat_all_chunks f). unfold patched. f_equal.
  apply map_ext_in. intros i Hi%list_elem_of_In%elem_of_upto.
  by rewrite bool_decide_eq_true_2 by auto.
Qed.

Lemma missing_all (l : list N) (n : N) :
  (∀ i, i < n → i ∈ l) → missing_of l n = [].
Proof.
  intros Hall. destruct (missing_of l n) as [|j rest] eqn:E; [done|].
  assert (Hj : j ∈ missing_of l n) by (rewrite E; left).
  apply list_elem_of_In, filter_In in Hj as [Hj1 Hj2].
  apply list_elem_of_In, elem_of_upto in Hj1.
  apply negb_true_iff, bool_decide_eq_false in Hj2. destruct Hj2. auto.
Qed.

Lemma missing_some (l : list N) (n j : N) :
  j < n → j ∉ l → missing_of l n ≠ [].
Proof.
  intros Hj Hnot E.
  assert (Hin : j ∈ missing_of l n).
  { apply list_elem_of_In, filter_In. split.
    - by apply list_elem_of_In, elem_of_upto.
    - by rewrite bool_decide_eq_false_2. }
  rewrite E in Hin. by apply not_elem_of_nil in Hin.
Qed.

Section Completion.
Context (P : Platform).

(** The receiver after the metadata of [f] and the frames of the chunks
    [l], all of them chunks of [f]. *)
Lemma got_received (f : File) r0 l :
  totalChunks f < U32 → Forall (fun i => i < totalChunks f) l →
  got f (announced f) r0 l
    (receive P r0 (metadata_frame f :: map (frame_of f) l)).
Proof.
  intros Hn Hl.
  change (receive P r0 (metadata_frame f :: map (frame_of f) l))
    with (receive P (handleDataChannelMessage P r0 (metadata_frame f))
            (map (frame_of f) l)).
  apply (got_frames P f (announced f) r0 l []); [apply got_metadata|done..].
Qed.

Lemma received_then_complete (f : File) r0 l cs :
  totalChunks f < U32 → Forall (fun i => i < totalChunks f) l → l ≠ [] →
  let r := receive P r0 (metadata_frame f :: map (frame_of f) l
                         ++ [complete_frame f cs]) in
  receivedFiles r
  = receivedFiles r0 ++ [{| rf_file := announced f; rf_blob := patched f l |}]
  ∧ onError_calls r
    = onError_calls r0
      ++ match missing_of l (totalChunks f) with
         | [] => []
         | missing => [transfer_incomplete missing]
         end
  ∧ currentFile r = None
  ∧ bytesTransferred r
    = stored_bytes (receive P r0 (metadata_frame f :: map (frame_of f) l))
        (totalChunks f).
Proof.
  intros Hn Hl Hne r. subst r.
  pose proof (got_received f r0 l Hn Hl) as H.
  rewrite app_comm_cons, receive_app, receive_one.
  destruct (got_complete f _ r0 l _
              {| fc_fileName := file_name f;
                 fc_totalChunks := Some (totalChunks f);
                 fc_checksum := cs |} H Hne Hl eq_refl)
    as (Hfiles & Herrs & Hcur & Hbytes & _).
  change (handleDataChannelMessage P ?r (complete_frame f cs))
    with (handleFileComplete r {| fc_fileName := file_name f;
                                  fc_totalChunks := Some (totalChunks f);
                                  fc_checksum := cs |}).
  rewrite Hfiles, Herrs, Hcur, Hbytes, (got_bytes _ _ _ _ _ H).
  repeat split. do 3 f_equal. unfold patched. f_equal.
  apply map_ext_in. intros i Hi%list_elem_of_In%elem_of_upto.
  by rewrite placeholder_is_chunk_size.
Qed.

(** An empty file: its one frame, however often it arrives, is dropped,
    and [file-complete] delivers the empty blob. *)
Lemma empty_then_complete (f : File) r0 l cs :
  totalChunks f = 0 →
  let r := receive P r0 (metadata_frame f :: map (frame_of f) l
                         ++ [complete_frame f cs]) in
  receivedFiles r = receivedFiles r0 ++ [delivered f]
  ∧ onError_calls r = onError_calls r0
  ∧ currentFile r = None
  ∧ bytesTransferred r = file_size f.
Proof.
  intros Hz r. subst r.
  assert (Hdrop : ∀ r, receive P r (map (frame_of f) l) = r).
  { induction l as [|i l IH]; intros r; [done|].
    change (receive P r (map (frame_of f) (i :: l)))
      with (receive P (handleDataChannelMessage P r (frame_of f i))
              (map (frame_of f) l)).
    unfold frame_of at 1. rewrite zero_total_dropped by (by rewrite Hz).
    apply IH. }
  change (metadata_frame f :: map (frame_of f) l ++ [complete_frame f cs])
    with ([metadata_frame f] ++ map (frame_of f) l ++ [complete_frame f cs]).
  rewrite !receive_app, Hdrop, !receive_one.
  cbn [metadata_frame complete_frame handleDataChannelMessage].
  unfold handleFileComplete, handleFileMetadata, chunksToReassemble,
    receivedChunkCount, expectedChunks.
  cbn [currentFile receivedChunks chunkMap receivedChunkIndices
       expectedChunkCount bytesTransferred receivedFiles onError_calls
       dataChannel fc_totalChunks md_size].
  rewrite map_size_empty, Hz. cbn [Nat.ltb Nat.leb N.eqb concat length].
  fold (totalChunks f). rewrite Hz. cbn [N.ltb N.compare N.of_nat].
  rewrite app_nil_r, (totalChunks_0 f Hz).
  unfold delivered, announced. rewrite (size_0_content f (totalChunks_0 f Hz)).
  rewrite (totalChunks_0 f Hz). done.
Qed.

(** The frames of [f] in any order, each at least once. *)
Lemma reordered_then_complete (f : File) r0 l cs :
  totalChunks f < U32 →
  Forall (fun i => i < frame_count f) l →
  (∀ i, i < totalChunks f → i ∈ l) →
  let r := receive P r0 (metadata_frame f :: map (frame_of f) l
                         ++ [complete_frame f cs]) in
  receivedFiles r = receivedFiles r0 ++ [delivered f]
  ∧ onError_calls r = onError_calls r0
  ∧ currentFile r = None
  ∧ bytesTransferred r = file_size f.
Proof.
  intros Hn Hl Hall. destruct (N.eq_dec (totalChunks f) 0) as [Hz|Hnz].
  { by apply empty_then_complete. }
  rewrite frame_count_pos in Hl by done.
  assert (Hne : l ≠ []).
  { intros ->. specialize (Hall 0 ltac:(lia)). by apply not_elem_of_nil in Hall. }
  destruct (received_then_complete f r0 l cs Hn Hl Hne)
    as (Hfiles & Herrs & Hcur & Hbytes).
  intros r. subst r. rewrite Hfiles, Herrs, Hcur, Hbytes.
  rewrite (missing_all l _ Hall), app_nil_r, (patched_all f l Hall).
  repeat split. unfold stored_bytes.
  rewrite (stored_bytes_concat _ (chunk f)).
  - by rewrite concat_all_chunks.
  - intros i Hi%elem_of_upto.
    rewrite (got_map _ _ _ _ _ (got_received f r0 l Hn Hl) i).
    by rewrite bool_decide_eq_true_2 by auto.
Qed.

Lemma wire_frames (f : File) :
  wire P f = metadata_frame f :: map (frame_of f) (upto (frame_count f))
             ++ [complete_frame f (final_checksum P f)].
Proof. reflexivity. Qed.

Lemma wire_received (f : File) r0 :
  totalChunks f < U32 →
  receivedFiles (receive P r0 (wire P f)) = receivedFiles r0 ++ [delivered f]
  ∧ onError_calls (receive P r0 (wire P f)) = onError_calls r0
  ∧ currentFile (receive P r0 (wire P f)) = None
  ∧ bytesTransferred (receive P r0 (wire P f)) = file_size f.
Proof.
  intros Hn. rewrite wire_frames.
  apply reordered_then_complete; [done|..].
  - apply Forall_forall. intros i. apply elem_of_upto.
  - intros i Hi. apply elem_of_upto. unfold frame_count. lia.
Qed.

Lemma wires_received (fs : list File) : ∀ r0,
  Forall (fun f => totalChunks f < U32) fs →
  receivedFiles (receive P r0 (concat (map (wire P) fs)))
  = receivedFiles r0 ++ map delivered fs
  ∧ onError_calls (receive P r0 (concat (map (wire P) fs))) = onError_calls r0
  ∧ (fs ≠ [] → currentFile (receive P r0 (concat (map (wire P) fs))) = None).
Proof.
  induction fs as [|f fs IH]; intros r0 Hfs.
  - cbn. by rewrite app_nil_r.
  - apply Forall_cons in Hfs as [Hf Hfs]. cbn [map concat].
    rewrite receive_app.
    destruct (wire_received f r0 Hf) as (Hfiles & Herrs & Hcur & _).
    destruct (IH (receive P r0 (wire P f)) Hfs) as (IH1 & IH2 & IH3).
    rewrite IH1, IH2, Hfiles, Herrs, <- app_assoc. repeat split.
    intros _. destruct fs as [|f' fs']; [done|]. by apply IH3.
Qed.



(** *** Chunks handed over as Blobs *)

Lemma binary_immediate (bss : list (list byte)) :
  Forall (fun m => immediate m = true) (map Binary bss).
Proof. induction bss; by constructor. Qed.

Lemma receive_keeps_reads ms r :
  Forall (fun m => immediate m = true) ms →
  blobReads (receive P r ms) = blobReads r.
Proof.
  intros Hms. rewrite <- (with_reads_same r) at 1.
  by rewrite receive_with_reads.
Qed.

(** With Blobs the handler sees the chunks in the order in which the reads
    end. *)
Lemma handled_events (steps : list HandOver) : ∀ frames r,
  receive_events P r (hand_over frames steps)
  = with_reads (in_flight (blobReads r) frames steps)
      (receive P r (map Binary (handled (blobReads r) frames steps))).
Proof.
  induction steps as [|[|k] steps IH]; intros frames r.
  - cbn. by rewrite with_reads_same.
  - destruct frames as [|bs frames]; cbn [hand_over handled in_flight];
      [apply IH|].
    change (receive_events P r (?e :: ?es))
      with (receive_events P (deliver P r e) es).
    cbn [deliver handleDataChannelMessage].
    rewrite readAsArrayBuffer_reads, IH. cbn [blobReads with_reads].
    by rewrite receive_with_reads by apply binary_immediate.
  - cbn [hand_over handled in_flight].
    change (receive_events P r (?e :: ?es))
      with (receive_events P (deliver P r e) es).
    cbn [deliver]. unfold blob_onload.
    destruct (blobReads r !! k) as [bs|] eqn:E.
    + rewrite endRead_reads, handle_with_reads, IH by done.
      cbn [blobReads with_reads map].
      by rewrite receive_with_reads by apply binary_immediate.
    + by rewrite IH, delete_beyond.
Qed.

Lemma blobs_pending (bss : list (list byte)) : ∀ r,
  receive_events P r (map (fun bs => message_event (Blob bs)) bss)
  = with_reads (blobReads r ++ bss) r.
Proof.
  induction bss as [|bs bss IH]; intros r.
  - cbn. by rewrite app_nil_r, with_reads_same.
  - cbn [map].
    change (receive_events P r (?e :: ?es))
      with (receive_events P (deliver P r e) es).
    cbn [deliver handleDataChannelMessage].
    rewrite readAsArrayBuffer_reads, IH. cbn [blobReads with_reads].
    by rewrite <- app_assoc.
Qed.

Lemma wire_immediate (f : File) :
  Forall (fun m => immediate m = true) (wire P f).
Proof.
  rewrite wire_frames. apply Forall_cons; split; [done|].
  apply Forall_app; split; [|by repeat constructor].
  apply Forall_forall. by intros m (i & -> & _)%list_elem_of_fmap.
Qed.

Lemma arrivals_buffers (f : File) :
  arrivals P f as_buffers = map message_event (wire P f).
Proof. unfold arrivals, wire. cbn [chunks_arrive]. by rewrite map_app. Qed.

Lemma arrived_app evs1 evs2 : arrived (evs1 ++ evs2) = arrived evs1 ++ arrived evs2.
Proof. apply omap_app. Qed.

Lemma arrived_cons ev evs : arrived (ev :: evs) = arrived [ev] ++ arrived evs.
Proof. apply (arrived_app [ev]). Qed.

Lemma arrived_messages (ms : list Message) :
  Forall (fun m => immediate m = true) ms →
  arrived (map message_event ms) = ms.
Proof.
  induction 1 as [|m ms Hm _ IH]; [done|].
  cbn [map]. rewrite arrived_cons.
  rewrite IH. by destruct m.
Qed.

Lemma arrived_blobs (bss : list (list byte)) :
  arrived (map (fun bs => message_event (Blob bs)) bss) = map Binary bss.
Proof.
  induction bss as [|bs bss IH]; [done|]. cbn [map].
  rewrite arrived_cons.
  by rewrite IH.
Qed.

Lemma arrived_hand_over (steps : list HandOver) : ∀ frames pending,
  timely (length frames) pending steps = true →
  arrived (hand_over frames steps) = map Binary frames.
Proof.
  induction steps as [|[|k] steps IH]; intros frames pending H; cbn in H.
  - apply andb_true_iff in H as [H%Nat.eqb_eq _].
    by apply nil_length_inv in H as ->.
  - destruct frames as [|bs frames]; [discriminate H|]. cbn in H.
    cbn [hand_over map].
    rewrite arrived_cons.
    by rewrite (IH _ _ H).
  - apply andb_true_iff in H as [_ H]. cbn [hand_over].
    rewrite arrived_cons.
    by rewrite (IH _ _ H).
Qed.

Lemma payloads_frames (f : File) :
  map Binary (payloads f) = map (frame_of f) (upto (frame_count f)).
Proof. unfold payloads. by rewrite map_map. Qed.

(** Whichever way the frames are handed over, they are the frames of [f],
    in the sender's order. *)
Lemma arrived_arrivals (f : File) (h : Arrival) :
  in_time f h = true → arrived (arrivals P f h) = wire P f.
Proof.
  intros Hh. destruct h as [|steps]; [rewrite arrivals_buffers|];
    unfold arrivals; cbn [chunks_arrive in_time app] in *.
  - apply arrived_messages, wire_immediate.
  - rewrite arrived_cons.
    by rewrite arrived_app, (arrived_hand_over _ _ _ Hh), payloads_frames.
Qed.

Lemma arrived_late (f : File) : arrived (late P f) = wire P f.
Proof.
  assert (arrived (map (fun _ => blob_loaded 0) (payloads f)) = []) as Hloads.
  { induction (payloads f) as [|bs bss IH]; [done|]. exact IH. }
  unfold late. rewrite arrived_cons, arrived_app, arrived_blobs.
  rewrite (arrived_cons (message_event (complete_frame _ _))), Hloads.
  by rewrite payloads_frames, app_nil_r.
Qed.

Lemma arrived_files (fhs : list (File * Arrival)) :
  Forall (fun fh => in_time fh.1 fh.2 = true) fhs →
  arrived (concat (map (fun fh => arrivals P fh.1 fh.2) fhs))
  = concat (map (fun fh => wire P fh.1) fhs).
Proof.
  induction 1 as [|[f h] fhs Hh _ IH]; [done|]. cbn [map concat fst snd] in *.
  by rewrite arrived_app, IH, arrived_arrivals.
Qed.

(** One file, its chunks handled before its [file-complete]. *)
Lemma arrivals_received (f : File) (h : Arrival) r0 :
  totalChunks f < U32 → in_time f h = true → blobReads r0 = [] →
  let r := receive_events P r0 (arrivals P f h) in
  receivedFiles r = receivedFiles r0 ++ [delivered f]
  ∧ onError_calls r = onError_calls r0
  ∧ currentFile r = None
  ∧ bytesTransferred r = file_size f
  ∧ blobReads r = [].
Proof.
  intros Hn Hh Hr0. destruct h as [|steps]; [rewrite arrivals_buffers|];
    unfold arrivals; cbn [chunks_arrive in_time app] in *.
  - rewrite receive_events_messages.
    destruct (wire_received f r0 Hn) as (H1 & H2 & H3 & H4).
    cbv zeta. rewrite H1, H2, H3, H4, receive_keeps_reads by apply wire_immediate.
    done.
  - set (l := handled [] (upto (frame_count f)) steps).
    destruct (timely_handled steps [] (upto (frame_count f))) as [Hfl Hl].
    { unfold payloads in Hh. by rewrite length_map in Hh. }
    assert (receive_events P r0
              (message_event (metadata_frame f)
               :: hand_over (payloads f) steps
               ++ [message_event (complete_frame f (final_checksum P f))])
            = with_reads []
                (receive P r0 (metadata_frame f :: map (frame_of f) l
                               ++ [complete_frame f (final_checksum P f)])))
      as ->.
    { change (receive_events P r0 (?e :: ?es))
        with (receive_events P (deliver P r0 e) es).
      rewrite receive_events_app, handled_events.
      change (receive P r0 (?m :: ?ms))
        with (receive P (handleDataChannelMessage P r0 m) ms).
      rewrite receive_app, receive_one.
      cbn [deliver metadata_frame handleDataChannelMessage].
      set (r1 := handleFileMetadata r0 _).
      assert (blobReads r1 = []) as -> by done.
      rewrite (proj1 (timely_handled steps [] (payloads f) Hh)).
      unfold payloads.
      change (@nil (list byte)) with (payload f <$> @nil N).
      change (map (payload f) ?x) with (payload f <$> x).
      rewrite handled_fmap. fold l. change (payload f <$> l) with (map (payload f) l).
      rewrite map_map.
      change (receive_events P ?x [message_event ?m])
        with (handleDataChannelMessage P x m).
      by rewrite handle_with_reads. }
    cbv zeta. cbn [with_reads receivedFiles onError_calls currentFile
                   bytesTransferred blobReads].
    destruct (reordered_then_complete f r0 l (final_checksum P f) Hn)
      as (H1 & H2 & H3 & H4).
    + apply Forall_forall. intros i Hi%Hl.
      destruct Hi as [Hi|Hi]; [by apply elem_of_nil in Hi|].
      by apply elem_of_upto.
    + intros i Hi. apply Hl. right. apply elem_of_upto. unfold frame_count. lia.
    + done.
Qed.

(** Just before [file-complete] the stored chunks add up to the announced
    size. *)
Lemma stored_before_complete (f : File) r0 l :
  totalChunks f < U32 →
  Forall (fun i => i < frame_count f) l →
  (∀ i, i < totalChunks f → i ∈ l) →
  stored_bytes (receive P r0 (metadata_frame f :: map (frame_of f) l))
    (totalChunks f)
  = file_size f.
Proof.
  intros Hn Hl Hall. destruct (N.eq_dec (totalChunks f) 0) as [Hz|Hnz].
  { rewrite Hz, (totalChunks_0 f Hz). reflexivity. }
  rewrite frame_count_pos in Hl by done.
  unfold stored_bytes. rewrite (stored_bytes_concat _ (chunk f)).
  - by rewrite concat_all_chunks.
  - intros i Hi%elem_of_upto.
    rewrite (got_map _ _ _ _ _ (got_received f r0 l Hn Hl) i).
    by rewrite bool_decide_eq_true_2 by auto.
Qed.

Lemma chunks_arrive_stored (f : File) (h : Arrival) r0 :
  totalChunks f < U32 → in_time f h = true → blobReads r0 = [] →
  stored_bytes (receive_events P r0 (chunks_arrive f h)) (totalChunks f)
  = file_size f.
Proof.
  intros Hn Hh Hr0. destruct h as [|steps]; cbn [chunks_arrive in_time] in *.
  - rewrite receive_events_messages. unfold frames_of.
    change (chunk_frames f (frame_count f))
      with (map (frame_of f) (upto (frame_count f))).
    apply stored_before_complete; [done|..].
    + apply Forall_forall. intros i. apply elem_of_upto.
    + intros i Hi. apply elem_of_upto. unfold frame_count. lia.
  - destruct (timely_handled steps [] (upto (frame_count f))) as [_ Hl].
    { unfold payloads in Hh. by rewrite length_map in Hh. }
    change (receive_events P r0 (?e :: ?es))
      with (receive_events P (deliver P r0 e) es).
    rewrite handled_events.
    cbn [deliver metadata_frame handleDataChannelMessage].
    set (r1 := handleFileMetadata r0 _).
    assert (blobReads r1 = []) as -> by done.
    unfold payloads.
    change (@nil (list byte)) with (payload f <$> @nil N).
    change (map (payload f) ?x) with (payload f <$> x).
    rewrite handled_fmap.
    change (payload f <$> ?x) with (map (payload f) x). rewrite map_map.
    change (stored_bytes (with_reads ?b ?r) ?n) with (stored_bytes r n).
    apply (stored_before_complete f r0); [done|..].
    + apply Forall_forall. intros i Hi%Hl.
      destruct Hi as [Hi|Hi]; [by apply elem_of_nil in Hi|].
      by apply elem_of_upto.
    + intros i Hi. apply Hl. right. apply elem_of_upto. unfold frame_count. lia.
Qed.

Lemma files_arrive (fs : list (File * Arrival)) : ∀ r0,
  Forall (fun fh => totalChunks fh.1 < U32 ∧ in_time fh.1 fh.2 = true) fs →
  blobReads r0 = [] →
  let r := receive_events P r0
             (concat (map (fun fh => arrivals P fh.1 fh.2) fs)) in
  receivedFiles r = receivedFiles r0 ++ map (fun fh => delivered fh.1) fs
  ∧ onError_calls r = onError_calls r0
  ∧ blobReads r = []
  ∧ (fs ≠ [] → currentFile r = None).
Proof.
  induction fs as [|[f h] fs IH]; intros r0 Hfs Hr0.
  - cbn. by rewrite app_nil_r.
  - apply Forall_cons in Hfs as [[Hf Hh] Hfs]. cbn [map concat fst snd] in *.
    rewrite receive_events_app.
    destruct (arrivals_received f h r0 Hf Hh Hr0) as (H1 & H2 & H3 & _ & H5).
    destruct (IH (receive_events P r0 (arrivals P f h)) Hfs H5)
      as (IH1 & IH2 & IH3 & IH4).
    cbv zeta. rewrite IH1, IH2, IH3, H1, H2, <- app_assoc.
    repeat split. intros _. destruct fs as [|fh fs']; [done|]. by apply IH4.
Qed.

(** When [file-complete] is handled before any read has ended, the file is
    closed without a chunk, and the chunks are dropped when the reads end. *)
Lemma late_reads_lose (f : File) r0 :
  totalChunks f ≠ 0 → blobReads r0 = [] →
  let r := receive_events P r0 (late P f) in
  receivedFiles r
  = receivedFiles r0 ++ [{| rf_file := announced f; rf_blob := [] |}]
  ∧ onError_calls r
    = onError_calls r0 ++ [transfer_incomplete (upto (totalChunks f))]
  ∧ currentFile r = None.
Proof.
  intros Hn Hr0. unfold late.
  change (receive_events P r0 (?e :: ?es))
    with (receive_events P (deliver P r0 e) es).
  rewrite receive_events_app, blobs_pending.
  change (receive_events P ?x (?e :: ?es))
    with (receive_events P (deliver P x e) es).
  cbn [deliver]. rewrite handle_with_reads by done.
  cbn [metadata_frame complete_frame handleDataChannelMessage].
  set (r1 := handleFileComplete _ _).
  destruct (idle_events P (map (fun _ => blob_loaded 0) (payloads f))
              (with_reads (blobReads (handleFileMetadata r0
                 {| md_name := file_name f; md_size := file_size f;
                    md_mimeType := file_type f;
                    md_lastModified := file_lastModified f |}) ++ payloads f) r1))
    as [bss Hbss].
  { apply complete_idle. }
  { apply Forall_forall. by intros ev (bs & -> & _)%list_elem_of_fmap. }
  cbv zeta. rewrite Hbss.
  cbn [with_reads receivedFiles onError_calls currentFile].
  subst r1. unfold handleFileComplete, handleFileMetadata, chunksToReassemble,
    receivedChunkCount, expectedChunks, missingChunks.
  cbn [currentFile receivedChunks chunkMap receivedChunkIndices
       expectedChunkCount bytesTransferred receivedFiles onError_calls
       dataChannel fc_totalChunks md_size].
  rewrite map_size_empty. cbn [Nat.ltb Nat.leb concat length N.of_nat].
  destruct (N.eqb_spec (totalChunks f) 0) as [|_]; [done|].
  change (N.of_nat 0) with 0.
  destruct (N.ltb_spec 0 (totalChunks f)) as [_|]; [|lia].
  rewrite filter_all; [done|].
  intros i _. rewrite lookup_empty.
  rewrite bool_decide_eq_false_2 by set_solver.
  by rewrite bool_decide_eq_false_2 by (by intros []).
Qed.

End Completion.

(** *** Transfers as the receiver sees them *)

Definition demo_two_chunks : File :=
  {| file_name := "a.bin"; file_type := "application/octet-stream";
     file_lastModified := 0%Z; content := repeat x07 (N.to_nat 70000) |}.

Definition demo_channel : DataChannel :=
  {| dc_open := true; bufferedAmount := 0; dc_sent := [] |}.

Lemma demo_two_chunks_count : totalChunks demo_two_chunks = 2.
Proof. vm_compute. reflexivity. Qed.



(** X5.  A transfer that lost chunks (but not all of them) still delivers
    a blob of the announced size: the received chunks are in their places,
    the lost ones are replaced by zeros of the same length, and [onError]
    is called once, with exactly the indices that never arrived. *)
Theorem lost_chunks_are_patched (P : Platform) (f : File) (l : list N)
    (j : N) (cs : option string) (r0 : Receiver) :
  totalChunks f < U32 →
  Forall (fun i => i < totalChunks f) l → l ≠ [] →
  j < totalChunks f → j ∉ l →
  let r := receive P r0 (metadata_frame f :: map (frame_of f) l
                         ++ [complete_frame f cs]) in
  receivedFiles r
  = receivedFiles r0 ++ [{| rf_file := announced f; rf_blob := patched f l |}]
  ∧ byteLength (patched f l) = file_size f
  ∧ onError_calls r
    = onError_calls r0 ++ [transfer_incomplete (missing_of l (totalChunks f))]
  ∧ (∀ i, i ∈ missing_of l (totalChunks f) ↔ i < totalChunks f ∧ i ∉ l).
Proof.
  intros Hn Hl Hne Hj Hnot r. subst r.
  destruct (received_then_complete P f r0 l cs Hn Hl Hne)
    as (Hfiles & Herrs & _).
  rewrite Hfiles, Herrs. split; [done|]. split; [apply patched_length|]. split.
  - pose proof (missing_some l _ j Hj Hnot).
    by destruct (missing_of l (totalChunks f)).
  - intros i. unfold missing_of.
    rewrite list_elem_of_In, filter_In, <- list_elem_of_In, elem_of_upto.
    by rewrite negb_true_iff, bool_decide_eq_false.
Qed.

Lemma lost_chunks_are_patched_witness :
  onError_calls
    (receive demo_platform (new_receiver demo_channel)
       (metadata_frame demo_two_chunks
        :: map (frame_of demo_two_chunks) [1]
        ++ [complete_frame demo_two_chunks None]))
  = [transfer_incomplete (missing_of [1] (totalChunks demo_two_chunks))]
  ∧ missing_of [1] (totalChunks demo_two_chunks) = [0].
Proof.
  split; [|by rewrite demo_two_chunks_count].
  refine (proj1 (proj2 (proj2
    (lost_chunks_are_patched demo_platform demo_two_chunks [1] 0 None
       (new_receiver demo_channel) _ _ _ _ _))));
    rewrite ?demo_two_chunks_count; try done.
  - repeat constructor.
  - intros H%list_elem_of_singleton. discriminate H.
Defined.



(** X7.  Files that arrive one after the other on the same channel are
    delivered one by one, in order and unchanged, each with the name, size
    and type that was announced for it, and without an [onError] call,
    provided every chunk of a file is handled before the [file-complete]
    of that file: the binary frames are handed over as [ArrayBuffer]s, or
    as [Blob]s whose reads, in whatever order they end, have all ended by
    then. *)
Theorem files_received_in_order (P : Platform) (fs : list (File * Arrival))
    (r0 : Receiver) :
  Forall (fun fh => totalChunks fh.1 < U32 ∧ in_time fh.1 fh.2 = true) fs →
  blobReads r0 = [] →
  let r := receive_events P r0
             (concat (map (fun fh => arrivals P fh.1 fh.2) fs)) in
  receivedFiles r = receivedFiles r0 ++ map (fun fh => delivered fh.1) fs
  ∧ onError_calls r = onError_calls r0
  ∧ blobReads r = []
  ∧ (fs ≠ [] → currentFile r = None).
Proof. apply files_arrive. Qed.

Lemma files_received_in_order_witness :
  receivedFiles
    (receive_events demo_platform (new_receiver demo_channel)
       (arrivals demo_platform demo_file as_buffers
        ++ arrivals demo_platform demo_two_chunks
             (as_blobs [next_frame; next_frame; read_ends 1; read_ends 0])))
  = [delivered demo_file; delivered demo_two_chunks].
Proof.
  pose proof (files_received_in_order demo_platform
                [(demo_file, as_buffers);
                 (demo_two_chunks,
                  as_blobs [next_frame; next_frame; read_ends 1; read_ends 0])]
                (new_receiver demo_channel)) as H.
  cbn [map concat fst snd] in H. rewrite app_nil_r in H.
  apply H; [|done].
  apply Forall_cons; split; [done|].
  apply Forall_cons; split; [|constructor].
  cbn [fst snd]. split; [by rewrite demo_two_chunks_count|].
  unfold in_time, payloads. rewrite length_map. unfold frame_count.
  rewrite demo_two_chunks_count. reflexivity.
Defined.


End ReceptionFacts.

(** ** The sending side, callback by callback *)

Module SendingFacts.
Import DataView DataViewFacts Transfer TransferFacts ReceptionFacts.

(** A turn of the event loop in which nothing goes wrong: the channel
    stays as it is and the read, if one is pending, succeeds. *)
Definition tick (d : N) : Tick :=
  {| flushed := d; closes := false; reader := read_ok |}.

Definition calm (t : Tick) : bool :=
  negb (closes t) && match reader t with read_ok => true | _ => false end.

Section Sending.
Context (P : Platform) (f : File).

(** On an open channel a non-empty file keeps the sender going. *)
Lemma run_live pre sched : ∀ s ch,
  file_size f ≠ 0 → dc_open ch = true →
  sender_inv P f pre s ch → status s ≠ Stalled → status s ≠ Rejected →
  status (run P f sched s ch).1 ≠ Stalled
  ∧ status (run P f sched s ch).1 ≠ Rejected.
Proof.
  induction sched as [|d sched IH]; intros s ch Hsize Hopen Hinv Hst Hrej; [done|].
  cbn [run].
  pose proof (fire_not_stalled P f pre d s ch Hsize Hopen Hinv Hst Hrej)
    as (H1 & H2 & H3).
  pose proof (fire_inv P f pre d s ch Hinv) as H4.
  destruct (fire P f s (dc_drain d ch)) as [s' ch']. by apply IH.
Qed.

(** The counters of the loop: [offset] and [stats.bytesTransferred] as
    functions of [chunkIndex]. *)
Definition counters (s : Sender) : Prop :=
  offset s = chunkIndex s * CHUNK_SIZE
  ∧ s_bytesTransferred s
    = byteLength (concat (map (chunk f) (upto (chunkIndex s))))
  ∧ match status s with
    | Reading | Deferred => in_loop f (chunkIndex s)
    | Hashing | Resolved => chunkIndex s = frame_count f
    | Rejected | Stalled => True
    end.

Lemma fire_counters d s ch :
  counters s → counters (fire P f s (dc_drain d ch)).1.
Proof.
  unfold counters, fire. destruct (status s) eqn:Hst;
    try (cbn; rewrite Hst; done).
  - intros (Hoff & Hbytes & Hk). unfold onload. cbn [dc_open dc_drain].
    destruct (dc_open ch); cbn; [|done].
    destruct (BUFFER_THRESHOLD <? _); cbn; [done|].
    assert (Hnew : s_bytesTransferred s
                   + byteLength (slice f (offset s) (offset s + CHUNK_SIZE))
                   = byteLength (concat (map (chunk f) (upto (chunkIndex s + 1))))).
    { rewrite upto_succ, map_app, concat_app, byteLength_app, <- Hbytes.
      cbn [map concat]. rewrite app_nil_r. unfold chunk. by rewrite Hoff. }
    destruct (offset s + CHUNK_SIZE <? file_size f) eqn:Hnext; cbn.
    + split; [lia|]. split; [done|]. right. apply N.ltb_lt in Hnext. lia.
    + apply N.ltb_ge in Hnext.
      assert (chunkIndex s + 1 = frame_count f) as Hlast
        by (apply last_chunk; [done|lia]).
      destruct (subtle P); cbn; (split; [lia|]); by split.
  - intros (Hoff & Hbytes & Hk). unfold ontimeout.
    destruct (offset s <? file_size f); cbn; done.
  - intros (Hoff & Hbytes & Hk). unfold onchecksum. cbn [dc_open dc_drain].
    destruct (dc_open ch); cbn; done.
Qed.

Lemma run_counters sched : ∀ s ch,
  counters s → counters (run P f sched s ch).1.
Proof.
  induction sched as [|d sched IH]; intros s ch Hc; [done|]. cbn [run].
  pose proof (fire_counters d s ch Hc) as H.
  destruct (fire P f s (dc_drain d ch)) as [s' ch']. by apply IH.
Qed.

Lemma transmit_counters sched ch0 : counters (transmit P f sched ch0).1.
Proof.
  unfold transmit, sendFile, sendFileChunks. cbn [andb].
  destruct (dc_open ch0) eqn:Hopen; apply run_counters.
  - cbn [dc_open dc_send]. rewrite Hopen. repeat split; cbn; try done. by left.
  - repeat split; cbn; done.
Qed.

Lemma all_frames_cover :
  concat (map (chunk f) (upto (frame_count f))) = content f.
Proof.
  rewrite concat_chunks. apply take_ge.
  pose proof (ceil_chunks_bounds (file_size f)) as Hb.
  unfold frame_count, totalChunks.
  generalize dependent (ceil_chunks (file_size f)). unfold file_size.
  change CHUNK_SIZE with 65536. intros n Hb. lia.
Qed.

Lemma fire_open d s ch : dc_open (fire P f s (dc_drain d ch)).2 = dc_open ch.
Proof.
  unfold fire, onload, ontimeout, onchecksum. cbn [dc_open dc_drain].
  destruct (status s); try done.
  - destruct (dc_open ch) eqn:E; cbn; [|done].
    destruct (_ <? _); cbn; [done|]. destruct (_ <? _); cbn; [done|].
    destruct (subtle P); cbn; done.
  - destruct (_ <? _); done.
  - destruct (dc_open ch) eqn:E; cbn; done.
Qed.

Lemma run_open sched : ∀ s ch, dc_open (run P f sched s ch).2 = dc_open ch.
Proof.
  induction sched as [|d sched IH]; intros s ch; [done|]. cbn [run].
  pose proof (fire_open d s ch) as H.
  destruct (fire P f s (dc_drain d ch)) as [s' ch']. cbn in H.
  by rewrite IH.
Qed.

Lemma transmit_open sched ch0 :
  dc_open (transmit P f sched ch0).2 = dc_open ch0.
Proof.
  unfold transmit, sendFile. cbn [andb]. destruct (dc_open ch0) eqn:Hopen;
    by rewrite run_open.
Qed.

Lemma run_settled sched : ∀ s ch,
  status s = Resolved ∨ status s = Rejected ∨ status s = Stalled →
  (run P f sched s ch).1 = s ∧ dc_sent (run P f sched s ch).2 = dc_sent ch.
Proof.
  induction sched as [|d sched IH]; intros s ch Hst; [done|]. cbn [run].
  assert (Hfire : fire P f s (dc_drain d ch) = (s, dc_drain d ch)).
  { unfold fire. by destruct Hst as [->|[->| ->]]. }
  rewrite Hfire. destruct (IH s (dc_drain d ch) Hst) as [-> ->]. done.
Qed.

(** *** Reads that fail and a channel that closes *)

Lemma callback_ok s ch : callback P f read_ok s ch = fire P f s ch.
Proof. unfold callback. by destruct (status s). Qed.

Lemma play_calm ticks : ∀ s ch,
  Forall (fun t => calm t = true) ticks →
  play P f ticks s ch = run P f (map flushed ticks) s ch.
Proof.
  induction ticks as [|[d c res] ticks IH]; intros s ch Hticks; [done|].
  apply Forall_cons in Hticks as [Ht Hticks]. unfold calm in Ht. cbn in Ht.
  destruct c; [done|]. destruct res; try done.
  cbn [play map run flushed reader]. unfold between. cbn [closes flushed].
  rewrite callback_ok. destruct (fire P f s (dc_drain d ch)) as [s' ch'].
  by apply IH.
Qed.

Lemma ticks_calm (sched : list N) :
  Forall (fun t => calm t = true) (map tick sched)
  ∧ map flushed (map tick sched) = sched.
Proof.
  induction sched as [|d sched [IH1 IH2]]; [done|]. split.
  - by apply Forall_cons.
  - cbn. by rewrite IH2.
Qed.

Lemma transfer_transmit sched ch :
  transfer P true f (map tick sched) ch = transmit P f sched ch.
Proof.
  unfold transfer, transmit. destruct (sendFile P true f ch) as [s ch1].
  destruct (ticks_calm sched) as [H1 H2]. by rewrite play_calm, H2.
Qed.

(** What is on the channel at each point of a send, after the frames [pre]
    that were there when the chunk loop started: the frames of the first
    [k] chunks, followed by [file-complete] once the promise has resolved. *)
Definition sent_so_far (pre : list Message) (s : Sender) (ch : DataChannel)
  : Prop :=
  ∃ k, k <= frame_count f
       ∧ dc_sent ch
         = pre ++ chunk_frames f k
           ++ (match status s with
               | Resolved => [complete_frame f (final_checksum P f)]
               | _ => []
               end)
       ∧ (status s = Resolved ∨ status s = Hashing → k = frame_count f)
       ∧ (status s = Reading ∨ status s = Deferred →
          k = chunkIndex s ∧ offset s = chunkIndex s * CHUNK_SIZE
          ∧ in_loop f k).

Local Ltac settle :=
  repeat split; try done; try lia; try (by intros [?|?]);
  match goal with H : _ ∨ _ |- _ => by destruct H end.

Lemma callback_sent pre t s ch :
  sent_so_far pre s ch →
  sent_so_far pre (callback P f (reader t) s (between t ch)).1
                  (callback P f (reader t) s (between t ch)).2.
Proof.
  intros (k & Hk & Hsent & Hdone & Hloop).
  assert (Hsame : dc_sent (between t ch) = dc_sent ch).
  { unfold between. by destruct (closes t). }
  unfold callback, fire. destruct (status s) eqn:Hst.
  - (* a read is pending *)
    destruct (Hloop (or_introl eq_refl)) as (-> & Hoff & Hin).
    assert (Hrej : sent_so_far pre (onerror s (between t ch)).1
                                   (onerror s (between t ch)).2).
    { exists (chunkIndex s). cbn [fst snd status chunkIndex offset set_status onerror dc_send
           dc_sent]. rewrite Hsame, Hsent.
      settle. }
    destruct (reader t); [|exact Hrej..].
    unfold onload. destruct (dc_open (between t ch)); cbn [negb].
    2:{ exists (chunkIndex s). cbn [fst snd status chunkIndex offset set_status onerror dc_send
           dc_sent]. rewrite Hsame, Hsent.
        settle. }
    destruct (BUFFER_THRESHOLD <? _).
    { exists (chunkIndex s). cbn [fst snd status chunkIndex offset set_status onerror dc_send
           dc_sent]. rewrite Hsame, Hsent.
      settle. }
    cbn [offset]. rewrite app_nil_r in Hsent.
    destruct (offset s + CHUNK_SIZE <? file_size f) eqn:Hnext.
    + apply N.ltb_lt in Hnext. exists (chunkIndex s + 1). cbn [fst snd status chunkIndex offset set_status onerror dc_send
           dc_sent].
      assert (in_loop f (chunkIndex s + 1)) as Hin' by (right; lia).
      pose proof (in_loop_lt f _ Hin'). rewrite Hsame, Hsent.
      rewrite chunk_frames_succ, Hoff, app_nil_r, <- app_assoc.
      settle.
    + apply N.ltb_ge in Hnext.
      assert (chunkIndex s + 1 = frame_count f) as Hlast
        by (apply last_chunk; [done|lia]).
      exists (chunkIndex s + 1). unfold final_checksum.
      destruct (subtle P);
        cbn [fst snd status chunkIndex offset set_status dc_send dc_sent];
        rewrite Hsame, Hsent, chunk_frames_succ, Hoff, <- ?app_assoc,
          ?app_nil_r;
        settle.
  - (* the backpressure timer *)
    destruct (Hloop (or_intror eq_refl)) as (-> & Hoff & Hin).
    unfold ontimeout. exists (chunkIndex s).
    destruct (offset s <? file_size f); cbn [fst snd status chunkIndex offset set_status onerror dc_send
           dc_sent]; rewrite Hsame, Hsent;
      settle.
  - (* the digest settles *)
    rewrite (Hdone (or_intror eq_refl)) in Hsent.
    unfold onchecksum. exists (frame_count f).
    destruct (dc_open (between t ch)); cbn [fst snd status chunkIndex offset set_status onerror dc_send
           dc_sent]; rewrite ?Hsame, Hsent;
      rewrite ?app_nil_r, <- ?app_assoc;
      settle.
  - exists k. cbn [fst snd status chunkIndex offset set_status onerror dc_send
           dc_sent]. by rewrite Hst, Hsame.
  - exists k. cbn [fst snd status chunkIndex offset set_status onerror dc_send
           dc_sent]. by rewrite Hst, Hsame.
  - exists k. cbn [fst snd status chunkIndex offset set_status onerror dc_send
           dc_sent]. by rewrite Hst, Hsame.
Qed.

Lemma play_sent pre ticks : ∀ s ch,
  sent_so_far pre s ch →
  sent_so_far pre (play P f ticks s ch).1 (play P f ticks s ch).2.
Proof.
  induction ticks as [|t ticks IH]; intros s ch H; [done|]. cbn [play].
  pose proof (callback_sent pre t s ch H) as H'.
  destruct (callback P f (reader t) s (between t ch)) as [s' ch'].
  by apply IH.
Qed.

Lemma play_settled ticks : ∀ s ch,
  status s = Resolved ∨ status s = Rejected ∨ status s = Stalled →
  (play P f ticks s ch).1 = s ∧ dc_sent (play P f ticks s ch).2 = dc_sent ch.
Proof.
  induction ticks as [|t ticks IH]; intros s ch Hst; [done|]. cbn [play].
  assert (Hcb : callback P f (reader t) s (between t ch) = (s, between t ch)).
  { unfold callback, fire. by destruct Hst as [->|[->| ->]]. }
  rewrite Hcb. destruct (IH s (between t ch) Hst) as [-> ->].
  split; [done|]. unfold between. by destruct (closes t).
Qed.

(** [sendFile] turns the file away when the endpoint is not connected or
    the channel is not open. *)
Lemma transfer_refused c ticks ch0 :
  c && dc_open ch0 = false →
  status (transfer P c f ticks ch0).1 = Rejected
  ∧ dc_sent (transfer P c f ticks ch0).2 = dc_sent ch0.
Proof.
  intros Hno. unfold transfer, sendFile. rewrite Hno.
  match goal with |- context [play P f ticks ?s0 ch0] =>
    destruct (play_settled ticks s0 ch0) as [-> ->]; [by right; left|done]
  end.
Qed.

Lemma transfer_sent c ticks ch0 :
  c && dc_open ch0 = true →
  sent_so_far (dc_sent ch0 ++ [metadata_frame f])
    (transfer P c f ticks ch0).1 (transfer P c f ticks ch0).2.
Proof.
  intros Hyes. unfold transfer, sendFile. rewrite Hyes.
  apply andb_true_iff in Hyes as [_ Hopen].
  apply play_sent. exists 0. unfold sendFileChunks. cbn [dc_open dc_send].
  rewrite Hopen. cbn. rewrite app_nil_r.
  repeat split; try done; try lia; try (by intros [?|?]). by left.
Qed.

(** A send that resolved has put on the channel the frames of the file,
    all of them and nothing else. *)
Lemma transfer_resolved c ticks ch0 :
  status (transfer P c f ticks ch0).1 = Resolved →
  dc_sent (transfer P c f ticks ch0).2 = dc_sent ch0 ++ wire P f.
Proof.
  intros Hres. destruct (c && dc_open ch0) eqn:Hc.
  - destruct (transfer_sent c ticks ch0 Hc) as (k & _ & Hsent & Hdone & _).
    rewrite Hres in Hsent. rewrite Hsent, (Hdone (or_introl Hres)).
    unfold wire, frames_of. by rewrite <- !app_assoc.
  - destruct (transfer_refused c ticks ch0 Hc) as [Hrej _].
    by rewrite Hrej in Hres.
Qed.

Lemma between_open t ch :
  closes t = false → dc_open (between t ch) = dc_open ch.
Proof. unfold between. by intros ->. Qed.

Lemma play_open ticks : ∀ s ch,
  Forall (fun t => closes t = false) ticks →
  dc_open (play P f ticks s ch).2 = dc_open ch.
Proof.
  induction ticks as [|t ticks IH]; intros s ch Hticks; [done|].
  apply Forall_cons in Hticks as [Ht Hticks]. cbn [play].
  assert (Hcb : dc_open (callback P f (reader t) s (between t ch)).2
                = dc_open ch).
  { unfold callback. unfold between. rewrite Ht.
    destruct (status s), (reader t); try apply fire_open; done. }
  destruct (callback P f (reader t) s (between t ch)) as [s' ch'].
  cbn in Hcb. by rewrite IH.
Qed.

Lemma transfer_open c ticks ch0 :
  Forall (fun t => closes t = false) ticks →
  dc_open (transfer P c f ticks ch0).2 = dc_open ch0.
Proof.
  intros Hticks. unfold transfer, sendFile.
  destruct (c && dc_open ch0); by rewrite play_open.
Qed.

(** On a channel that stays open, with reads that succeed, a connected
    endpoint can bring every send to its end. *)
Lemma transfer_completes ch0 :
  dc_open ch0 = true →
  ∃ ticks, Forall (fun t => calm t = true) ticks
           ∧ status (transfer P true f ticks ch0).1 = Resolved.
Proof.
  intros Hopen. destruct (transmit_completes P f ch0 Hopen) as [sched Hres].
  exists (map tick sched). split; [apply ticks_calm|].
  by rewrite transfer_transmit.
Qed.

Lemma transfer_live ticks ch0 :
  dc_open ch0 = true → file_size f ≠ 0 →
  Forall (fun t => calm t = true) ticks →
  status (transfer P true f ticks ch0).1 ≠ Rejected
  ∧ status (transfer P true f ticks ch0).1 ≠ Stalled.
Proof.
  intros Hopen Hsize Hticks. unfold transfer, sendFile, sendFileChunks.
  cbn [andb]. rewrite Hopen. cbn [dc_open dc_send]. rewrite Hopen.
  rewrite play_calm by done.
  match goal with |- context [run P f ?sched ?s ?ch] =>
    set (s0 := s); set (ch1 := ch);
    destruct (run_live (dc_sent ch0 ++ [metadata_frame f]) sched s0 ch1)
      as [Hns Hnr]
  end; try done.
  unfold sender_inv. cbn. split; [done|]. split; [by left|].
  unfold chunk_frames. cbn. by rewrite app_nil_r.
Qed.

(** A read that fails, or a channel found closed when the read has ended,
    rejects the promise; nothing is sent. *)
Lemma failed_read_rejects t s ch :
  status s = Reading → closes t = true ∨ reader t ≠ read_ok →
  status (play P f [t] s ch).1 = Rejected
  ∧ dc_sent (play P f [t] s ch).2 = dc_sent ch.
Proof.
  intros Hst Hbad. cbn [play].
  assert (Hsame : dc_sent (between t ch) = dc_sent ch).
  { unfold between. by destruct (closes t). }
  unfold callback. rewrite Hst.
  destruct (reader t) eqn:Hres;
    try (unfold onerror; cbn [fst snd status set_status]; by rewrite Hsame).
  destruct Hbad as [Hc|Hbad]; [|done].
  unfold fire. rewrite Hst. unfold onload, between. rewrite Hc. cbn. done.
Qed.

End Sending.

(** X9.  What a send puts on the channel, and when.  [sendFile] turns the
    file away, and nothing is sent, when the endpoint is not connected
    ([isConnected] cleared) or the channel is not open.  Otherwise,
    whatever the transport's pace, whether reads fail or the channel
    closes, what has been sent at any moment is the metadata followed by
    the first [k] chunk frames in index order, each exactly once, and it
    is the whole sequence with [file-complete] last exactly when the
    promise has resolved.  For a non-empty file the promise is neither
    rejected nor left unsettled as long as every read succeeds and the
    channel stays open; a read that fails, or a channel found closed when
    a read has ended, rejects it. *)
Theorem frames_sent_in_order (P : Platform) (f : File) (c : bool)
    (ticks : list Tick) (ch0 : DataChannel) :
  let out := transfer P c f ticks ch0 in
  (c && dc_open ch0 = false →
   status out.1 = Rejected ∧ dc_sent out.2 = dc_sent ch0)
  ∧ (c && dc_open ch0 = true →
     ∃ k, k <= frame_count f
          ∧ dc_sent out.2
            = dc_sent ch0 ++ metadata_frame f :: chunk_frames f k
              ++ (match status out.1 with
                  | Resolved => [complete_frame f (final_checksum P f)]
                  | _ => []
                  end)
          ∧ (status out.1 = Resolved ∨ status out.1 = Hashing →
             k = frame_count f)
          ∧ (status out.1 = Reading ∨ status out.1 = Deferred →
             k < frame_count f))
  ∧ (c && dc_open ch0 = true → file_size f ≠ 0 →
     Forall (fun t => calm t = true) ticks →
     status out.1 ≠ Rejected ∧ status out.1 ≠ Stalled)
  ∧ (∀ t s ch, status s = Reading →
       closes t = true ∨ reader t ≠ read_ok →
       status (play P f [t] s ch).1 = Rejected
       ∧ dc_sent (play P f [t] s ch).2 = dc_sent ch).
Proof.
  intros out. subst out. split; [apply transfer_refused|].
  split; [|split; [|apply failed_read_rejects]].
  - intros Hc.
    destruct (transfer_sent P f c ticks ch0 Hc) as (k & Hk & Hsent & Hd & Hl).
    exists k. rewrite Hsent, <- app_assoc. repeat split; try done.
    intros Hst. destruct (Hl Hst) as (_ & _ & Hin).
    by apply in_loop_lt.
  - intros [-> Hopen]%andb_true_iff Hsize Hticks.
    by apply transfer_live.
Qed.

Lemma frames_sent_in_order_witness :
  (∃ k, k <= frame_count demo_two_chunks
        ∧ dc_sent (transfer demo_platform true demo_two_chunks [tick 0]
                     demo_channel).2
          = metadata_frame demo_two_chunks :: chunk_frames demo_two_chunks k)
  ∧ status (transfer demo_platform true demo_two_chunks
              [tick 0; {| flushed := 0; closes := false; reader := read_error |}]
              demo_channel).1 = Rejected
  ∧ status (transfer demo_platform false demo_two_chunks [tick 0]
              demo_channel).1 = Rejected.
Proof.
  split; [|split].
  - destruct (frames_sent_in_order demo_platform demo_two_chunks true [tick 0]
                demo_channel) as (_ & H & _).
    destruct (H eq_refl) as (k & Hk & Hsent & _).
    exists k. split; [exact Hk|].
    assert (Hst : status (transfer demo_platform true demo_two_chunks [tick 0]
                            demo_channel).1 = Reading)
      by (vm_compute; reflexivity).
    rewrite Hst in Hsent. rewrite Hsent. by rewrite app_nil_r.
  - vm_compute. reflexivity.
  - vm_compute. reflexivity.
Defined.

(** X10.  The sender's counters never drift: at every moment
    [stats.bytesTransferred] is the number of file bytes in the chunk
    frames sent so far, which is never more than the file's size, and when
    the promise resolves it is exactly the file's size, after
    [max 1 (ceil (size / 64 KiB))] chunk frames. *)
Theorem sender_counters_exact (P : Platform) (f : File) (sched : list N)
    (ch0 : DataChannel) :
  let s := (transmit P f sched ch0).1 in
  s_bytesTransferred s = N.min (chunkIndex s * CHUNK_SIZE) (file_size f)
  ∧ offset s = chunkIndex s * CHUNK_SIZE
  ∧ (status s = Resolved →
     s_bytesTransferred s = file_size f ∧ chunkIndex s = frame_count f).
Proof.
  intros s. destruct (transmit_counters P f sched ch0) as (Hoff & Hbytes & Hk).
  fold s in Hoff, Hbytes, Hk. split; [|split; [done|]].
  - rewrite Hbytes, concat_chunks. unfold byteLength, file_size.
    rewrite length_take. lia.
  - intros Hres. rewrite Hres in Hk. split; [|done].
    by rewrite Hbytes, Hk, all_frames_cover.
Qed.

(** X11.  A send that has settled stays settled and silent: on a channel
    that is not open [sendFile] rejects without sending anything, and once
    the promise is resolved or rejected (or the loop has stalled) no later
    callback changes the sender or writes to the channel. *)
Theorem settled_send_is_final (P : Platform) (f : File) :
  (∀ sched ch, dc_open ch = false →
     status (transmit P f sched ch).1 = Rejected
     ∧ dc_sent (transmit P f sched ch).2 = dc_sent ch)
  ∧ (∀ sched s ch,
       status s = Resolved ∨ status s = Rejected ∨ status s = Stalled →
       (run P f sched s ch).1 = s
       ∧ dc_sent (run P f sched s ch).2 = dc_sent ch)
  ∧ (∀ sched1 sched2 ch,
       status (transmit P f sched1 ch).1 = Resolved →
       dc_sent (transmit P f (sched1 ++ sched2) ch).2
       = dc_sent (transmit P f sched1 ch).2).
Proof.
  split; [|split].
  - intros sched ch Hclosed. unfold transmit, sendFile. cbn [andb].
    rewrite Hclosed.
    match goal with |- context [run P f sched ?s0 ch] =>
      destruct (run_settled P f sched s0 ch) as [-> ->]; [by right; left|done]
    end.
  - apply run_settled.
  - intros sched1 sched2 ch Hres. unfold transmit in *.
    destruct (sendFile P true f ch) as [s0 ch1].
    assert (Happ : ∀ l1 l2 s c,
              run P f (l1 ++ l2) s c
              = run P f l2 (run P f l1 s c).1 (run P f l1 s c).2).
    { induction l1 as [|d l1 IH]; intros l2 s c; [done|]. cbn [app run].
      destruct (fire P f s (dc_drain d c)) as [s' c']. apply IH. }
    rewrite Happ.
    by destruct (run_settled P f sched2 _ (run P f sched1 s0 ch1).2
                   (or_introl Hres)) as [_ ->].
Qed.

End SendingFacts.

(** ** The round trip of one file *)

Module RoundTripFacts.
Import DataView DataViewFacts Transfer TransferFacts ReceptionFacts SendingFacts.

(** C1.  What the round trip of a file of fewer than 2^32 chunks comes to.
    A connected endpoint can bring the send to its end on an open channel,
    and every send that resolved has put on the channel the metadata, the
    0x01 chunk frames (CHUNK_SIZE bytes each, the last one holding the
    non-empty remainder) and [file-complete], in this order.  When these
    frames reach the receiver in order and every chunk is handled before
    [file-complete] (handed over as [ArrayBuffer]s, or as [Blob]s whose
    reads have ended by then), the file delivered has the bytes of the file
    sent and the stored chunks add up to the announced size.  When they
    reach the receiver in the same order as [Blob]s whose reads are still
    under way at [file-complete], the file is delivered empty, [onError]
    reports every chunk missing, and the chunks are dropped when the reads
    end: the round trip does not hold. *)
Theorem reassembly_roundtrip (P : Platform) (f : File) (r0 : Receiver) :
  totalChunks f < U32 → blobReads r0 = [] →
  (∀ ch0, dc_open ch0 = true →
     ∃ ticks, status (transfer P true f ticks ch0).1 = Resolved)
  ∧ (∀ c ticks ch0,
       status (transfer P c f ticks ch0).1 = Resolved →
       drop (length (dc_sent ch0)) (dc_sent (transfer P c f ticks ch0).2)
       = wire P f)
  ∧ (∀ i, i + 1 < totalChunks f → byteLength (chunk f i) = CHUNK_SIZE)
  ∧ (totalChunks f ≠ 0 →
     0 < byteLength (chunk f (totalChunks f - 1)) <= CHUNK_SIZE)
  ∧ (∀ h, in_time f h = true →
       arrived (arrivals P f h) = wire P f
       ∧ receivedFiles (receive_events P r0 (arrivals P f h))
         = receivedFiles r0 ++ [delivered f]
       ∧ onError_calls (receive_events P r0 (arrivals P f h))
         = onError_calls r0
       ∧ stored_bytes (receive_events P r0 (chunks_arrive f h)) (totalChunks f)
         = file_size f)
  ∧ (totalChunks f ≠ 0 →
       arrived (late P f) = wire P f
       ∧ receivedFiles (receive_events P r0 (late P f))
         = receivedFiles r0 ++ [{| rf_file := announced f; rf_blob := [] |}]
       ∧ onError_calls (receive_events P r0 (late P f))
         = onError_calls r0 ++ [transfer_incomplete (upto (totalChunks f))]).
Proof.
  intros Hlt Hr0. pose proof (ceil_chunks_bounds (file_size f)) as Hb.
  fold (totalChunks f) in Hb. split; [|split; [|split; [|split; [|split]]]].
  - intros ch0 Hopen.
    destruct (transfer_completes P f ch0 Hopen) as (ticks & _ & Hres).
    by exists ticks.
  - intros c ticks ch0 Hres. rewrite (transfer_resolved P f c ticks ch0 Hres).
    by rewrite drop_app_length.
  - intros i Hi. apply chunk_length_full.
    change CHUNK_SIZE with 65536 in *. lia.
  - intros Hnz. rewrite chunk_length_last;
      change CHUNK_SIZE with 65536 in *; lia.
  - intros h Hh. split; [by apply arrived_arrivals|].
    destruct (arrivals_received P f h r0 Hlt Hh Hr0) as (H1 & H2 & _).
    split; [exact H1|]. split; [exact H2|].
    by apply chunks_arrive_stored.
  - intros Hnz. split; [apply arrived_late|].
    destruct (late_reads_lose P f r0 Hnz Hr0) as (H1 & H2 & _).
    by split.
Qed.

Lemma reassembly_roundtrip_witness :
  receivedFiles
    (receive_events demo_platform (new_receiver demo_channel)
       (arrivals demo_platform demo_file (as_blobs [next_frame; read_ends 0])))
  = [delivered demo_file]
  ∧ receivedFiles
      (receive_events demo_platform (new_receiver demo_channel)
         (late demo_platform demo_file))
    = [{| rf_file := announced demo_file; rf_blob := [] |}]
  ∧ onError_calls
      (receive_events demo_platform (new_receiver demo_channel)
         (late demo_platform demo_file))
    = [transfer_incomplete [0]]
  ∧ rf_blob (delivered demo_file) ≠ [].
Proof.
  destruct (reassembly_roundtrip demo_platform demo_file
              (new_receiver demo_channel) eq_refl eq_refl)
    as (_ & _ & _ & _ & Hgood & Hbad).
  destruct (Hgood (as_blobs [next_frame; read_ends 0]) eq_refl)
    as (_ & H1 & _).
  destruct Hbad as (_ & H2 & H3); [done|].
  split; [exact H1|]. split; [exact H2|]. split; [exact H3|]. done.
Defined.

End RoundTripFacts.

(** ** The file queue *)

Module QueueFacts.
Import Transfer TransferFacts ReceptionFacts SendingFacts SendQueue.

Section Queue.
Context (P : Platform).

Definition all_resolved (queue : list Job) : list Status :=
  map (fun _ => Resolved) queue.

Definition all_rejected (queue : list Job) : list Status :=
  map (fun _ => Rejected) queue.

Definition wires (queue : list Job) : list Message :=
  concat (map (fun job => wire P (job_file job)) queue).

(** The send of one entry of the queue. *)
Definition send_of (job : Job) (ch : DataChannel) : Sender * DataChannel :=
  transfer P (job_connected job) (job_file job) (job_ticks job)
    (dc_drain (job_pause job) ch).

(** The endpoint is not connected when the file is started, and the
    channel stays as it is. *)
Definition disconnected (job : Job) : bool :=
  negb (job_connected job)
  && forallb (fun t => negb (closes t)) (job_ticks job).

(** A queue whose first part resolves goes on with the rest. *)
Lemma queue_app (q1 q2 : list Job) : ∀ ch,
  (sendFilesNow P q1 ch).1 = all_resolved q1 →
  sendFilesNow P (q1 ++ q2) ch
  = (all_resolved q1 ++ (sendFilesNow P q2 (sendFilesNow P q1 ch).2).1,
     (sendFilesNow P q2 (sendFilesNow P q1 ch).2).2).
Proof.
  induction q1 as [|job q1 IH]; intros ch Hres.
  - cbn. by destruct (sendFilesNow P q2 ch).
  - cbn [app sendFilesNow] in *.
    destruct (dc_open (dc_drain (job_pause job) ch)); [|done].
    fold (send_of job ch) in *.
    destruct (status (send_of job ch).1) eqn:Hst;
      try (cbn in Hres; discriminate Hres).
    cbn [fst snd] in *. injection Hres as Hres.
    rewrite (IH _ Hres). done.
Qed.

Lemma queue_sent (queue : list Job) : ∀ ch,
  (sendFilesNow P queue ch).1 = all_resolved queue →
  dc_sent (sendFilesNow P queue ch).2 = dc_sent ch ++ wires queue.
Proof.
  induction queue as [|job queue IH]; intros ch Hres.
  - cbn. by rewrite app_nil_r.
  - cbn [sendFilesNow] in *.
    destruct (dc_open (dc_drain (job_pause job) ch)); [|done].
    fold (send_of job ch) in *.
    destruct (status (send_of job ch).1) eqn:Hst;
      try (cbn in Hres; discriminate Hres).
    cbn [fst snd] in *. injection Hres as Hres.
    rewrite (IH _ Hres). unfold send_of in *.
    rewrite (transfer_resolved _ _ _ _ _ Hst). cbn [dc_drain dc_sent].
    unfold wires. cbn [map concat]. by rewrite app_assoc.
Qed.

Lemma queue_completes (fs : list File) : ∀ ch,
  dc_open ch = true →
  ∃ queue, map job_file queue = fs
           ∧ Forall (fun job => job_connected job = true) queue
           ∧ (sendFilesNow P queue ch).1 = all_resolved queue.
Proof.
  induction fs as [|f fs IH]; intros ch Hopen.
  - by exists [].
  - destruct (transfer_completes P f (dc_drain 0 ch) Hopen)
      as (ticks & Hcalm & Hres).
    destruct (IH (transfer P true f ticks (dc_drain 0 ch)).2)
      as (queue & Hfs & Hcon & Hall).
    { rewrite transfer_open; [done|].
      eapply Forall_impl; [exact Hcalm|]. intros t Ht. unfold calm in Ht.
      by destruct (closes t). }
    exists ({| job_file := f; job_pause := 0; job_connected := true;
               job_ticks := ticks |} :: queue).
    split; [cbn; by rewrite Hfs|]. split; [by apply Forall_cons|].
    cbn [sendFilesNow job_file job_pause job_connected job_ticks].
    cbn [dc_open dc_drain]. rewrite Hopen, Hres. cbn [fst snd]. by rewrite Hall.
Qed.

(** While the endpoint is not connected every file of the queue is turned
    away, one after the other. *)
Lemma queue_refused (queue : list Job) : ∀ ch,
  dc_open ch = true →
  Forall (fun job => disconnected job = true) queue →
  (sendFilesNow P queue ch).1 = all_rejected queue
  ∧ dc_sent (sendFilesNow P queue ch).2 = dc_sent ch.
Proof.
  induction queue as [|job queue IH]; intros ch Hopen Hq; [done|].
  apply Forall_cons in Hq as [Hjob Hq].
  apply andb_true_iff in Hjob as [Hc%negb_true_iff Hticks].
  assert (Hstay : Forall (fun t => closes t = false) (job_ticks job)).
  { apply Forall_forall. intros t Ht%list_elem_of_In.
    rewrite forallb_forall in Hticks. by apply negb_true_iff, Hticks. }
  cbn [sendFilesNow]. cbn [dc_open dc_drain]. rewrite Hopen.
  fold (send_of job ch).
  destruct (transfer_refused P (job_file job) (job_connected job)
              (job_ticks job) (dc_drain (job_pause job) ch)) as [Hrej Hsent].
  { by rewrite Hc. }
  fold (send_of job ch) in Hrej, Hsent. rewrite Hrej. cbn [fst snd].
  destruct (IH (send_of job ch).2) as [-> ->]; [|done|].
  - unfold send_of. by rewrite transfer_open.
  - by rewrite Hsent.
Qed.

End Queue.

(** X12.  One call of [sendFilesNow], with no other call of it under way:
    when every send of the queue resolves, the channel has carried the
    files one after the other, each as metadata, chunk frames in order and
    [file-complete], with nothing in between.  When this traffic reaches
    the receiver in order, and every chunk of a file is handled before the
    [file-complete] of that file ([ArrayBuffer]s, or [Blob]s whose reads
    have ended by then), the receiver ends up with every file, in the
    order of the queue and byte for byte. *)
Theorem queue_sends_files_in_order (P : Platform) (queue : list Job)
    (ch : DataChannel) :
  (sendFilesNow P queue ch).1 = all_resolved queue →
  Forall (fun job => totalChunks (job_file job) < U32) queue →
  let sent := drop (length (dc_sent ch)) (dc_sent (sendFilesNow P queue ch).2) in
  sent = wires P queue
  ∧ ∀ r0 (fhs : list (File * Arrival)),
      map fst fhs = map job_file queue →
      Forall (fun fh => in_time fh.1 fh.2 = true) fhs →
      blobReads r0 = [] →
      let evs := concat (map (fun fh => arrivals P fh.1 fh.2) fhs) in
      arrived evs = sent
      ∧ receivedFiles (receive_events P r0 evs)
        = receivedFiles r0 ++ map (fun job => delivered (job_file job)) queue
      ∧ onError_calls (receive_events P r0 evs) = onError_calls r0.
Proof.
  intros Hres Hsmall sent.
  assert (Hsent : sent = wires P queue).
  { subst sent. rewrite (queue_sent P queue ch Hres).
    by rewrite drop_app_length. }
  split; [done|]. intros r0 fhs Hfs Htime Hr0 evs. subst evs.
  rewrite Hsent. split.
  - rewrite (arrived_files P fhs Htime). unfold wires.
    rewrite <- (map_map fst (wire P)), Hfs. by rewrite map_map.
  - destruct (files_arrive P fhs r0) as (-> & -> & _); [|done|].
    + apply Forall_forall. intros fh Hfh. split.
      * assert (fh.1 ∈ map job_file queue) as Hin.
        { rewrite <- Hfs. apply list_elem_of_fmap. by exists fh. }
        apply list_elem_of_fmap in Hin as (job & -> & Hjob).
        by apply (proj1 (Forall_forall _ _) Hsmall).
      * by apply (proj1 (Forall_forall _ _) Htime).
    + split; [|done]. f_equal.
      rewrite <- (map_map fst delivered), Hfs. by rewrite map_map.
Qed.

Definition demo_queue : list Job :=
  [{| job_file := demo_file; job_pause := 0; job_connected := true;
      job_ticks := [tick 0] |};
   {| job_file := demo_two_chunks; job_pause := 100000; job_connected := true;
      job_ticks := [tick 100000; tick 100000] |}].

Lemma queue_sends_files_in_order_witness :
  (sendFilesNow demo_platform demo_queue demo_channel).1
  = [Resolved; Resolved]
  ∧ receivedFiles
      (receive_events demo_platform (new_receiver demo_channel)
         (arrivals demo_platform demo_file as_buffers
          ++ arrivals demo_platform demo_two_chunks
               (as_blobs [next_frame; read_ends 0; next_frame; read_ends 0])))
    = [delivered demo_file; delivered demo_two_chunks].
Proof.
  assert (H : (sendFilesNow demo_platform demo_queue demo_channel).1
              = all_resolved demo_queue) by (vm_compute; reflexivity).
  split; [exact H|].
  pose proof (proj2 (queue_sends_files_in_order demo_platform demo_queue
                       demo_channel H
                       ltac:(apply Forall_cons; split; [done|];
                             apply Forall_cons; split; [|constructor];
                             cbn [job_file]; by rewrite demo_two_chunks_count))
                (new_receiver demo_channel)
                [(demo_file, as_buffers);
                 (demo_two_chunks,
                  as_blobs [next_frame; read_ends 0; next_frame; read_ends 0])]
                eq_refl) as H'.
  cbn [map concat fst snd] in H'. rewrite app_nil_r in H'.
  apply H'; [|done].
  apply Forall_cons; split; [done|].
  apply Forall_cons; split; [|constructor].
  cbn [fst snd]. unfold in_time, payloads. rewrite length_map.
  unfold frame_count. rewrite demo_two_chunks_count. reflexivity.
Defined.

(** X13.  How one call of [sendFilesNow] advances.  On an open channel a
    connected endpoint can send any list of files to the end (with reads
    that succeed and a channel that stays open); on a channel that is not
    open nothing is started; while the endpoint is not connected, the
    channel being open, every file is turned away and nothing is sent; and
    a send that neither resolves nor rejects blocks the queue, so that the
    files behind it are never started. *)
Theorem queue_progress (P : Platform) :
  (∀ fs ch, dc_open ch = true →
     ∃ queue, map job_file queue = fs
              ∧ Forall (fun job => job_connected job = true) queue
              ∧ (sendFilesNow P queue ch).1 = all_resolved queue)
  ∧ (∀ queue ch, dc_open ch = false →
       (sendFilesNow P queue ch).1 = []
       ∧ dc_sent (sendFilesNow P queue ch).2 = dc_sent ch)
  ∧ (∀ queue ch, dc_open ch = true →
       Forall (fun job => disconnected job = true) queue →
       (sendFilesNow P queue ch).1 = all_rejected queue
       ∧ dc_sent (sendFilesNow P queue ch).2 = dc_sent ch)
  ∧ (∀ q1 job q2 ch,
       (sendFilesNow P q1 ch).1 = all_resolved q1 →
       let ch1 := dc_drain (job_pause job) (sendFilesNow P q1 ch).2 in
       let out := transfer P (job_connected job) (job_file job)
                    (job_ticks job) ch1 in
       dc_open ch1 = true →
       status out.1 ≠ Resolved → status out.1 ≠ Rejected →
       sendFilesNow P (q1 ++ job :: q2) ch
       = (all_resolved q1 ++ [status out.1], out.2)).
Proof.
  split; [|split; [|split]].
  - apply queue_completes.
  - intros [|job queue] ch Hclosed; [done|]. cbn [sendFilesNow].
    cbn [dc_open dc_drain]. by rewrite Hclosed.
  - apply queue_refused.
  - intros q1 job q2 ch Hres ch1 out Hopen Hnres Hnrej.
    rewrite (queue_app P q1 (job :: q2) ch Hres). cbn [sendFilesNow].
    fold ch1. rewrite Hopen. fold out.
    by destruct (status out.1).
Qed.

End QueueFacts.

(** ** The checksum text *)

Module IntegrityFacts.
Import Integrity.

(** The value of a lower-case hexadecimal digit. *)
Definition digit_value (c : Ascii.ascii) : option N :=
  (fun found : nat * Ascii.ascii => N.of_nat found.1)
  <$> list_find (fun d => d = c)
        (String.list_ascii_of_string "0123456789abcdef").

(** The text of one byte, as [hashHex] writes it. *)
Definition hex (b : byte) : string := padStart2 (toString16 b).

Lemma hex_digits (b : byte) :
  ∃ c1 c2 v1 v2, hex b = String c1 (String c2 EmptyString)
                 ∧ digit_value c1 = Some v1 ∧ digit_value c2 = Some v2
                 ∧ Byte.to_N b = 16 * v1 + v2.
Proof. destruct b; do 4 eexists; repeat split. Qed.

Lemma hashHex_cons (b : byte) (h : list byte) :
  hashHex (b :: h) = (hex b +:+ hashHex h)%string.
Proof. reflexivity. Qed.

Lemma hex_inj (b1 b2 : byte) : hex b1 = hex b2 → b1 = b2.
Proof.
  intros E.
  destruct (hex_digits b1) as (c1 & c2 & v1 & v2 & E1 & D1 & D2 & V1).
  destruct (hex_digits b2) as (c1' & c2' & v1' & v2' & E2 & D1' & D2' & V2).
  rewrite E1, E2 in E. injection E as -> ->.
  assert (Hn : Byte.to_N b1 = Byte.to_N b2) by congruence.
  apply (f_equal Byte.of_N) in Hn. rewrite !Byte.of_to_N in Hn. congruence.
Qed.

(** X14.  The checksum text is a faithful rendering of the digest: two
    lower-case hexadecimal digits per byte, most significant first, with
    the leading zero kept, so that two digests have the same text only if
    they are the same bytes.  Hence comparing the texts, as
    [verifyFileIntegrity] does, is comparing the digests; the check passes
    as well when no digest can be computed. *)
Theorem checksum_text_faithful :
  (∀ h, String.length (hashHex h) = (2 * length h)%nat)
  ∧ (∀ h, Forall (fun c => is_Some (digit_value c))
            (String.list_ascii_of_string (hashHex h)))
  ∧ (∀ h1 h2, hashHex h1 = hashHex h2 → h1 = h2)
  ∧ (∀ sha256 blob expected,
       verifyFileIntegrity (Some sha256) blob (hashHex expected) = true
       ↔ sha256 blob = Some expected ∨ sha256 blob = None)
  ∧ (∀ blob text, verifyFileIntegrity None blob text = true).
Proof.
  assert (Hinj : ∀ h1 h2, hashHex h1 = hashHex h2 → h1 = h2).
  { induction h1 as [|b1 h1 IH]; intros [|b2 h2] E; try done.
    - rewrite hashHex_cons in E.
      destruct (hex_digits b2) as (c1 & c2 & _ & _ & E2 & _).
      rewrite E2 in E. discriminate E.
    - rewrite hashHex_cons in E.
      destruct (hex_digits b1) as (c1 & c2 & _ & _ & E1 & _).
      rewrite E1 in E. discriminate E.
    - rewrite !hashHex_cons in E.
      destruct (hex_digits b1) as (c1 & c2 & v1 & v2 & E1 & D1 & D2 & V1).
      destruct (hex_digits b2) as (c1' & c2' & v1' & v2' & E2 & D1' & D2' & V2).
      assert (Hb : hex b1 = hex b2 ∧ hashHex h1 = hashHex h2).
      { rewrite E1, E2 in E |- *. injection E as -> -> Hrest. split; [done|exact Hrest]. }
      destruct Hb as [Hb Hh]. by rewrite (hex_inj _ _ Hb), (IH _ Hh). }
  repeat split.
  - intros h. induction h as [|b h IH]; [done|]. rewrite hashHex_cons.
    destruct (hex_digits b) as (c1 & c2 & _ & _ & -> & _).
    change (String.length (String c1 (String c2 "") +:+ hashHex h))
      with (S (S (String.length (hashHex h)))).
    rewrite IH. cbn [length]. lia.
  - intros h. induction h as [|b h IH]; [constructor|]. rewrite hashHex_cons.
    destruct (hex_digits b) as (c1 & c2 & v1 & v2 & -> & D1 & D2 & _).
    change (String.list_ascii_of_string (String c1 (String c2 "") +:+ hashHex h))
      with (c1 :: c2 :: String.list_ascii_of_string (hashHex h)).
    repeat (constructor; [by eauto|]). exact IH.
  - exact Hinj.
  - unfold verifyFileIntegrity. destruct (sha256 blob) as [h|]; [|by right].
    intros E%bool_decide_eq_true. left. f_equal. by apply Hinj.
  - unfold verifyFileIntegrity. intros [-> | ->]; [|done].
    by apply bool_decide_eq_true.
Qed.

End IntegrityFacts.

(** ** Rate limiting *)

Module RateLimitFacts.
Import RateLimit.

(** The decisions taken for one address. *)
Definition answers (ip : string) (log : list (string * bool)) : list bool :=
  map snd (List.filter (fun x => bool_decide (x.1 = ip)) log).

(** The requests of one address. *)
Definition requests_of (ip : string) (reqs : list (Z * string))
  : list (Z * string) :=
  List.filter (fun r => bool_decide (r.2 = ip)) reqs.

(** No window is running for the entry at time [t]. *)
Definition lapsed (t : Z) (e : option Limit) : Prop :=
  match e with
  | None => True
  | Some l => (resetTime l < t)%Z
  end.

Lemma rateLimit_lapsed now ip m :
  lapsed now (m !! ip) →
  rateLimit now ip m
  = (true, <[ip := {| count := 1; resetTime := (now + RATE_LIMIT_WINDOW)%Z |}]> m).
Proof.
  unfold rateLimit, lapsed. destruct (m !! ip) as [l|]; [|done].
  intros Hl. by rewrite (proj2 (Z.ltb_lt _ _) Hl).
Qed.

Lemma rateLimit_within now ip m l :
  m !! ip = Some l → (now ≤ resetTime l)%Z →
  rateLimit now ip m
  = if (RATE_LIMIT_MAX <=? count l)%nat then (false, m)
    else (true, <[ip := {| count := S (count l); resetTime := resetTime l |}]> m).
Proof.
  unfold rateLimit. intros -> Hl. by rewrite (proj2 (Z.ltb_ge _ _) Hl).
Qed.

Lemma within_window ip R times : ∀ m c,
  m !! ip = Some {| count := c; resetTime := R |} →
  Forall (fun t => (t ≤ R)%Z) times →
  map snd (serve (map (fun t => (t, ip)) times) m).1
  = map (fun k => bool_decide (k < RATE_LIMIT_MAX)%nat) (seq c (length times))
  ∧ (serve (map (fun t => (t, ip)) times) m).2 !! ip
    = Some {| count := Nat.max c (Nat.min (c + length times) RATE_LIMIT_MAX);
              resetTime := R |}.
Proof.
  induction times as [|t times IH]; intros m c Hm Hts.
  - cbn. rewrite Hm. split; [done|]. do 2 f_equal. lia.
  - apply Forall_cons in Hts as [Ht Hts].
    cbn [map serve length seq fst snd].
    rewrite (rateLimit_within t ip m _ Hm) by done. cbn [count resetTime].
    destruct (Nat.leb_spec RATE_LIMIT_MAX c) as [Hfull|Hroom]; cbn [fst snd].
    + destruct (IH m c Hm Hts) as [IH1 IH2]. rewrite IH1, IH2. split.
      * rewrite bool_decide_eq_false_2 by lia. f_equal.
        clear -Hfull. generalize (length times) as n. intros n.
        revert c Hfull. induction n as [|n IHn]; intros c Hfull; [done|].
        cbn [seq map]. rewrite !bool_decide_eq_false_2 by lia. f_equal.
        apply IHn. lia.
      * do 2 f_equal. lia.
    + destruct (IH (<[ip := {| count := S c; resetTime := R |}]> m) (S c))
        as [IH1 IH2]; [by rewrite lookup_insert_eq|done|].
      rewrite IH1, IH2. split.
      * by rewrite bool_decide_eq_true_2 by lia.
      * do 2 f_equal. lia.
Qed.

Lemma rateLimit_local now ip m m' :
  m !! ip = m' !! ip →
  (rateLimit now ip m).1 = (rateLimit now ip m').1
  ∧ (rateLimit now ip m).2 !! ip = (rateLimit now ip m').2 !! ip.
Proof.
  unfold rateLimit. intros Hm. rewrite <- Hm.
  destruct (m !! ip) as [l|] eqn:E.
  - destruct (resetTime l <? now)%Z; cbn [fst snd]; [by rewrite !lookup_insert_eq|].
    destruct (RATE_LIMIT_MAX <=? count l)%nat; cbn [fst snd];
      [|by rewrite !lookup_insert_eq].
    split; [done|]. by rewrite <- Hm.
  - cbn [fst snd]. by rewrite !lookup_insert_eq.
Qed.

Lemma rateLimit_other now ip ip' m :
  ip ≠ ip' → (rateLimit now ip' m).2 !! ip = m !! ip.
Proof.
  unfold rateLimit. intros Hne. destruct (m !! ip') as [l|].
  - destruct (resetTime l <? now)%Z; cbn [fst snd]; [by rewrite lookup_insert_ne|].
    destruct (RATE_LIMIT_MAX <=? count l)%nat; cbn [fst snd];
      [done|by rewrite lookup_insert_ne].
  - cbn [fst snd]. by rewrite lookup_insert_ne.
Qed.

Lemma serve_local ip reqs : ∀ m m',
  m !! ip = m' !! ip →
  answers ip (serve reqs m).1 = map snd (serve (requests_of ip reqs) m').1
  ∧ (serve reqs m).2 !! ip = (serve (requests_of ip reqs) m').2 !! ip.
Proof.
  induction reqs as [|[t a] reqs IH]; intros m m' Hm; [done|].
  cbn [serve requests_of List.filter snd fst]. unfold answers.
  cbn [List.filter fst snd]. fold (requests_of ip reqs).
  case_bool_decide as Ha.
  - subst a. cbn [serve map fst snd].
    destruct (rateLimit_local t ip m m' Hm) as [H1 H2].
    destruct (IH _ _ H2) as [IH1 IH2]. unfold answers in IH1.
    by rewrite H1, IH1, IH2.
  - apply IH. rewrite rateLimit_other by done. exact Hm.
Qed.

(** The maps agree for every request from time [t] on. *)
Definition same_from (t : Z) (m1 m2 : gmap string Limit) : Prop :=
  ∀ ip, m1 !! ip = m2 !! ip
        ∨ (m1 !! ip = None ∧ lapsed t (m2 !! ip)).

Lemma cleanup_same t m : same_from t (cleanup t m) m.
Proof.
  intros ip. unfold cleanup. destruct (m !! ip) as [l|] eqn:E.
  - destruct (Z.ltb_spec (resetTime l) t) as [Hl|Hl].
    + right. split; [|done]. apply map_lookup_filter_None. right.
      intros l' Hl'. cbn. assert (l' = l) as -> by congruence.
      by rewrite (proj2 (Z.ltb_lt _ _) Hl).
    + left. apply map_lookup_filter_Some. split; [done|]. cbn.
      by apply Z.ltb_ge.
  - left. apply map_lookup_filter_None. by left.
Qed.

Lemma rateLimit_same t now ip m1 m2 :
  same_from t m1 m2 → (t ≤ now)%Z →
  (rateLimit now ip m1).1 = (rateLimit now ip m2).1
  ∧ same_from t (rateLimit now ip m1).2 (rateLimit now ip m2).2.
Proof.
  intros Hsame Hnow.
  assert (Hstep : ∀ ip', ip' ≠ ip →
            (rateLimit now ip m1).2 !! ip' = m1 !! ip'
            ∧ (rateLimit now ip m2).2 !! ip' = m2 !! ip').
  { intros ip' Hne. by rewrite !rateLimit_other. }
  destruct (Hsame ip) as [Heq|[Hnone Hlapsed]].
  - destruct (rateLimit_local now ip m1 m2 Heq) as [H1 H2]. split; [done|].
    intros ip'. destruct (decide (ip' = ip)) as [->|Hne]; [by left|].
    destruct (Hstep ip' Hne) as [-> ->]. apply Hsame.
  - assert (Hl1 : lapsed now (m1 !! ip)) by (by rewrite Hnone).
    assert (Hl2 : lapsed now (m2 !! ip)).
    { unfold lapsed in *. destruct (m2 !! ip); [lia|done]. }
    rewrite (rateLimit_lapsed now ip m1 Hl1), (rateLimit_lapsed now ip m2 Hl2).
    split; [done|]. cbn [snd]. intros ip'.
    destruct (decide (ip' = ip)) as [->|Hne].
    + left. by rewrite !lookup_insert_eq.
    + rewrite !lookup_insert_ne by done. apply Hsame.
Qed.

Lemma serve_same t reqs : ∀ m1 m2,
  same_from t m1 m2 → Forall (fun r => (t ≤ r.1)%Z) reqs →
  (serve reqs m1).1 = (serve reqs m2).1.
Proof.
  induction reqs as [|[now ip] reqs IH]; intros m1 m2 Hsame Hreqs; [done|].
  apply Forall_cons in Hreqs as [Hnow Hreqs]. cbn [serve fst snd].
  destruct (rateLimit_same t now ip m1 m2 Hsame Hnow) as [H1 H2].
  by rewrite H1, (IH _ _ H2 Hreqs).
Qed.

(** X15.  The quota of a window: when an address has no running window,
    its next request opens one that lasts [RATE_LIMIT_WINDOW]; of the
    requests it makes until the window is over, that first one included,
    the first [RATE_LIMIT_MAX] are let through and all later ones are
    refused, and the entry counts the requests let through. *)
Theorem quota_per_window (m : gmap string Limit) (ip : string) (t0 : Z)
    (times : list Z) :
  lapsed t0 (m !! ip) →
  Forall (fun t => (t ≤ t0 + RATE_LIMIT_WINDOW)%Z) times →
  let out := serve (map (fun t => (t, ip)) (t0 :: times)) m in
  map snd out.1
  = map (fun k => bool_decide (k < RATE_LIMIT_MAX)%nat)
        (seq 0 (S (length times)))
  ∧ out.2 !! ip
    = Some {| count := Nat.min (S (length times)) RATE_LIMIT_MAX;
              resetTime := (t0 + RATE_LIMIT_WINDOW)%Z |}.
Proof.
  intros Hlapsed Htimes out. subst out.
  cbn [map serve fst snd length seq]. rewrite (rateLimit_lapsed t0 ip m Hlapsed).
  cbn [fst snd].
  destruct (within_window ip (t0 + RATE_LIMIT_WINDOW)%Z times
              (<[ip := {| count := 1; resetTime := (t0 + RATE_LIMIT_WINDOW)%Z |}]> m) 1)
    as [H1 H2]; [by rewrite lookup_insert_eq|done|].
  rewrite H1, H2. split; [done|].
  replace (Nat.max 1 (Nat.min (1 + length times) RATE_LIMIT_MAX))
    with (Nat.min (S (length times)) RATE_LIMIT_MAX)
    by (unfold RATE_LIMIT_MAX; lia).
  reflexivity.
Qed.

Lemma quota_per_window_witness :
  map snd (serve (map (fun t => (t, "10.0.0.1"%string))
                    (0%Z :: repeat 5%Z 100)) ∅).1
  = repeat true 100 ++ [false].
Proof.
  refine (proj1 (quota_per_window ∅ "10.0.0.1"%string 0 (repeat 5%Z 100) _ _)).
  - done.
  - apply Forall_forall. intros t Ht%list_elem_of_In%repeat_spec.
    subst t. unfold RATE_LIMIT_WINDOW. lia.
Defined.

(** X16.  Addresses are limited independently of each other: the decisions
    taken for one address, and its entry in the map, are those that the
    requests of that address alone would have produced, whatever other
    addresses request in between. *)
Theorem addresses_limited_independently (reqs : list (Z * string))
    (m : gmap string Limit) (ip : string) :
  answers ip (serve reqs m).1 = map snd (serve (requests_of ip reqs) m).1
  ∧ (serve reqs m).2 !! ip = (serve (requests_of ip reqs) m).2 !! ip.
Proof. by apply serve_local. Qed.

(** X17.  The clean-up timer cannot be observed: deleting the entries
    whose window is over at time [t] changes no decision on any request
    that arrives from [t] on. *)
Theorem cleanup_is_invisible (t : Z) (m : gmap string Limit)
    (reqs : list (Z * string)) :
  Forall (fun r => (t ≤ r.1)%Z) reqs →
  (serve reqs (cleanup t m)).1 = (serve reqs m).1.
Proof. intros Hreqs. apply (serve_same t); [apply cleanup_same|done]. Qed.

Lemma cleanup_is_invisible_witness :
  let m := (serve [(0%Z, "10.0.0.1"%string); (70000%Z, "10.0.0.2"%string)] ∅).2 in
  (serve [(130000%Z, "10.0.0.1"%string); (130000%Z, "10.0.0.2"%string)]
     (cleanup 120000 m)).1
  = (serve [(130000%Z, "10.0.0.1"%string); (130000%Z, "10.0.0.2"%string)] m).1.
Proof.
  intros m. apply (cleanup_is_invisible 120000 m).
  repeat constructor; cbn; lia.
Defined.

End RateLimitFacts.

(** ** The heartbeat *)

Module HeartbeatFacts.
Import Heartbeat.

(** What happens between two runs of the timer. *)
Inductive Beat :=
| connects (ws : nat)
| pongs (ws : nat)
| closes (ws : nat).

Definition socket (ev : Beat) : nat :=
  match ev with connects ws | pongs ws | closes ws => ws end.

Definition handle (cs : gmap nat bool) (ev : Beat) : gmap nat bool :=
  match ev with
  | connects ws => hb_connection ws cs
  | pongs ws => hb_pong ws cs
  | closes ws => hb_close ws cs
  end.

Lemma handle_other cs ev ws :
  socket ev ≠ ws → handle cs ev !! ws = cs !! ws.
Proof.
  destruct ev as [w|w|w]; cbn; intros Hne.
  - unfold hb_connection. by rewrite lookup_insert_ne.
  - unfold hb_pong. by rewrite lookup_alter_ne.
  - unfold hb_close. by rewrite lookup_delete_ne.
Qed.

Lemma handle_own cs ev : handle cs ev !! socket ev ≠ Some false.
Proof.
  destruct ev as [w|w|w]; cbn.
  - unfold hb_connection. by rewrite lookup_insert_eq.
  - unfold hb_pong. rewrite lookup_alter_eq. by destruct (cs !! w).
  - unfold hb_close. by rewrite lookup_delete_eq.
Qed.

(** X18.  The heartbeat terminates exactly the silent clients: a socket is
    terminated by a run of the timer if and only if it was already a
    client at the previous run and nothing has been heard from it since
    (no pong, and it has not closed or reconnected).  In particular a
    client that answers each ping is never terminated, and a new client
    is never terminated by the first run after it connected. *)
Theorem heartbeat_terminates_silent (cs : gmap nat bool) (evs : list Beat)
    (ws : nat) :
  ws ∈ hb_terminated (foldl handle (hb_tick cs) evs)
  ↔ is_Some (cs !! ws) ∧ Forall (fun ev => socket ev ≠ ws) evs.
Proof.
  unfold hb_terminated. rewrite elem_of_dom.
  assert (Hflag : ∀ m : gmap nat bool,
            is_Some (filter (fun kv : nat * bool => kv.2 = false) m !! ws)
            ↔ m !! ws = Some false).
  { intros m. split.
    - intros [b Hb]. apply map_lookup_filter_Some in Hb as [Hb Hf].
      cbn in Hf. by subst b.
    - intros Hm. exists false. by apply map_lookup_filter_Some. }
  rewrite Hflag. clear Hflag.
  induction evs as [|ev evs IH] using rev_ind.
  - cbn. unfold hb_tick. rewrite lookup_fmap. split.
    + intros Hm. split; [|constructor]. destruct (cs !! ws); [by eexists|done].
    + intros [[b Hb] _]. by rewrite Hb.
  - rewrite foldl_app, Forall_app, Forall_singleton. cbn [foldl].
    destruct (decide (socket ev = ws)) as [<-|Hne].
    + split; [|by intros (_ & _ & ?)].
      intros Hm. by apply handle_own in Hm.
    + rewrite handle_other by done. rewrite IH. tauto.
Qed.

End HeartbeatFacts.

(** ** The signaling server, event by event *)

Module RoomFacts.
Import Broker BrokerFacts.
Local Open Scope nat_scope.

(** *** Room codes *)

(** The characters a room code is drawn from. *)
Definition alphabet : list Ascii.ascii := String.list_ascii_of_string chars.

Lemma charAt_alphabet k :
  k < 32 → ∃ c, charAt chars k = String c EmptyString ∧ c ∈ alphabet.
Proof.
  intros Hk.
  do 32 (destruct k as [|k];
         [eexists; split; [reflexivity|];
          unfold alphabet; cbn; repeat (first [left | right]) |]).
  lia.
Qed.

Lemma list_ascii_append (s1 s2 : string) :
  String.list_ascii_of_string (s1 +:+ s2)
  = String.list_ascii_of_string s1 ++ String.list_ascii_of_string s2.
Proof. induction s1 as [|c s1 IH]; [done|]. cbn. by rewrite <- IH. Qed.

(** X19.  A room code is six characters drawn from the 32-character
    alphabet that leaves out the look-alikes I, O, 0 and 1, whatever
    [Math.random] returns. *)
Theorem room_code_alphabet (rnd : nat → nat) :
  String.length (generateRoomCode rnd) = 6
  ∧ Forall (fun c => c ∈ alphabet)
      (String.list_ascii_of_string (generateRoomCode rnd))
  ∧ Forall (fun c => c ∉ alphabet)
      (String.list_ascii_of_string "IO01"%string)
  ∧ length alphabet = 32 ∧ NoDup alphabet.
Proof.
  split; [apply generateRoomCode_length|]. split; [|split; [|split]].
  - unfold generateRoomCode. cbn [foldl seq].
    destruct (charAt_alphabet (rnd 0 mod 32)) as (c0 & -> & H0);
      [apply Nat.mod_upper_bound; lia|].
    destruct (charAt_alphabet (rnd 1 mod 32)) as (c1 & -> & H1);
      [apply Nat.mod_upper_bound; lia|].
    destruct (charAt_alphabet (rnd 2 mod 32)) as (c2 & -> & H2);
      [apply Nat.mod_upper_bound; lia|].
    destruct (charAt_alphabet (rnd 3 mod 32)) as (c3 & -> & H3);
      [apply Nat.mod_upper_bound; lia|].
    destruct (charAt_alphabet (rnd 4 mod 32)) as (c4 & -> & H4);
      [apply Nat.mod_upper_bound; lia|].
    destruct (charAt_alphabet (rnd 5 mod 32)) as (c5 & -> & H5);
      [apply Nat.mod_upper_bound; lia|].
    rewrite !list_ascii_append. cbn [String.list_ascii_of_string app].
    repeat (apply Forall_cons; split; [assumption|]). constructor.
  - cbn [String.list_ascii_of_string].
    repeat (apply Forall_cons; split;
            [eapply bool_decide_eq_false; vm_compute; reflexivity|]).
    constructor.
  - reflexivity.
  - apply (bool_decide_unpack _). vm_compute. exact I.
Qed.

(** *** Rooms are never empty *)

Lemma on_close_nonempty ws b r room' :
  (∀ r room, rooms b !! r = Some room → peers room ≠ []) →
  rooms (on_close ws b) !! r = Some room' → peers room' ≠ [].
Proof.
  intros IH. unfold on_close.
  destruct (current_room ws b) as [[id room]|] eqn:Hcur; [|apply IH].
  destruct (filter (fun p => p ≠ ws) (peers room)) as [|p ps] eqn:Hrem.
  - cbn. destruct (decide (r = id)) as [->|Hne].
    + by rewrite lookup_delete_eq.
    + rewrite lookup_delete_ne, lookup_insert_ne by done. apply IH.
  - rewrite rooms_send_all. cbn. destruct (decide (r = id)) as [->|Hne].
    + rewrite lookup_insert_eq. by intros [= <-].
    + rewrite lookup_insert_ne by done. apply IH.
Qed.

(** X20.  The room table never holds a room without peers: a room is
    created with its creator in it, joining only adds peers, and the
    [close] handler deletes the room when it removes the last one. *)
Theorem rooms_never_empty (b : State) (r : string) (room : Room) :
  reachable b → rooms b !! r = Some room → peers room ≠ [].
Proof.
  intros Hb. revert r room.
  induction Hb as [|b ev Hb IH]; intros r room' Hr; [done|].
  destruct ev as [e ev]. destruct ev as [ws|ws data|ws|ws|].
  2: { apply step_rooms in Hr.
       destruct Hr as [Hsame|ws' rid _ -> ->|ws' room _ Hroom _ Hpeers _ _ _
                      |ws' o room _ Hroom ->|ws' a room _ Hroom ->
                      |ws' room Hev _ _].
       - by apply (IH r).
       - done.
       - rewrite Hpeers. by destruct (peers room).
       - by apply (IH r room).
       - by apply (IH r room).
       - discriminate Hev. }
  3: { unfold step in Hr. cbn in Hr. destruct (alive ws b); [|by apply (IH r)].
       by apply (on_close_nonempty ws b r). }
  all: apply step_rooms in Hr;
    destruct Hr as [Hsame|? ? Hev|? ? Hev|? ? ? Hev|? ? ? Hev|? ? Hev];
    try discriminate Hev; by apply (IH r).
Qed.

Lemma rooms_never_empty_witness :
  ∃ room, rooms (run demo_full_room) !! "ABCDEF"%string = Some room
          ∧ peers room ≠ [].
Proof.
  destruct (rooms (run demo_full_room) !! "ABCDEF"%string) as [room|] eqn:E.
  - exists room. split; [done|].
    apply (rooms_never_empty (run demo_full_room) "ABCDEF"%string room);
      [apply reachable_run|exact E].
  - vm_compute in E. discriminate E.
Defined.

(** *** Who is written to *)

(** A socket after [k] copies of [m] were written to it. *)
Definition delivered_to (m : ServerMessage) (k : nat) (s : Session) : Session :=
  if is_open s
  then {| readyState := readyState s; currentRoom := currentRoom s;
          peerId := peerId s; outbox := outbox s ++ repeat m k |}
  else s.

(** The number of times [p] is listed in [ps]. *)
Definition listed (p : nat) (ps : list nat) : nat :=
  length (filter (fun q => q = p) ps).

Lemma delivered_to_0 m s : delivered_to m 0 s = s.
Proof.
  unfold delivered_to. destruct (is_open s); [|done].
  destruct s. cbn. by rewrite app_nil_r.
Qed.

Lemma lookup_send m p ws b :
  sockets (send ws m b) !! p
  = (if bool_decide (p = ws) then delivered_to m 1 else id) <$> sockets b !! p.
Proof.
  case_bool_decide as Hp.
  - subst p. unfold send, delivered_to.
    destruct (sockets b !! ws) as [s|] eqn:E; [|by rewrite E].
    destruct (is_open s) eqn:Hs; cbn.
    + by rewrite lookup_insert_eq, Hs.
    + by rewrite E, Hs.
  - rewrite lookup_send_ne by done. by destruct (sockets b !! p).
Qed.

Lemma delivered_to_S m k s :
  delivered_to m k (delivered_to m 1 s) = delivered_to m (S k) s.
Proof.
  unfold delivered_to. destruct (is_open s) eqn:Hs; cbn; [|by rewrite Hs].
  unfold is_open in *. cbn. rewrite Hs. by rewrite <- app_assoc.
Qed.

Lemma lookup_send_each m p ps : ∀ b,
  sockets (foldl (fun b peer => send peer m b) b ps) !! p
  = delivered_to m (listed p ps) <$> sockets b !! p.
Proof.
  induction ps as [|q ps IH]; intros b.
  - cbn. destruct (sockets b !! p) as [s|]; [|done]. cbn.
    by rewrite delivered_to_0.
  - cbn [foldl]. rewrite IH, lookup_send. unfold listed.
    rewrite filter_cons. destruct (sockets b !! p) as [s|]; [|done].
    case_bool_decide as Hp; cbn.
    + subst q. rewrite decide_True by done. cbn. by rewrite delivered_to_S.
    + rewrite decide_False by done. done.
Qed.

Lemma lookup_broadcast ws m p ps : ∀ b,
  sockets (broadcast ws m ps b) !! p
  = (if bool_decide (p = ws) then id else delivered_to m (listed p ps))
    <$> sockets b !! p.
Proof.
  unfold broadcast. induction ps as [|q ps IH]; intros b.
  - cbn. destruct (sockets b !! p) as [s|]; [|done]. cbn.
    case_bool_decide; [done|]. by rewrite delivered_to_0.
  - cbn [foldl]. rewrite IH. unfold listed. rewrite filter_cons.
    destruct (decide (q = ws)) as [->|Hq].
    + rewrite (bool_decide_eq_true_2 (ws = ws)) by done.
      case_bool_decide as Hp; [done|]. rewrite decide_False by done. done.
    + rewrite (bool_decide_eq_false_2 (q = ws)) by done. rewrite lookup_send.
      destruct (sockets b !! p) as [s|]; [|done]. cbn.
      destruct (decide (p = ws)) as [->|Hp].
      * rewrite !(bool_decide_eq_true_2 (ws = ws)) by done.
        by rewrite (bool_decide_eq_false_2 (ws = q)) by done.
      * rewrite !(bool_decide_eq_false_2 (p = ws)) by done.
        destruct (decide (q = p)) as [->|Hpq].
        -- rewrite (bool_decide_eq_true_2 (p = p)) by done. cbn.
           by rewrite delivered_to_S.
        -- by rewrite (bool_decide_eq_false_2 (p = q)) by done.
Qed.

Lemma alive_Some ws b :
  alive ws b = true →
  ∃ s, sockets b !! ws = Some s ∧ readyState s ≠ CLOSED.
Proof.
  unfold alive. destruct (sockets b !! ws) as [s|]; [|done].
  intros H. exists s. split; [done|]. intros E. by rewrite E in H.
Qed.

(** X21.  ICE candidates and relayed frames are passed on and nothing
    else: the room table is left as it is (such a frame is never
    buffered), the sender's own socket is not written to, and every other
    socket listed in the sender's room receives the frame, unchanged, if
    it is open.  From a socket that is in no room the frame is dropped. *)
Theorem candidates_relayed_to_others (b : State) (e : Env) (ws : nat)
    (data : ClientMessage) :
  alive ws b = true →
  (∃ c, data = ice_candidate c) ∨ (∃ k body, data = relay k body) →
  let b' := step b (e, message ws data) in
  rooms b' = rooms b
  ∧ sockets b' !! ws = sockets b !! ws
  ∧ match current_room ws b with
    | Some (_, room) =>
        ∀ p, p ≠ ws →
             sockets b' !! p
             = delivered_to (forwarded data) (listed p (peers room))
               <$> sockets b !! p
    | None => b' = b
    end.
Proof.
  intros Halive Hdata b'. subst b'. unfold step. cbn [snd fst]. rewrite Halive.
  assert (Hstep : on_message e ws data b
                  = match current_room ws b with
                    | Some (_, room) => broadcast ws (forwarded data) (peers room) b
                    | None => b
                    end).
  { destruct Hdata as [[c ->]|(k & body & ->)]; cbn;
      unfold handleSignaling, broadcastToRoom;
      by destruct (current_room ws b) as [[??]|]. }
  rewrite Hstep. destruct (current_room ws b) as [[id room]|]; [|done].
  rewrite rooms_broadcast. split; [done|]. split.
  - rewrite lookup_broadcast, bool_decide_eq_true_2 by done.
    by destruct (sockets b !! ws).
  - intros p Hp. by rewrite lookup_broadcast, bool_decide_eq_false_2.
Qed.

Lemma candidates_relayed_to_others_witness :
  (outbox <$> sockets (step (run demo_full_room)
                         (demo_env, message 1 (ice_candidate (JObject "c"))))
              !! 2)
  = Some [connected; joined "ABCDEF" (Some "peer2"%string) receiver (Some 2);
          forwarded (ice_candidate (JObject "c"))].
Proof.
  destruct (candidates_relayed_to_others (run demo_full_room) demo_env 1
              (ice_candidate (JObject "c"))) as (_ & _ & H).
  - reflexivity.
  - left. by eexists.
  - assert (Hcur : ∃ room, current_room 1 (run demo_full_room)
                           = Some ("ABCDEF"%string, room)
                           ∧ peers room = [1; 2]).
    { eexists. split; [vm_compute; reflexivity|reflexivity]. }
    destruct Hcur as (room & Hcur & Hpeers). rewrite Hcur in H.
    rewrite (H 2) by done. rewrite Hpeers. reflexivity.
Defined.

(** *** A socket closes *)

Lemma listed_remaining ws p ps :
  p ≠ ws → listed p (filter (fun q => q ≠ ws) ps) = listed p ps.
Proof.
  intros Hp. unfold listed. induction ps as [|q ps IH]; [done|].
  rewrite !filter_cons. destruct (decide (q ≠ ws)) as [Hq|Hq].
  - rewrite filter_cons. destruct (decide (q = p)); cbn; by rewrite IH.
  - rewrite IH. destruct (decide (q = p)) as [->|]; [|done].
    destruct Hq. done.
Qed.

Lemma listed_removed ws ps : listed ws (filter (fun q => q ≠ ws) ps) = 0.
Proof.
  unfold listed. induction ps as [|q ps IH]; [done|].
  rewrite filter_cons. destruct (decide (q ≠ ws)) as [Hq|Hq]; [|done].
  rewrite filter_cons. by rewrite decide_False.
Qed.

(** X22.  When a socket closes, it is taken out of the room it joined
    last: the room stays in the table with the other peers, or is deleted
    if there are none; every other open socket listed in the room is sent
    [peer-disconnected]; no other room and no other socket is touched. *)
Theorem close_leaves_room (b : State) (e : Env) (ws : nat) (id : string)
    (room : Room) :
  alive ws b = true → current_room ws b = Some (id, room) →
  let remaining := filter (fun p => p ≠ ws) (peers room) in
  let b' := step b (e, close ws) in
  rooms b' = match remaining with
             | [] => delete id (rooms b)
             | _ => <[id := with_peers remaining room]> (rooms b)
             end
  ∧ (∀ room', rooms b' !! id = Some room' → ws ∉ peers room')
  ∧ (∀ r, r ≠ id → rooms b' !! r = rooms b !! r)
  ∧ (∀ p, p ≠ ws →
          sockets b' !! p
          = delivered_to peer_disconnected (listed p (peers room))
            <$> sockets b !! p)
  ∧ (∀ s, sockets b !! ws = Some s →
          sockets b' !! ws
          = Some {| readyState := CLOSED; currentRoom := currentRoom s;
                    peerId := peerId s; outbox := outbox s |}).
Proof.
  intros Halive Hcur remaining b'. subst b'. unfold step. cbn [fst snd].
  rewrite Halive. unfold on_close. rewrite Hcur. fold remaining.
  match goal with |- context [foldl _ ?x remaining] => set (b1 := x) end.
  assert (Hrooms : rooms (foldl (fun b peer => send peer peer_disconnected b)
                            b1 remaining)
                   = <[id := with_peers remaining room]> (rooms b)).
  { by rewrite rooms_send_all. }
  assert (Hsock : ∀ p,
            sockets (foldl (fun b peer => send peer peer_disconnected b)
                       b1 remaining) !! p
            = delivered_to peer_disconnected (listed p remaining)
              <$> sockets b1 !! p).
  { intros p. apply lookup_send_each. }
  assert (Hout : ∀ b2 : State,
            rooms b2 = <[id := with_peers remaining room]> (rooms b) →
            (∀ p, sockets b2 !! p
                  = delivered_to peer_disconnected (listed p remaining)
                    <$> sockets b1 !! p) →
            let b' := match remaining with
                      | [] => set_rooms (delete id) b2
                      | _ => b2
                      end in
            rooms b' = match remaining with
                       | [] => delete id (rooms b)
                       | _ => <[id := with_peers remaining room]> (rooms b)
                       end
            ∧ ∀ p, sockets b' !! p
                   = delivered_to peer_disconnected (listed p remaining)
                     <$> sockets b1 !! p).
  { intros b2 Hr Hs. destruct remaining; cbn; [|done].
    by rewrite Hr, delete_insert_eq. }
  destruct (Hout _ Hrooms Hsock) as [Hr Hs]. clear Hout Hrooms Hsock.
  split; [exact Hr|]. rewrite Hr. split; [|split; [|split]].
  - intros room'. destruct remaining as [|q qs] eqn:Hrem.
    + by rewrite lookup_delete_eq.
    + rewrite lookup_insert_eq. intros [= <-]. cbn. rewrite <- Hrem.
      subst remaining. intros Hin%list_elem_of_filter. by destruct Hin.
  - intros r Hne. destruct remaining.
    + by rewrite lookup_delete_ne.
    + by rewrite lookup_insert_ne.
  - intros p Hp. rewrite Hs. subst b1 remaining. cbn.
    rewrite lookup_alter_ne by done. by rewrite listed_remaining.
  - intros s Hws. rewrite Hs. subst b1 remaining. cbn.
    rewrite lookup_alter_eq, Hws, listed_removed. cbn -[delivered_to].
    by rewrite delivered_to_0.
Qed.

Lemma close_leaves_room_witness :
  (peers <$> rooms (step (run demo_full_room) (demo_env, close 1))
             !! "ABCDEF"%string) = Some [2].
Proof.
  assert (Hcur : ∃ room, current_room 1 (run demo_full_room)
                         = Some ("ABCDEF"%string, room) ∧ peers room = [1; 2]).
  { eexists. split; [vm_compute; reflexivity|reflexivity]. }
  destruct Hcur as (room & Hcur & Hpeers).
  destruct (close_leaves_room (run demo_full_room) demo_env 1 "ABCDEF"%string
              room eq_refl Hcur) as (Hrooms & _).
  rewrite Hrooms, Hpeers.
  change (filter (fun p => p ≠ 1) [1; 2]) with [2]. cbv iota.
  by rewrite lookup_insert_eq.
Defined.

(** *** Offer and answer *)

(** X23.  With the addressee online nothing is buffered: an offer is
    written to the second peer of the sender's room and to no one else,
    an answer to the first peer and to no one else, and the room table is
    left as it is. *)
Theorem offer_and_answer_forwarded (b : State) (e : Env) (ws : nat)
    (id : string) (room : Room) (p : nat) (sp : Session) (v : JSValue) :
  alive ws b = true → current_room ws b = Some (id, room) →
  sockets b !! p = Some sp → readyState sp = OPEN →
  (peers room !! 1 = Some p →
   step b (e, message ws (offer v))
   = {| rooms := rooms b;
        sockets := <[p := push (forwarded (offer v)) sp]> (sockets b) |})
  ∧ (peers room !! 0 = Some p →
     step b (e, message ws (answer v))
     = {| rooms := rooms b;
          sockets := <[p := push (forwarded (answer v)) sp]> (sockets b) |}).
Proof.
  intros Halive Hcur Hp Hopen.
  assert (Hso : socket_open p b = true).
  { unfold socket_open, is_open. by rewrite Hp, Hopen. }
  split; intros Hpeer; unfold step; cbn [fst snd]; rewrite Halive; cbn;
    unfold handleSignaling; rewrite Hcur, Hpeer, Hso;
    by rewrite (send_open p sp).
Qed.

Lemma offer_and_answer_forwarded_witness :
  (outbox <$> sockets (step (run demo_full_room)
                         (demo_env, message 1 (offer (JObject "sdp")))) !! 2)
  = Some [connected; joined "ABCDEF" (Some "peer2"%string) receiver (Some 2);
          forwarded (offer (JObject "sdp"))].
Proof.
  assert (Hcur : ∃ room, current_room 1 (run demo_full_room)
                         = Some ("ABCDEF"%string, room) ∧ peers room = [1; 2]).
  { eexists. split; [vm_compute; reflexivity|reflexivity]. }
  destruct Hcur as (room & Hcur & Hpeers).
  assert (Hs : ∃ sp, sockets (run demo_full_room) !! 2 = Some sp
                     ∧ readyState sp = OPEN
                     ∧ outbox sp = [connected;
                                    joined "ABCDEF" (Some "peer2"%string)
                                      receiver (Some 2)]).
  { eexists. split; [vm_compute; reflexivity|split; reflexivity]. }
  destruct Hs as (sp & Hsp & Hopen & Hout).
  destruct (offer_and_answer_forwarded (run demo_full_room) demo_env 1
              "ABCDEF"%string room 2 sp (JObject "sdp") eq_refl Hcur Hsp Hopen)
    as [Hoffer _].
  rewrite Hoffer by (by rewrite Hpeers). cbn [sockets].
  rewrite lookup_insert_eq. cbn. by rewrite Hout.
Defined.

(** *** Expiry *)

Lemma doomed_peer (t : Z) (b : State) (ws : nat) :
  ws ∈ (list_to_set
          (concat (map (fun kr : string * Room => peers kr.2)
                     (map_to_list
                        (filter (fun kr : string * Room => expired t kr.2 = true)
                           (rooms b))))) : gset nat)
  ↔ ∃ r room, rooms b !! r = Some room ∧ expired t room = true
              ∧ ws ∈ peers room.
Proof.
  rewrite elem_of_list_to_set, list_elem_of_In, in_concat. split.
  - intros (ps & Hps & Hws). apply in_map_iff in Hps as ([r room] & <- & Hin).
    apply list_elem_of_In, elem_of_map_to_list, map_lookup_filter_Some in Hin
      as [Hroom Hexp].
    exists r, room. by rewrite list_elem_of_In.
  - intros (r & room & Hroom & Hexp & Hws). exists (peers room). split.
    + apply in_map_iff. exists (r, room). split; [done|].
      apply list_elem_of_In, elem_of_map_to_list, map_lookup_filter_Some.
      by split.
    + by apply list_elem_of_In.
Qed.

(** X24.  The expiry sweep deletes exactly the rooms older than
    [ROOM_EXPIRY] and leaves the others as they are; the open sockets
    listed in a deleted room are sent [room-expired] once and start
    closing, every other socket is left alone; and a later attempt to join
    a deleted code is answered with "Invalid or expired room". *)
Theorem sweep_removes_expired (b : State) (e : Env) :
  let b' := step b (e, sweep) in
  (∀ r room, rooms b' !! r = Some room
             ↔ rooms b !! r = Some room
               ∧ (now e - createdAt room ≤ ROOM_EXPIRY)%Z)
  ∧ (∀ ws s r room,
       sockets b !! ws = Some s → readyState s = OPEN →
       rooms b !! r = Some room → (ROOM_EXPIRY < now e - createdAt room)%Z →
       ws ∈ peers room →
       sockets b' !! ws
       = Some {| readyState := CLOSING; currentRoom := currentRoom s;
                 peerId := peerId s; outbox := outbox s ++ [room_expired] |})
  ∧ (∀ ws s,
       sockets b !! ws = Some s →
       readyState s ≠ OPEN
       ∨ (∀ r room, rooms b !! r = Some room → ws ∈ peers room →
                    (now e - createdAt room ≤ ROOM_EXPIRY)%Z) →
       sockets b' !! ws = Some s)
  ∧ (∀ ws s r room e2,
       rooms b !! r = Some room → (ROOM_EXPIRY < now e - createdAt room)%Z →
       sockets b' !! ws = Some s → readyState s = OPEN →
       step b' (e2, message ws (join (Some r) false))
       = {| rooms := rooms b';
            sockets := <[ws := push (error "Invalid or expired room") s]>
                         (sockets b') |}).
Proof.
  intros b'.
  assert (Hrooms : ∀ r room, rooms b' !! r = Some room
                     ↔ rooms b !! r = Some room
                       ∧ (now e - createdAt room ≤ ROOM_EXPIRY)%Z).
  { intros r room. subst b'. unfold step, on_sweep. cbn.
    rewrite map_lookup_filter_Some. unfold expired. cbn.
    by rewrite Z.ltb_ge. }
  split; [exact Hrooms|]. split; [|split].
  - intros ws s r room Hws Hopen Hroom Hexp Hin. subst b'.
    unfold step, on_sweep. cbn. rewrite map_lookup_imap, Hws. cbn.
    unfold is_open. rewrite Hopen. cbn.
    rewrite bool_decide_eq_true_2; [done|]. apply doomed_peer.
    exists r, room. repeat split; try done. by apply Z.ltb_lt.
  - intros ws s Hws Hkeep. subst b'.
    unfold step, on_sweep. cbn. rewrite map_lookup_imap, Hws. cbn.
    destruct Hkeep as [Hclosed|Hyoung].
    + unfold is_open. by destruct (readyState s).
    + rewrite bool_decide_eq_false_2; [by rewrite andb_false_r|].
      intros (r & room & Hroom & Hexp & Hin)%doomed_peer.
      apply Z.ltb_lt in Hexp. specialize (Hyoung r room Hroom Hin). lia.
  - intros ws s r room e2 Hroom Hexp Hws Hopen.
    assert (Hgone : rooms b' !! r = None).
    { destruct (rooms b' !! r) as [room'|] eqn:E; [|done].
      apply Hrooms in E as [E ?]. assert (room' = room) by congruence.
      subst room'. lia. }
    clearbody b'. unfold step. cbn [fst snd].
    rewrite (alive_open ws s) by done. cbn [on_message].
    unfold handleJoin. rewrite Hgone.
    destruct (bool_decide (r = ""%string)); by rewrite (send_open ws s).
Qed.

(** *** The second peer joins *)

(** X25.  When a second socket joins a room whose creator is online and
    no offer is waiting, the room lists both, creator first; the creator
    is told [joined] as sender and the newcomer [joined] as receiver with
    peer id "peer2", both with a peer count of 2; the newcomer's
    connection now belongs to the room; nothing else changes. *)
Theorem second_peer_joins (b : State) (e : Env) (r : string) (room : Room)
    (s w : nat) (ss sw : Session) :
  r ≠ ""%string → rooms b !! r = Some room → peers room = [s] →
  sockets b !! s = Some ss → readyState ss = OPEN →
  sockets b !! w = Some sw → readyState sw = OPEN → w ≠ s →
  truthy (pendingOffer room) = false →
  step b (e, message w (join (Some r) false))
  = {| rooms :=
         <[r := {| peers := [s; w]; createdAt := createdAt room;
                   peerIds := <[w := "peer2"%string]> (peerIds room);
                   pendingOffer := pendingOffer room;
                   pendingAnswer := pendingAnswer room |}]> (rooms b);
       sockets :=
         <[w := {| readyState := OPEN; currentRoom := Some r;
                   peerId := Some "peer2"%string;
                   outbox := outbox sw
                             ++ [joined r (Some "peer2"%string) receiver
                                   (Some 2)] |}]>
           (<[s := push (joined r (peerIds room !! s) sender (Some 2)) ss]>
              (sockets b)) |}.
Proof.
  intros Hr Hroom Hpeers Hs Hsopen Hw Hwopen Hne Hfalsy. unfold step.
  cbn [fst snd]. rewrite (alive_open w sw) by done. cbn [on_message].
  unfold handleJoin. rewrite bool_decide_eq_false_2, Hroom, Hpeers by done.
  cbn [length Nat.leb MAX_ROOM_SIZE app peers pendingOffer]. rewrite Hfalsy.
  cbn [andb notify_joined peers peerIds length].
  set (sw1 := {| readyState := OPEN; currentRoom := Some r;
                 peerId := Some "peer2"%string; outbox := outbox sw |}).
  match goal with |- context [set_rooms (insert r ?x) _] => set (room1 := x) end.
  set (b2 := set_rooms (insert r room1) (enter w r "peer2" b)).
  assert (Hb2 : b2 = {| rooms := <[r := room1]> (rooms b);
                        sockets := <[w := sw1]> (sockets b) |}).
  { unfold b2, enter, set_rooms, set_sockets. cbn. f_equal.
    apply map_eq. intros p. destruct (decide (p = w)) as [->|Hp].
    - rewrite lookup_alter_eq, lookup_insert_eq, Hw. cbn. unfold sw1.
      by rewrite Hwopen.
    - by rewrite lookup_alter_ne, lookup_insert_ne. }
  rewrite (lookup_insert_ne _ w s) by done. rewrite lookup_insert_eq.
  set (m1 := joined r (peerIds room !! s) sender (Some 2)).
  set (m2 := joined r (Some "peer2"%string) receiver (Some 2)).
  assert (Hs2 : sockets b2 !! s = Some ss).
  { rewrite Hb2. cbn. by rewrite lookup_insert_ne. }
  rewrite (send_open s ss m1 b2) by done.
  assert (Hw3 : sockets (set_sockets (insert s (push m1 ss)) b2) !! w = Some sw1).
  { rewrite Hb2. cbn. by rewrite lookup_insert_ne, lookup_insert_eq. }
  rewrite (send_open w sw1 m2) by done.
  rewrite Hb2. unfold set_sockets. cbn. f_equal.
  rewrite (insert_insert_ne _ s w) by done. by rewrite insert_insert_eq.
Qed.

Lemma second_peer_joins_witness :
  (outbox <$> sockets (step (run demo_waiting_room)
                         (demo_env, message 2 (join (Some "ABCDEF"%string) false)))
              !! 1)
  = Some [connected; joined "ABCDEF" (Some "peer1"%string) sender None;
          joined "ABCDEF" (Some "peer1"%string) sender (Some 2)].
Proof.
  assert (Hroom : ∃ room, rooms (run demo_waiting_room) !! "ABCDEF"%string
                          = Some room
                          ∧ peers room = [1] ∧ truthy (pendingOffer room) = false
                          ∧ peerIds room !! 1 = Some "peer1"%string).
  { eexists. split; [vm_compute; reflexivity|]. repeat split. }
  destruct Hroom as (room & Hroom & Hpeers & Hfalsy & Hid).
  assert (H1 : ∃ ss, sockets (run demo_waiting_room) !! 1 = Some ss
                     ∧ readyState ss = OPEN
                     ∧ outbox ss = [connected;
                                    joined "ABCDEF" (Some "peer1"%string)
                                      sender None]).
  { eexists. split; [vm_compute; reflexivity|split; reflexivity]. }
  destruct H1 as (ss & Hss & Hsopen & Hsout).
  assert (H2 : ∃ sw, sockets (run demo_waiting_room) !! 2 = Some sw
                     ∧ readyState sw = OPEN).
  { eexists. split; [vm_compute; reflexivity|reflexivity]. }
  destruct H2 as (sw & Hsw & Hwopen).
  rewrite (second_peer_joins (run demo_waiting_room) demo_env "ABCDEF"%string
             room 1 2 ss sw) by done.
  cbn [sockets]. rewrite lookup_insert_ne, lookup_insert_eq by done.
  cbn. by rewrite Hsout, Hid.
Defined.
End RoomFacts.
